(** * Archon incremental sync pipeline: a shallow embedding and its properties

    The development follows the Python sources under
    [python/src/server/services]: the chunker, the chunk-level diff and the
    change categorisation of the sync engine, the batch embedder with its
    rate limiter, the circuit breaker, the retry decorator and the error
    classifier, the debouncer, and the validation of a project's local path.

    Conventions.
    - Python [int] is [Z]; list lengths are injected with [Z.of_nat].
    - Python [str] is [string]; the character classes of [re] and
      [str.lower] are given on the ASCII range.
    - A [datetime] is a number of microseconds ([Z]); a [timedelta] too.
    - A [dict] is a [gmap]; a [set] is a [gset]; where the source turns one
      of them into a list the order of that list is not specified.
    - A raised exception is an explicit error result.
    - The delays of the retry decorator are floats: an abstract type with
      its product and [min]; timestamps, which are only compared, and the
      delays of [_embed_with_retry], products by powers of two, are
      rationals.
    - The store answers every query; a directory is the tree that
      [os.walk] lists. *)

From Stdlib Require Import ZArith QArith Lia Lqa Ascii String Bool.
From stdpp Require Import gmap strings list fin_maps pretty.

#[local] Set Warnings "-clear-no-such-hyp,-register-all".

Local Open Scope string_scope.
Local Open Scope list_scope.
Local Open Scope Z_scope.

(** ** Text primitives of the Python runtime *)

Module Text.

Definition newline : ascii := Ascii.ascii_of_nat 10.

(** [s.startswith(p)] *)
Definition startswith (s p : string) : bool := String.prefix p s.

(** [needle in hay] *)
Fixpoint contains (hay needle : string) : bool :=
  String.prefix needle hay ||
  match hay with
  | EmptyString => false
  | String _ hay' => contains hay' needle
  end.

(** [s.endswith(p)] *)
Fixpoint endswith (s p : string) : bool :=
  String.eqb s p ||
  match s with
  | EmptyString => false
  | String _ s' => endswith s' p
  end.

Definition lower_ascii (c : ascii) : ascii :=
  let n := Ascii.nat_of_ascii c in
  if (Nat.leb 65 n && Nat.leb n 90)%bool then Ascii.ascii_of_nat (n + 32) else c.

(** [s.lower()] *)
Fixpoint lower (s : string) : string :=
  match s with
  | EmptyString => EmptyString
  | String c s' => String (lower_ascii c) (lower s')
  end.

(** [s.split('\n')] *)
Fixpoint split_nl (s : string) : list string :=
  match s with
  | EmptyString => [EmptyString]
  | String c s' =>
      if Ascii.eqb c newline then EmptyString :: split_nl s'
      else match split_nl s' with
           | l :: ls => String c l :: ls
           | [] => [String c EmptyString]
           end
  end.

(** ['\n'.join(ls)] *)
Fixpoint join_nl (ls : list string) : string :=
  match ls with
  | [] => EmptyString
  | l :: ls' =>
      match ls' with
      | [] => l
      | _ :: _ => l +:+ String newline (join_nl ls')
      end
  end.

Fixpoint no_newline (s : string) : bool :=
  match s with
  | EmptyString => true
  | String c s' => negb (Ascii.eqb c newline) && no_newline s'
  end.

(** Strings made of decimal digits and the minus sign. *)
Definition is_numeric (c : ascii) : bool :=
  let n := Ascii.nat_of_ascii c in
  ((Nat.leb 48 n && Nat.leb n 57) || Nat.eqb n 45)%bool.

Fixpoint numeric (s : string) : bool :=
  match s with
  | EmptyString => true
  | String c s' => is_numeric c && numeric s'
  end.

End Text.

(** ** Validation of a project's local path
    ([projects/project_service_sync.py], [_validate_local_path]) *)

Module PathValidation.

(** What the function asks of the operating system.  [resolve] stands for
    [os.path.abspath(os.path.expanduser(path))]. *)
Record os_env := {
  resolve : string -> string;
  os_path_exists : string -> bool;
  os_access_R_OK : string -> bool;
  os_path_isdir : string -> bool
}.

Inductive validation :=
| Valid
| ValueError (msg : string).

Definition forbidden_prefixes : list string :=
  [ "/etc"; "/usr"; "/bin"; "/sbin"; "/sys"; "/proc";
    "C:\Windows"; "C:\Program Files"; "/var/lib"; "/root";
    "C:\Windows\System32"; "/System"; "/Library/System" ].

Definition _validate_local_path (env : os_env) (path : string) : validation :=
  let resolved := resolve env path in
  if existsb (Text.startswith resolved) forbidden_prefixes then
    ValueError ("Cannot access system directory: " +:+ resolved +:+ ". "
                +:+ "Please link to a user project directory.")
  else if negb (os_path_exists env resolved) then
    ValueError ("Path does not exist: " +:+ resolved)
  else if negb (os_access_R_OK env resolved) then
    ValueError ("No read permission for path: " +:+ resolved)
  else if negb (os_path_isdir env resolved) then
    ValueError ("Path is not a directory: " +:+ resolved)
  else Valid.

(** The prefixes as the specification lists them. *)
Definition spec_forbidden_prefixes : list string :=
  [ "/etc"; "/usr"; "/bin"; "/sbin"; "/sys"; "/proc"; "/var/lib"; "/root";
    "/System"; "/Library/System"; "C:\Windows"; "C:\Program Files" ].

Definition rejected (v : validation) : Prop := exists msg, v = ValueError msg.

End PathValidation.

(** ** The chunker ([sync/chunker.py]) *)

Module Chunker.
Import Text.

Record CodeChunk := {
  content : string;
  start_line : Z;
  end_line : Z;
  language : string;
  section_type : option string;
  section_name : option string
}.

Definition DEFAULT_CHUNK_SIZE : Z := 100.
Definition DEFAULT_OVERLAP : Z := 10.

Definition len {A} (l : list A) : Z := Z.of_nat (length l).

(** *** The regular expressions, matched from the start of a line *)

(** [\s] *)
Definition is_space (c : ascii) : bool :=
  let n := Ascii.nat_of_ascii c in
  ((Nat.leb 9 n && Nat.leb n 13) || (Nat.leb 28 n && Nat.leb n 32))%bool.

(** [\w] *)
Definition is_word (c : ascii) : bool :=
  let n := Ascii.nat_of_ascii c in
  ((Nat.leb 48 n && Nat.leb n 57) || (Nat.leb 65 n && Nat.leb n 90)
   || (Nat.leb 97 n && Nat.leb n 122) || Nat.eqb n 95)%bool.

(** a literal word of the pattern: the rest of the line after it *)
Fixpoint literal (p s : string) : option string :=
  match p with
  | EmptyString => Some s
  | String a p' =>
      match s with
      | EmptyString => None
      | String b s' => if Ascii.eqb a b then literal p' s' else None
      end
  end.

(** [\s*], greedy *)
Fixpoint skip_spaces (s : string) : string :=
  match s with
  | EmptyString => EmptyString
  | String c s' => if is_space c then skip_spaces s' else s
  end.

(** [\s+], greedy *)
Definition spaces1 (s : string) : option string :=
  match s with
  | EmptyString => None
  | String c s' => if is_space c then Some (skip_spaces s') else None
  end.

(** [\w*], greedy: the word and what follows it *)
Fixpoint word (s : string) : string * string :=
  match s with
  | EmptyString => (EmptyString, EmptyString)
  | String c s' =>
      if is_word c then let '(w, r) := word s' in (String c w, r)
      else (EmptyString, s)
  end.

(** [(\w+)] *)
Definition word1 (s : string) : option (string * string) :=
  match word s with
  | (EmptyString, _) => None
  | (w, r) => Some (w, r)
  end.

(** an optional group [(?:kw ...)?] whose body is [body] *)
Definition optional (body : string -> option string) (s : string) : string :=
  match body s with
  | Some r => r
  | None => s
  end.

(** [^class\s+(\w+)] *)
Definition py_class_match (line : string) : option string :=
  r ← literal "class" line; r ← spaces1 r; wr ← word1 r; Some wr.1.

(** [^def\s+(\w+)] *)
Definition py_func_match (line : string) : option string :=
  r ← literal "def" line; r ← spaces1 r; wr ← word1 r; Some wr.1.

(** [^\s*(?:export\s+)?] *)
Definition ts_head (line : string) : string :=
  optional (fun s => r ← literal "export" s; spaces1 r) (skip_spaces line).

(** [^\s*(?:export\s+)?interface\s+(\w+)] *)
Definition ts_interface_match (line : string) : option string :=
  r ← literal "interface" (ts_head line); r ← spaces1 r; wr ← word1 r; Some wr.1.

(** [^\s*(?:export\s+)?class\s+(\w+)] *)
Definition ts_class_match (line : string) : option string :=
  r ← literal "class" (ts_head line); r ← spaces1 r; wr ← word1 r; Some wr.1.

(** [^\s*(?:export\s+)?(?:async\s+)?function\s+(\w+)] *)
Definition ts_func_match (line : string) : option string :=
  let r := optional (fun s => r ← literal "async" s; spaces1 r) (ts_head line) in
  r ← literal "function" r; r ← spaces1 r; wr ← word1 r; Some wr.1.

(** the arrow-function pattern: [^\s*(?:export\s+)?const\s+(\w+)\s*=\s*],
    then an optional [async\s*], then an opening parenthesis *)
Definition ts_arrow_func_match (line : string) : option string :=
  r ← literal "const" (ts_head line); r ← spaces1 r; wr ← word1 r;
  r ← literal "=" (skip_spaces wr.2);
  let r := optional (fun s => r ← literal "async" s; Some (skip_spaces r)) (skip_spaces r) in
  _ ← literal "(" r; Some wr.1.

Fixpoint count_hashes (s : string) : nat * string :=
  match s with
  | String "#" s' => let '(n, r) := count_hashes s' in (S n, r)
  | _ => (O, s)
  end.

Fixpoint all_space (s : string) : bool :=
  match s with
  | EmptyString => true
  | String c s' => is_space c && all_space s'
  end.

Fixpoint last_char (s : string) : string :=
  match s with
  | EmptyString => EmptyString
  | String c EmptyString => s
  | String _ s' => last_char s'
  end.

(** [^(#{1,6})\s+(.+)$]: the second group.  When only white space
    follows the hashes, [\s+] gives its last character back to [.+]. *)
Definition md_header_match (line : string) : option string :=
  let '(n, r) := count_hashes line in
  if (Nat.leb 1 n && Nat.leb n 6)%bool then
    match r with
    | String c r' =>
        if is_space c then
          if all_space r' then
            match r' with
            | EmptyString => None
            | _ => Some (last_char r')
            end
          else Some (skip_spaces r')
        else None
    | EmptyString => None
    end
  else None.

(** *** Slices *)

(** Python's normalisation of a slice bound against a length *)
Definition slice_bound (i n : Z) : Z :=
  if i <? 0 then Z.max 0 (i + n) else Z.min i n.

(** [l[a:b]] *)
Definition py_slice {A} (l : list A) (a b : Z) : list A :=
  let lo := slice_bound a (len l) in
  let hi := slice_bound b (len l) in
  take (Z.to_nat (hi - lo)) (drop (Z.to_nat lo) l).

(** [l[a:]] *)
Definition py_slice_from {A} (l : list A) (a : Z) : list A :=
  drop (Z.to_nat (slice_bound a (len l))) l.

(** *** The structured strategies *)

(** The local variables of the scanning loops. *)
Record scan_state := {
  chunks : list CodeChunk;
  current_chunk_lines : list string;
  current_start_line : Z;
  current_section_type : option string;
  current_section_name : option string
}.

Definition scan_init : scan_state :=
  {| chunks := []; current_chunk_lines := []; current_start_line := 1;
     current_section_type := None; current_section_name := None |}.

Definition emit (lang : string) (st : scan_state) (last : Z) : list CodeChunk :=
  chunks st ++
  [ {| content := join_nl (current_chunk_lines st);
       start_line := current_start_line st;
       end_line := last;
       language := lang;
       section_type := current_section_type st;
       section_name := current_section_name st |} ].

(** One iteration of the loop body of [_chunk_python] and of
    [_chunk_typescript]; the two differ in the declarations they
    recognise ([decl] gives the section type and name) and in the
    language tag. *)
Definition structured_step (lang : string)
    (decl : string -> option (string * string))
    (max_lines overlap_lines : Z)
    (st : scan_state) (idx : Z) (line : string) : scan_state :=
  let st1 :=
    match decl line with
    | Some (ty, name) =>
        {| chunks := match current_chunk_lines st with
                     | [] => chunks st
                     | _ :: _ => emit lang st (idx - 1)
                     end;
           current_chunk_lines := [line];
           current_start_line := idx;
           current_section_type := Some ty;
           current_section_name := Some name |}
    | None =>
        {| chunks := chunks st;
           current_chunk_lines := current_chunk_lines st ++ [line];
           current_start_line := current_start_line st;
           current_section_type := current_section_type st;
           current_section_name := current_section_name st |}
    end in
  if len (current_chunk_lines st1) >=? max_lines then
    let overlap_start := Z.max 0 (len (current_chunk_lines st1) - overlap_lines) in
    {| chunks := emit lang st1 idx;
       current_chunk_lines := py_slice_from (current_chunk_lines st1) overlap_start;
       current_start_line := idx - overlap_lines + 1;
       current_section_type := current_section_type st1;
       current_section_name := current_section_name st1 |}
  else st1.

(** [for idx, line in enumerate(lines, start=idx)] *)
Fixpoint scan {S} (step : S -> Z -> string -> S) (st : S) (idx : Z)
    (lines : list string) : S :=
  match lines with
  | [] => st
  | line :: rest => scan step (step st idx line) (idx + 1) rest
  end.

Definition finish (lang : string) (st : scan_state) (n : Z) : list CodeChunk :=
  match current_chunk_lines st with
  | [] => chunks st
  | _ :: _ => emit lang st n
  end.

Definition chunk_structured (lang : string)
    (decl : string -> option (string * string))
    (content : string) (max_lines overlap_lines : Z) : list CodeChunk :=
  let lines := split_nl content in
  finish lang
    (scan (structured_step lang decl max_lines overlap_lines) scan_init 1 lines)
    (len lines).

Definition py_decl (line : string) : option (string * string) :=
  match py_class_match line, py_func_match line with
  | Some name, _ => Some ("class", name)
  | None, Some name => Some ("function", name)
  | None, None => None
  end.

Definition ts_decl (line : string) : option (string * string) :=
  match ts_interface_match line, ts_class_match line,
        ts_func_match line, ts_arrow_func_match line with
  | Some name, _, _, _ => Some ("interface", name)
  | None, Some name, _, _ => Some ("class", name)
  | None, None, Some name, _ => Some ("function", name)
  | None, None, None, Some name => Some ("function", name)
  | None, None, None, None => None
  end.

Definition _chunk_python (content : string) (max_lines overlap_lines : Z)
  : list CodeChunk :=
  chunk_structured "python" py_decl content max_lines overlap_lines.

Definition _chunk_typescript (content : string) (max_lines overlap_lines : Z)
  : list CodeChunk :=
  chunk_structured "typescript" ts_decl content max_lines overlap_lines.

(** *** Markdown *)

Definition markdown_step (max_lines : Z)
    (st : scan_state) (idx : Z) (line : string) : scan_state :=
  let st0 :=
    {| chunks := chunks st; current_chunk_lines := current_chunk_lines st;
       current_start_line := current_start_line st;
       current_section_type := Some "section";
       current_section_name := current_section_name st |} in
  let st1 :=
    match md_header_match line with
    | Some title =>
        {| chunks := match current_chunk_lines st with
                     | [] => chunks st
                     | _ :: _ => emit "markdown" st0 (idx - 1)
                     end;
           current_chunk_lines := [line];
           current_start_line := idx;
           current_section_type := Some "section";
           current_section_name := Some title |}
    | None =>
        {| chunks := chunks st;
           current_chunk_lines := current_chunk_lines st ++ [line];
           current_start_line := current_start_line st;
           current_section_type := Some "section";
           current_section_name := current_section_name st |}
    end in
  if len (current_chunk_lines st1) >=? max_lines then
    {| chunks := emit "markdown" st1 idx;
       current_chunk_lines := [];
       current_start_line := idx + 1;
       current_section_type := Some "section";
       current_section_name := current_section_name st1 |}
  else st1.

Definition _chunk_markdown (content : string) (max_lines : Z) : list CodeChunk :=
  let lines := split_nl content in
  let st := scan (markdown_step max_lines) scan_init 1 lines in
  finish "markdown"
    {| chunks := chunks st; current_chunk_lines := current_chunk_lines st;
       current_start_line := current_start_line st;
       current_section_type := Some "section";
       current_section_name := current_section_name st |}
    (len lines).

(** *** The generic strategy *)

(** The [while idx < len(lines)] loop.  [fuel] bounds the number of times
    the loop condition is evaluated; [None] means the loop is still
    running when the fuel is spent. *)
Fixpoint generic_loop (fuel : nat) (lines : list string)
    (max_lines overlap_lines : Z) (idx : Z) (chunks : list CodeChunk)
  : option (list CodeChunk) :=
  match fuel with
  | O => None
  | S fuel' =>
      if idx <? len lines then
        let chunk_lines := py_slice lines idx (idx + max_lines) in
        generic_loop fuel' lines max_lines overlap_lines
          (idx + (max_lines - overlap_lines))
          (chunks ++
           [ {| content := join_nl chunk_lines;
                start_line := idx + 1;
                end_line := Z.min (idx + len chunk_lines) (len lines);
                language := "generic";
                section_type := None;
                section_name := None |} ])
      else Some chunks
  end.

Definition _chunk_generic (fuel : nat) (content : string)
    (max_lines overlap_lines : Z) : option (list CodeChunk) :=
  generic_loop fuel (split_nl content) max_lines overlap_lines 0 [].

(** *** Dispatch on the language *)

Definition chunk_file (fuel : nat) (content language : string)
    (max_lines overlap_lines : Z) : option (list CodeChunk) :=
  if String.eqb language "python" then
    Some (_chunk_python content max_lines overlap_lines)
  else if existsb (String.eqb language) ["typescript"; "javascript"; "tsx"; "jsx"] then
    Some (_chunk_typescript content max_lines overlap_lines)
  else if String.eqb language "markdown" then
    Some (_chunk_markdown content max_lines)
  else _chunk_generic fuel content max_lines overlap_lines.

Definition extension_map : list (string * string) :=
  [ (".py", "python"); (".ts", "typescript"); (".tsx", "typescript");
    (".js", "javascript"); (".jsx", "javascript"); (".md", "markdown");
    (".mdx", "markdown"); (".rs", "rust"); (".go", "go"); (".java", "java");
    (".cpp", "cpp"); (".c", "c"); (".cs", "csharp"); (".rb", "ruby");
    (".php", "php"); (".swift", "swift"); (".kt", "kotlin") ].

Definition detect_language (file_path : string) : string :=
  match List.find (fun el => endswith file_path el.1) extension_map with
  | Some el => el.2
  | None => "generic"
  end.

(** *** Reassembling a file from its chunks *)

(** The lines of a chunk that are not carried over from its predecessor:
    those numbered above [prev_end], the predecessor's [end_line]. *)
Definition fresh_lines (prev_end : Z) (c : CodeChunk) : list string :=
  drop (Z.to_nat (prev_end - start_line c + 1)) (split_nl (content c)).

Fixpoint strip_overlaps (prev_end : Z) (cs : list CodeChunk) : list string :=
  match cs with
  | [] => []
  | c :: cs' => fresh_lines prev_end c ++ strip_overlaps (end_line c) cs'
  end.

(** Chunk bodies put one after the other, carried overlap lines removed. *)
Definition reassemble (cs : list CodeChunk) : string :=
  join_nl (strip_overlaps 0 cs).

(** The line regions [first..last] that the chunks do not share with
    their predecessors. *)
Fixpoint fresh_regions (prev_end : Z) (cs : list CodeChunk) : list (Z * Z) :=
  match cs with
  | [] => []
  | c :: cs' =>
      (Z.max (start_line c) (prev_end + 1), end_line c)
      :: fresh_regions (end_line c) cs'
  end.

Definition covers (regions : list (Z * Z)) (n : Z) : Prop :=
  forall i, 1 <= i <= n -> exists r, In r regions /\ r.1 <= i <= r.2.

(** *** Notions used to state and prove the properties of the chunker *)

(** The [end_line] of the last chunk, [p] when there is none. *)
Definition last_end (p : Z) (cs : list CodeChunk) : Z :=
  foldl (fun _ c => end_line c) p cs.

(** Lines as [split] gives them: none holds a line break. *)
Definition clean (ls : list string) : Prop :=
  Forall (fun l => no_newline l = true) ls.

(** The lines scanned so far ([scanned]) against the state of a
    structured loop: the current lines are the tail of [scanned] that
    starts at [current_start_line], and the chunks emitted so far give
    back the first [last_end] lines. *)
Inductive scan_inv (st : scan_state) (scanned : list string) : Prop :=
| ScanInv (pre : list string)
    (inv_split : scanned = pre ++ current_chunk_lines st)
    (inv_start : current_start_line st = len pre + 1)
    (inv_end_lo : len pre <= last_end 0 (chunks st))
    (inv_end_hi : last_end 0 (chunks st) <= len scanned)
    (inv_strip :
       strip_overlaps 0 (chunks st)
       = take (Z.to_nat (last_end 0 (chunks st))) scanned).

(** The lines of the body of a chunk. *)
Definition body_lines (c : CodeChunk) : list string := split_nl (content c).

(** The chunks follow one another without gap or overlap from line
    [k + 1] on, and each is numbered after the lines of its body. *)
Fixpoint numbered (k : Z) (cs : list CodeChunk) : Prop :=
  match cs with
  | [] => True
  | c :: cs' =>
      start_line c = k + 1 /\ end_line c = k + len (body_lines c)
      /\ numbered (end_line c) cs'
  end.

(** The lines scanned so far against the state of the Markdown loop: the
    bodies emitted so far, followed by the current lines, are the scanned
    lines, and the numbering of the chunks follows them. *)
Inductive md_inv (st : scan_state) (scanned : list string) : Prop :=
| MdInv
    (md_split :
       scanned = concat (body_lines <$> chunks st) ++ current_chunk_lines st)
    (md_start :
       current_start_line st = len (concat (body_lines <$> chunks st)) + 1)
    (md_end : last_end 0 (chunks st) = len (concat (body_lines <$> chunks st)))
    (md_numbered : numbered 0 (chunks st)).

(** A chunk carries the lines [start_line..end_line] of the file and no
    more than [max_lines] of them. *)
Definition chunk_ok (lines : list string) (max_lines : Z) (c : CodeChunk) : Prop :=
  1 <= start_line c /\ start_line c <= end_line c /\ end_line c <= len lines
  /\ end_line c - start_line c + 1 <= max_lines
  /\ body_lines c
     = take (Z.to_nat (end_line c - start_line c + 1))
         (drop (Z.to_nat (start_line c - 1)) lines).

(** The loop has something to return. *)
Definition has_lines (st : scan_state) : Prop :=
  chunks st <> [] \/ current_chunk_lines st <> [].

(** The two halves of [structured_step]: the line opens a chunk or joins
    the current one, then the current chunk is closed if it is full. *)
Definition decl_part (lang : string) (decl : string -> option (string * string))
    (st : scan_state) (idx : Z) (line : string) : scan_state :=
  match decl line with
  | Some (ty, name) =>
      {| chunks := match current_chunk_lines st with
                   | [] => chunks st
                   | _ :: _ => emit lang st (idx - 1)
                   end;
         current_chunk_lines := [line];
         current_start_line := idx;
         current_section_type := Some ty;
         current_section_name := Some name |}
  | None =>
      {| chunks := chunks st;
         current_chunk_lines := current_chunk_lines st ++ [line];
         current_start_line := current_start_line st;
         current_section_type := current_section_type st;
         current_section_name := current_section_name st |}
  end.

Definition split_part (lang : string) (max_lines overlap_lines : Z)
    (st1 : scan_state) (idx : Z) : scan_state :=
  if len (current_chunk_lines st1) >=? max_lines then
    let overlap_start := Z.max 0 (len (current_chunk_lines st1) - overlap_lines) in
    {| chunks := emit lang st1 idx;
       current_chunk_lines := py_slice_from (current_chunk_lines st1) overlap_start;
       current_start_line := idx - overlap_lines + 1;
       current_section_type := current_section_type st1;
       current_section_name := current_section_name st1 |}
  else st1.

(** The state of a structured loop against the lines scanned so far:
    besides [scan_inv], every chunk emitted is a run of at most
    [max_lines] lines of the file, and fewer lines than that are pending. *)
Inductive sized_inv (max_lines : Z) (st : scan_state) (scanned : list string)
  : Prop :=
| SizedInv
    (sized_scan : scan_inv st scanned)
    (sized_chunks : Forall (chunk_ok scanned max_lines) (chunks st))
    (sized_current : len (current_chunk_lines st) < max_lines).

(** The lines of a Markdown chunk named [name]: within the limit when
    there is one, with no header but on the first line, and named after
    the header on the first line when there is one. *)
Definition section_lines (max_lines : Z) (name : option string)
    (ls : list string) : Prop :=
  (1 <= max_lines -> len ls <= max_lines)
  /\ Forall (fun l => md_header_match l = None) (tail ls)
  /\ (forall l title,
        head ls = Some l -> md_header_match l = Some title -> name = Some title).

Definition section_ok (max_lines : Z) (c : CodeChunk) : Prop :=
  section_lines max_lines (section_name c) (body_lines c).

(** The state of the Markdown loop between two lines. *)
Inductive sections_inv (max_lines : Z) (st : scan_state) : Prop :=
| SectionsInv
    (sections_chunks : Forall (section_ok max_lines) (chunks st))
    (sections_current :
       section_lines max_lines (current_section_name st) (current_chunk_lines st))
    (sections_room : 1 <= max_lines -> len (current_chunk_lines st) < max_lines)
    (sections_clean :
       Forall (fun l => no_newline l = true) (current_chunk_lines st)).

End Chunker.

(** ** Exceptions *)

Module Exn.

(** An exception as the code inspects it: [type(e).__name__] and [str(e)]. *)
Record exn := { exn_type : string; exn_msg : string }.

(** The outcome of a call that may raise. *)
Inductive result (A : Type) :=
| Ok (a : A)
| Raise (e : exn).
Arguments Ok {A} a.
Arguments Raise {A} e.

End Exn.

(** ** Error handling ([sync/error_handler.py]) *)

Module ErrorHandler.
Import Text Exn.

(** *** ErrorClassifier *)

Record category_config := {
  keywords : list string;
  types : list string;
  retryable : bool;
  user_message : string
}.

(** The class attribute [ERROR_CATEGORIES], in the order of its keys. *)
Definition ERROR_CATEGORIES : list (string * category_config) :=
  [ ("network",
     {| keywords := ["connection"; "timeout"; "network"; "unreachable"; "refused"];
        types := ["ConnectionError"; "TimeoutError"; "HTTPError"; "RequestException"];
        retryable := true;
        user_message := "Network connection issue. Please check your internet connection and try again." |});
    ("permission",
     {| keywords := ["permission"; "access denied"; "forbidden"; "unauthorized"];
        types := ["PermissionError"; "OSError"];
        retryable := false;
        user_message := "Permission denied. Please check file and directory permissions." |});
    ("parsing",
     {| keywords := ["decode"; "encoding"; "utf-8"; "unicode"; "syntax"; "invalid"];
        types := ["UnicodeDecodeError"; "UnicodeError"; "SyntaxError"];
        retryable := false;
        user_message := "Unable to parse file content. The file may be corrupted or in an unsupported encoding." |});
    ("embedding",
     {| keywords := ["embed"; "cohere"; "openai"; "rate limit"; "quota"];
        types := ["EmbeddingError"; "APIError"];
        retryable := true;
        user_message := "Embedding service unavailable. Please try again in a few moments." |});
    ("database",
     {| keywords := ["database"; "supabase"; "postgres"; "sql"; "query"; "constraint"];
        types := ["DatabaseError"; "IntegrityError"; "OperationalError"];
        retryable := true;
        user_message := "Database error occurred. Please contact support if this persists." |});
    ("circuit_breaker",
     {| keywords := ["circuit breaker"];
        types := ["CircuitBreakerOpenError"];
        retryable := false;
        user_message := "Too many recent failures. System is temporarily unavailable." |}) ].

Definition category_matches (error : exn) (config : category_config) : bool :=
  existsb (String.eqb (exn_type error)) (types config)
  || existsb (contains (lower (exn_msg error))) (keywords config).

Definition classify (error : exn) : string :=
  match List.find (fun cc => category_matches error cc.2) ERROR_CATEGORIES with
  | Some cc => cc.1
  | None => "unknown"
  end.

Definition get_config (error_type : string) : option category_config :=
  snd <$> List.find (fun cc => String.eqb cc.1 error_type) ERROR_CATEGORIES.

Definition is_retryable (error_type : string) : bool :=
  match get_config error_type with
  | Some config => retryable config
  | None => false
  end.

Definition get_user_message (error_type : string) (error : exn) : string :=
  match get_config error_type with
  | Some config =>
      if existsb (String.eqb error_type) ["permission"; "parsing"] then
        user_message config +:+ " Details: " +:+ exn_msg error
      else user_message config
  | None => "An unexpected error occurred: " +:+ exn_msg error
  end.

(** *** retry_with_backoff *)

(** The delays are floats; the decorator multiplies them, takes their
    [min], and draws [random.uniform(0.5, 1.5)] once per retry.
    [uniform k] is the draw made after the call number [k]. *)
Record float_ops (float : Type) := {
  fmul : float -> float -> float;
  fmin : float -> float -> float;
  uniform : nat -> float
}.
Arguments fmul {float} f x y.
Arguments fmin {float} f x y.
Arguments uniform {float} f k.

Record RetryConfig (float : Type) := {
  max_retries : Z;
  initial_delay : float;
  max_delay : float;
  exponential_base : float;
  jitter : bool
}.
Arguments max_retries {float} r.
Arguments initial_delay {float} r.
Arguments max_delay {float} r.
Arguments exponential_base {float} r.
Arguments jitter {float} r.

(** What a decorated function did: what it returned ([Ok None] is the
    [None] of a loop that never ran) or raised, the sleeps between the
    calls, and the number of calls of the function. *)
Record backoff_run (float A : Type) := {
  returned : result (option A);
  delays : list float;
  calls : nat
}.
Arguments returned {float A} b.
Arguments delays {float A} b.
Arguments calls {float A} b.

(** The [while retries <= config.max_retries] loop of [wrapper].
    [func k] is what the call number [k] of the function does. *)
Fixpoint wrapper {float A : Type} (ops : float_ops float)
    (config : RetryConfig float) (func : nat -> result A) (fuel : nat)
    (retries : Z) (delay : float) (n : nat) (slept : list float)
  : option (backoff_run float A) :=
  match fuel with
  | O => None
  | S fuel' =>
      if retries <=? max_retries config then
        match func n with
        | Ok v => Some {| returned := Ok (Some v); delays := slept; calls := S n |}
        | Raise e =>
            let retries := retries + 1 in
            if retries >? max_retries config then
              Some {| returned := Raise e; delays := slept; calls := S n |}
            else
              let actual_delay :=
                if jitter config then
                  fmin ops (fmul ops delay (uniform ops n)) (max_delay config)
                else fmin ops delay (max_delay config) in
              wrapper ops config func fuel' retries
                (fmul ops delay (exponential_base config)) (S n)
                (slept ++ [actual_delay])
        end
      else Some {| returned := Ok None; delays := slept; calls := n |}
  end.

Definition retry_with_backoff {float A : Type} (ops : float_ops float)
    (config : RetryConfig float) (func : nat -> result A) (fuel : nat)
  : option (backoff_run float A) :=
  wrapper ops config func fuel 0 (initial_delay config) 0 [].

(** The value of [delay] after [k] failed calls, and the sleep that
    follows the call number [k]. *)
Definition delay_after {float : Type} (ops : float_ops float)
    (config : RetryConfig float) (k : nat) : float :=
  Nat.iter k (fun d => fmul ops d (exponential_base config)) (initial_delay config).

Definition sleep_after {float : Type} (ops : float_ops float)
    (config : RetryConfig float) (k : nat) : float :=
  if jitter config then
    fmin ops (fmul ops (delay_after ops config k) (uniform ops k)) (max_delay config)
  else fmin ops (delay_after ops config k) (max_delay config).

(** *** CircuitBreaker *)

Inductive CircuitState := CLOSED | OPEN | HALF_OPEN.

(** Times are in microseconds, the resolution of [datetime]. *)
Record CircuitBreaker := {
  failure_threshold : Z;
  timeout : Z;
  half_open_max_calls : Z;
  state : CircuitState;
  failure_count : Z;
  last_failure_time : option Z;
  half_open_calls : Z
}.

Definition new_breaker (failure_threshold timeout half_open_max_calls : Z)
  : CircuitBreaker :=
  {| failure_threshold := failure_threshold; timeout := timeout;
     half_open_max_calls := half_open_max_calls;
     state := CLOSED; failure_count := 0; last_failure_time := None;
     half_open_calls := 0 |}.

Definition set_state (cb : CircuitBreaker) (s : CircuitState) : CircuitBreaker :=
  {| failure_threshold := failure_threshold cb; timeout := timeout cb;
     half_open_max_calls := half_open_max_calls cb;
     state := s; failure_count := failure_count cb;
     last_failure_time := last_failure_time cb;
     half_open_calls := half_open_calls cb |}.

Definition set_half_open_calls (cb : CircuitBreaker) (n : Z) : CircuitBreaker :=
  {| failure_threshold := failure_threshold cb; timeout := timeout cb;
     half_open_max_calls := half_open_max_calls cb;
     state := state cb; failure_count := failure_count cb;
     last_failure_time := last_failure_time cb;
     half_open_calls := n |}.

Definition set_failures (cb : CircuitBreaker) (n : Z) (t : option Z)
  : CircuitBreaker :=
  {| failure_threshold := failure_threshold cb; timeout := timeout cb;
     half_open_max_calls := half_open_max_calls cb;
     state := state cb; failure_count := n;
     last_failure_time := t;
     half_open_calls := half_open_calls cb |}.

Definition _on_success (cb : CircuitBreaker) : CircuitBreaker :=
  let cb := match state cb with
            | HALF_OPEN => set_state cb CLOSED
            | _ => cb
            end in
  set_failures cb 0 None.

(** [now] is the reading of the clock inside [_on_failure]. *)
Definition _on_failure (cb : CircuitBreaker) (now : Z) : CircuitBreaker :=
  let cb := set_failures cb (failure_count cb + 1) (Some now) in
  match state cb with
  | HALF_OPEN => set_state cb OPEN
  | _ =>
      if failure_count cb >=? failure_threshold cb then set_state cb OPEN
      else cb
  end.

(** A number of microseconds as [f"{seconds:.0f}"] prints it. *)
Definition format_seconds (us : Z) : string :=
  let q := us / 1000000 in
  let r := us mod 1000000 in
  pretty (if (500000 <? r) || ((r =? 500000) && Z.odd q) then q + 1 else q).

Definition CircuitBreakerOpenError (msg : string) : exn :=
  {| exn_type := "CircuitBreakerOpenError"; exn_msg := msg |}.

(** The function handed to [call]: what it does when it is run, and the
    reading of the clock when it has failed. *)
Record guarded (A : Type) := {
  run_func : result A;
  failed_at : Z
}.
Arguments run_func {A} g.
Arguments failed_at {A} g.

(** [now] is the reading of the clock on entry. *)
Definition call {A} (cb : CircuitBreaker) (now : Z) (func : guarded A)
  : CircuitBreaker * result A :=
  let run_guarded (cb : CircuitBreaker) : CircuitBreaker * result A :=
    let check :=
      match state cb with
      | HALF_OPEN =>
          if half_open_calls cb >=? half_open_max_calls cb then
            inr (CircuitBreakerOpenError
                   "Circuit breaker is HALF_OPEN. Test call already in progress.")
          else inl (set_half_open_calls cb (half_open_calls cb + 1))
      | _ => inl cb
      end in
    match check with
    | inr e => (cb, Raise e)
    | inl cb =>
        match run_func func with
        | Ok v => (_on_success cb, Ok v)
        | Raise e => (_on_failure cb (failed_at func), Raise e)
        end
    end in
  match state cb with
  | OPEN =>
      let expired :=
        match last_failure_time cb with
        | Some t => now - t >? timeout cb
        | None => false
        end in
      if expired then run_guarded (set_half_open_calls (set_state cb HALF_OPEN) 0)
      else
        let time_remaining :=
          match last_failure_time cb with
          | Some t => Z.max 0 (timeout cb - (now - t))
          | None => timeout cb
          end in
        (cb, Raise (CircuitBreakerOpenError
                      ("Circuit breaker is OPEN. Too many failures. "
                       +:+ "Retry after " +:+ format_seconds time_remaining +:+ "s.")))
  | _ => run_guarded cb
  end.

(** A call was turned away by the breaker: it raised the exception of
    the category [circuit_breaker]. *)
Definition rejected {A} (r : result A) : Prop :=
  exists e, r = Raise e /\ exn_type e = "CircuitBreakerOpenError"
            /\ classify e = "circuit_breaker".

(** The keywords of the categories that [classify] tries before
    [circuit_breaker]. *)
Definition earlier_keywords : list string :=
  flat_map (fun cc => keywords cc.2) (take 5 ERROR_CATEGORIES).

Definition open_message_head : string :=
  "Circuit breaker is OPEN. Too many failures. " +:+ "Retry after ".

(** A call whose function raises. *)
Definition fails {A} (func : guarded A) : Prop :=
  exists e, run_func func = Raise e.

(** Calls made one after the other; each comes with the reading of the
    clock on entry. *)
Fixpoint calls_in_a_row {A} (cb : CircuitBreaker) (calls : list (Z * guarded A))
  : CircuitBreaker :=
  match calls with
  | [] => cb
  | (now, func) :: rest => calls_in_a_row (call cb now func).1 rest
  end.

(** What holds of a breaker between two calls made one after the other:
    it is not left Half-Open, while Closed it has counted fewer failures
    than the threshold, and while Open it knows when the last one was. *)
Definition settled (cb : CircuitBreaker) : Prop :=
  match state cb with
  | CLOSED => 0 <= failure_count cb < failure_threshold cb
  | OPEN => exists t, last_failure_time cb = Some t
  | HALF_OPEN => False
  end.

(** The settings of a breaker. *)
Definition settings (cb : CircuitBreaker) : Z * Z * Z :=
  (failure_threshold cb, timeout cb, half_open_max_calls cb).

End ErrorHandler.

(** ** Batch embedding ([sync/batch_embedder.py]) *)

Module BatchEmbedder.
Import Text Exn.

(** An embedding vector. *)
Definition embedding := list Q.

(** *** RateLimiter *)

(** [request_times] is the deque, oldest entry first; times and the
    window are in microseconds. *)
Record RateLimiter := {
  rate_limit : Z;
  time_window : Z;
  request_times : list Z
}.

Definition new_limiter (rate_limit time_window : Z) : RateLimiter :=
  {| rate_limit := rate_limit; time_window := time_window; request_times := [] |}.

(** [while q and q[0] < cutoff: q.popleft()] *)
Fixpoint expire (cutoff : Z) (q : list Z) : list Z :=
  match q with
  | [] => []
  | t :: q' => if t <? cutoff then expire cutoff q' else q
  end.

(** What one [acquire] did: the limiter afterwards and the time slept. *)
Record acquired := {
  limiter : RateLimiter;
  slept : Z
}.

Definition IndexError : exn :=
  {| exn_type := "IndexError"; exn_msg := "deque index out of range" |}.

(** [now] is the reading of the clock on entry, [recorded] the reading
    when the request is recorded (after the sleep, if any). *)
Definition acquire (rl : RateLimiter) (now recorded : Z) : result acquired :=
  let cutoff := now - time_window rl in
  let q := expire cutoff (request_times rl) in
  if Z.of_nat (length q) >=? rate_limit rl then
    match q with
    | [] => Raise IndexError
    | oldest :: q' =>
        let wait_until := oldest + time_window rl in
        let wait := wait_until - now in
        Ok {| limiter := {| rate_limit := rate_limit rl;
                            time_window := time_window rl;
                            request_times := q' ++ [recorded] |};
              slept := if wait >? 0 then wait else 0 |}
    end
  else
    Ok {| limiter := {| rate_limit := rate_limit rl;
                        time_window := time_window rl;
                        request_times := q ++ [recorded] |};
          slept := 0 |}.

(** A sequence of [acquire]s under the lock, one per pair of clock
    readings; the result lists the recorded admission times, oldest
    first, and the time slept by each. *)
Fixpoint acquire_all (rl : RateLimiter) (readings : list (Z * Z))
  : result (RateLimiter * list Z * list Z) :=
  match readings with
  | [] => Ok (rl, [], [])
  | (now, recorded) :: rest =>
      match acquire rl now recorded with
      | Raise e => Raise e
      | Ok a =>
          match acquire_all (limiter a) rest with
          | Raise e => Raise e
          | Ok (rl', admissions, sleeps) =>
              Ok (rl', recorded :: admissions, slept a :: sleeps)
          end
      end
  end.

(** The clock of a run: it never goes back, and a sleep lasts at least
    as long as asked. *)
Fixpoint clock_ok (rl : RateLimiter) (last : Z) (readings : list (Z * Z)) : Prop :=
  match readings with
  | [] => True
  | (now, recorded) :: rest =>
      last <= now /\
      match acquire rl now recorded with
      | Raise _ => True
      | Ok a => now + slept a <= recorded /\ clock_ok (limiter a) recorded rest
      end
  end.

(** The admissions in the window of [time_window] that ends at [t]. *)
Definition in_window (w t : Z) (admissions : list Z) : list Z :=
  List.filter (fun a => (t - w <? a) && (a <=? t)) admissions.

(** What the limiter remembers against the admissions made so far
    ([history], oldest first) and the last reading of the clock: the
    deque is the tail of the history, the admissions it has forgotten
    are at least one window older than [last], and no window holds
    more than [rate_limit] admissions. *)
Inductive limiter_inv (rl : RateLimiter) (history : list Z) (last : Z) : Prop :=
| LimiterInv (forgotten : list Z)
    (inv_history : history = forgotten ++ request_times rl)
    (inv_forgotten : Forall (fun a => a <= last - time_window rl) forgotten)
    (inv_past : Forall (fun a => a <= last) history)
    (inv_length : Z.of_nat (length (request_times rl)) <= rate_limit rl)
    (inv_window :
       forall t, Z.of_nat (length (in_window (time_window rl) t history))
                 <= rate_limit rl).

(** *** Retry of a batch *)

Definition rate_limit_indicators : list string :=
  [ "rate limit"; "too many requests"; "quota exceeded"; "429"; "throttle";
    "slow down" ].

Definition _is_rate_limit_error (error : exn) : bool :=
  existsb (contains (lower (exn_msg error))) rate_limit_indicators.

(** What [_embed_batch_with_retry] did: its outcome ([Ok None] is the
    [None] of a loop that never ran), the sleeps between attempts in
    seconds, and the number of attempts made. *)
Record retry_run := {
  outcome : result (option (list (option embedding)));
  sleeps : list Z;
  attempts : nat
}.

(** The [while retries <= self.max_retries] loop.  [service k] is what
    the [k]-th attempt (rate limiter and embedding call) does. *)
Fixpoint retry_loop (fuel : nat) (max_retries : Z)
    (service : nat -> result (list (option embedding)))
    (retries : Z) (attempts : nat) (sleeps : list Z) : option retry_run :=
  match fuel with
  | O => None
  | S fuel' =>
      if retries <=? max_retries then
        match service attempts with
        | Ok vectors =>
            Some {| outcome := Ok (Some vectors); sleeps := sleeps;
                    attempts := S attempts |}
        | Raise e =>
            let retries := retries + 1 in
            if retries >? max_retries then
              Some {| outcome := Raise e; sleeps := sleeps; attempts := S attempts |}
            else if _is_rate_limit_error e then
              retry_loop fuel' max_retries service retries (S attempts)
                (sleeps ++ [2 ^ retries])
            else
              Some {| outcome := Raise e; sleeps := sleeps; attempts := S attempts |}
        end
      else Some {| outcome := Ok None; sleeps := sleeps; attempts := attempts |}
  end.

Definition _embed_batch_with_retry (fuel : nat) (max_retries : Z)
    (service : nat -> result (list (option embedding))) : option retry_run :=
  retry_loop fuel max_retries service 0 0 [].

(** The waits [2^1, ..., 2^n]. *)
Definition backoff (n : nat) : list Z :=
  (fun k => 2 ^ Z.of_nat k) <$> seq 1 n.

(** The retry policy of a run, for a test [retried_when] of the failure:
    a failed attempt that leaves a retry in the budget is followed by
    another attempt exactly when the test holds of its failure. *)
Definition retries_exactly_when (retried_when : exn -> bool) (max_retries : Z)
    (service : nat -> result (list (option embedding))) (r : retry_run) : Prop :=
  forall i e,
    (i < attempts r)%nat -> service i = Raise e -> Z.of_nat i < max_retries ->
    (retried_when e = true <-> (S i < attempts r)%nat).

(** The policy in the words of the specification: the test is that the
    classified category of the failure is retryable. *)
Definition spec_retry_policy :=
  retries_exactly_when
    (fun e => ErrorHandler.is_retryable (ErrorHandler.classify e)).

(** *** Individual and batched embedding *)

(** What the embedder asks of its service: [embed_many batch k] is what
    the [k]-th attempt on [batch] does (the rate limiter, then
    [embedding_service.embed_batch] or the fallback), [embed_one] what
    the rate limiter and [embedding_service.embed] do for one text. *)
Record embedding_service := {
  embed_many : list string -> nat -> result (list (option embedding));
  embed_one : string -> result (option embedding)
}.

Definition _embed_individually (svc : embedding_service) (texts : list string)
  : list (option embedding) :=
  (fun text => match embed_one svc text with
               | Ok e => e
               | Raise _ => None
               end) <$> texts.

(** [texts[i:i + size] for i in range(0, len(texts), size)], for a
    positive [size]; [fuel] bounds the number of slices. *)
Fixpoint slices (fuel size : nat) (texts : list string) : list (list string) :=
  match fuel, texts with
  | S fuel', _ :: _ => take size texts :: slices fuel' size (drop size texts)
  | _, _ => []
  end.

(** The integer division by zero of [num_batches], with the message of
    CPython up to 3.13. *)
Definition ZeroDivisionError_int : exn :=
  {| exn_type := "ZeroDivisionError";
     exn_msg := "integer division or modulo by zero" |}.

(** One turn of [for i in range(0, len(texts), self.batch_size)]: the
    vectors of the batch, or those of the fallback when the batch raised
    (a [None] of the retry loop makes [extend] raise inside the [try]). *)
Definition embed_slice (max_retries : Z) (svc : embedding_service)
    (batch : list string) : list (option embedding) :=
  match _embed_batch_with_retry (S (S (Z.to_nat max_retries))) max_retries
          (embed_many svc batch) with
  | Some r =>
      match outcome r with
      | Ok (Some vectors) => vectors
      | _ => _embed_individually svc batch
      end
  | None => _embed_individually svc batch
  end.

Definition embed_batch (batch_size max_retries : Z) (svc : embedding_service)
    (texts : list string) : result (list (option embedding)) :=
  match texts with
  | [] => Ok []
  | _ :: _ =>
      if batch_size =? 0 then Raise ZeroDivisionError_int
      else if batch_size <? 0 then Ok []
      else Ok (concat (embed_slice max_retries svc
                         <$> slices (length texts) (Z.to_nat batch_size) texts))
  end.

(** *** TokenAwareBatcher *)

Record TokenAwareBatcher := {
  max_tokens_per_batch : Z;
  max_items_per_batch : Z
}.

(** [len(text) // 4] *)
Definition estimated_tokens (text : string) : Z :=
  Z.of_nat (String.length text) / 4.

(** The variables of the loop of [create_batches]. *)
Record batching := {
  batches : list (list string);
  current_batch : list string;
  current_tokens : Z
}.

Definition batch_step (b : TokenAwareBatcher) (st : batching) (text : string)
  : batching :=
  let would_exceed_tokens :=
    current_tokens st + estimated_tokens text >? max_tokens_per_batch b in
  let would_exceed_items :=
    Z.of_nat (length (current_batch st)) >=? max_items_per_batch b in
  if (would_exceed_tokens || would_exceed_items)
     && negb (bool_decide (current_batch st = [])) then
    {| batches := batches st ++ [current_batch st];
       current_batch := [text];
       current_tokens := estimated_tokens text |}
  else
    {| batches := batches st;
       current_batch := current_batch st ++ [text];
       current_tokens := current_tokens st + estimated_tokens text |}.

Definition ZeroDivisionError : exn :=
  {| exn_type := "ZeroDivisionError"; exn_msg := "division by zero" |}.

(** The debug message is formatted before it is handed to the logger,
    and it divides by [len(batches)]. *)
Definition create_batches (b : TokenAwareBatcher) (texts : list string)
  : result (list (list string)) :=
  let st := foldl (batch_step b)
              {| batches := []; current_batch := []; current_tokens := 0 |} texts in
  let batches := match current_batch st with
                 | [] => batches st
                 | _ :: _ => batches st ++ [current_batch st]
                 end in
  match batches with
  | [] => Raise ZeroDivisionError
  | _ :: _ => Ok batches
  end.

(** The estimated tokens of a batch. *)
Definition batch_tokens (batch : list string) : Z :=
  foldr (fun text n => estimated_tokens text + n) 0 batch.

(** A batch within the limits of the batcher. *)
Definition within_limits (b : TokenAwareBatcher) (batch : list string) : Prop :=
  Z.of_nat (length batch) <= max_items_per_batch b
  /\ batch_tokens batch <= max_tokens_per_batch b.

(** The loop of [create_batches] after the texts [seen]. *)
Inductive batching_inv (b : TokenAwareBatcher) (st : batching) (seen : list string)
  : Prop :=
| BatchingInv
    (batching_seen : seen = concat (batches st) ++ current_batch st)
    (batching_tokens : current_tokens st = batch_tokens (current_batch st))
    (batching_current :
       (2 <= length (current_batch st))%nat -> within_limits b (current_batch st))
    (batching_nonempty : Forall (fun batch => batch <> []) (batches st))
    (batching_started : seen <> [] -> current_batch st <> [])
    (batching_limits :
       Forall (fun batch => (2 <= length batch)%nat -> within_limits b batch)
         (batches st)).

End BatchEmbedder.

(** ** The debouncer ([sync/debouncer.py]) *)

Module Debouncer.

(** [timestamp] is a float of seconds; only its order is used, and every
    finite float is a rational. *)
Record FileEvent := {
  type : string;
  project_id : string;
  file_path : string;
  timestamp : Q
}.

(** The dictionary handed to [add_event]; a key may be missing. *)
Record event_data := {
  data_type : option string;
  data_project_id : option string;
  data_file_path : option string;
  data_timestamp : option Q
}.

(** [timers] holds the projects whose flush timer is scheduled and not
    cancelled. *)
Record DebouncerService := {
  debounce_seconds : Q;
  max_batch_size : Z;
  pending_events : gmap string (gmap string FileEvent);
  timers : gset string
}.

Definition new_debouncer (debounce_seconds : Q) (max_batch_size : Z)
  : DebouncerService :=
  {| debounce_seconds := debounce_seconds; max_batch_size := max_batch_size;
     pending_events := ∅; timers := ∅ |}.

(** [FileEvent(type=event_data["type"], ...)]; [None] is the [KeyError]. *)
Definition make_event (d : event_data) : option FileEvent :=
  ty ← data_type d; p ← data_project_id d; f ← data_file_path d;
  t ← data_timestamp d;
  Some {| type := ty; project_id := p; file_path := f; timestamp := t |}.

Definition to_data (e : FileEvent) : event_data :=
  {| data_type := Some (type e); data_project_id := Some (project_id e);
     data_file_path := Some (file_path e); data_timestamp := Some (timestamp e) |}.

Definition dedup_step (file_events : gmap string FileEvent) (event : FileEvent)
  : gmap string FileEvent :=
  match file_events !! file_path event with
  | None => <[file_path event := event]> file_events
  | Some kept =>
      if negb (Qle_bool (timestamp event) (timestamp kept))
      then <[file_path event := event]> file_events
      else file_events
  end.

Definition _deduplicate_events (events : list FileEvent) : list FileEvent :=
  (map_to_list (foldl dedup_step ∅ events)).*2.

Definition _flush_project (d : DebouncerService) (project : string)
  : DebouncerService * list FileEvent :=
  match pending_events d !! project with
  | None => (d, [])
  | Some events_dict =>
      let d' := {| debounce_seconds := debounce_seconds d;
                   max_batch_size := max_batch_size d;
                   pending_events := delete project (pending_events d);
                   timers := timers d ∖ {[project]} |} in
      if decide (events_dict = ∅) then (d', [])
      else (d', _deduplicate_events (map_to_list events_dict).*2)
  end.

Definition flush := _flush_project.

(** The second component is the batch handed to the flush callback when
    the addition fills the batch. *)
Definition add_event (d : DebouncerService) (data : event_data)
  : DebouncerService * option (list FileEvent) :=
  match make_event data with
  | None => (d, None)
  | Some event =>
      let project := project_id event in
      let bucket := default ∅ (pending_events d !! project) in
      let bucket := <[file_path event := event]> bucket in
      let d1 := {| debounce_seconds := debounce_seconds d;
                   max_batch_size := max_batch_size d;
                   pending_events := <[project := bucket]> (pending_events d);
                   timers := timers d ∖ {[project]} |} in
      if Z.of_nat (size bucket) >=? max_batch_size d then
        let '(d2, events) := _flush_project d1 project in (d2, Some events)
      else
        ({| debounce_seconds := debounce_seconds d1;
            max_batch_size := max_batch_size d1;
            pending_events := pending_events d1;
            timers := timers d1 ∪ {[project]} |}, None)
  end.

(** Events added one after the other; the batches flushed on the way
    are collected in order. *)
Fixpoint add_events (d : DebouncerService) (events : list FileEvent)
  : DebouncerService * list (list FileEvent) :=
  match events with
  | [] => (d, [])
  | e :: rest =>
      let '(d1, out) := add_event d (to_data e) in
      let '(d2, outs) := add_events d1 rest in
      (d2, match out with Some b => b :: outs | None => outs end)
  end.

(** The entries of a flushed batch for one file. *)
Definition entries_for (file : string) (batch : list FileEvent) : list FileEvent :=
  filter (fun e => file_path e = file) batch.

(** Every pending event is filed under its own path, as [add_event]
    files it. *)
Definition consistent (d : DebouncerService) : Prop :=
  forall project bucket file e,
    pending_events d !! project = Some bucket -> bucket !! file = Some e ->
    file_path e = file.

(** The number of pending files of [project] once [file] is among them. *)
Definition pending_with (d : DebouncerService) (project file : string) : nat :=
  size ({[file]} ∪ dom (default ∅ (pending_events d !! project))).

(** The timestamps do not decrease in the order of the list. *)
Definition nondecreasing (events : list FileEvent) : Prop :=
  forall i j ei ej,
    (i <= j)%nat -> events !! i = Some ei -> events !! j = Some ej ->
    (timestamp ei <= timestamp ej)%Q.

(** No event of the list has a later timestamp than [e]. *)
Definition greatest_timestamp (e : FileEvent) (events : list FileEvent) : Prop :=
  Forall (fun e' => (timestamp e' <= timestamp e)%Q) events.


(** The flushed entry of a file in the words of the specification:
    there is exactly one, and it is the event with the greatest
    timestamp among those added. *)
Definition spec_flushed_entry (events batch : list FileEvent) (file : string)
  : Prop :=
  exists e, entries_for file batch = [e] /\ e ∈ events
            /\ greatest_timestamp e events.

Definition sample_event (t : Q) : FileEvent :=
  {| type := "modified"; project_id := "p"; file_path := "/p/a.py";
     timestamp := t |}.

(** [flush_all]: the projects are taken in the order of the keys of
    [pending_events]; a project whose flush gives no event is left out
    of the result. *)
Definition flush_all_step (st : DebouncerService * gmap string (list FileEvent))
    (project : string) : DebouncerService * gmap string (list FileEvent) :=
  let '(d', events) := _flush_project st.1 project in
  (d', match events with
       | [] => st.2
       | _ :: _ => <[project := events]> st.2
       end).

Definition flush_all (d : DebouncerService)
  : DebouncerService * gmap string (list FileEvent) :=
  foldl flush_all_step (d, ∅) (map_to_list (pending_events d)).*1.

(** [get_pending_count(project_id)]; an empty [project_id] is taken as
    none. *)
Definition get_pending_count (d : DebouncerService) (project : option string) : Z :=
  match project with
  | Some (String c p) =>
      Z.of_nat (size (default ∅ (pending_events d !! String c p)))
  | _ => Z.of_nat (sum_list (size <$> (map_to_list (pending_events d)).*2))
  end.

(** The operations of the service that change it. *)
Inductive operation :=
| AddEvent (data : event_data)
| Flush (project : string)
| FlushAll.

Definition perform (d : DebouncerService) (op : operation) : DebouncerService :=
  match op with
  | AddEvent data => (add_event d data).1
  | Flush project => (flush d project).1
  | FlushAll => (flush_all d).1
  end.

(** The state of the service between two operations: the projects with
    a running timer are those with pending events, no bucket is empty or
    has reached [max_batch_size], and every event is filed under its
    path. *)
Inductive tidy (d : DebouncerService) : Prop :=
| Tidy
    (tidy_timers : timers d = dom (pending_events d))
    (tidy_buckets :
       forall project bucket,
         pending_events d !! project = Some bucket ->
         bucket <> ∅ /\ Z.of_nat (size bucket) < max_batch_size d)
    (tidy_consistent : consistent d).

(** The event kept for [file] among [events]: one of them, for that
    file, and none for that file has a later timestamp. *)
Definition latest_for (file : string) (events : list FileEvent) (e : FileEvent)
  : Prop :=
  e ∈ events /\ file_path e = file
  /\ forall e', e' ∈ events -> file_path e' = file ->
                (timestamp e' <= timestamp e)%Q.

(** The dictionary of [_deduplicate_events] after the events [seen]. *)
Definition dedup_inv (file_events : gmap string FileEvent) (seen : list FileEvent)
  : Prop :=
  forall file,
    match file_events !! file with
    | Some e => latest_for file seen e
    | None => forall e', e' ∈ seen -> file_path e' <> file
    end.

End Debouncer.

(** ** The sync engine ([sync/incremental_sync_service.py]) *)

Module SyncEngine.
Import Text Exn.

Definition embedding := BatchEmbedder.embedding.

(** The [metadata] of a chunk.  The engine reads [file_hash] and
    [chunk_hash] of stored chunks with [.get], so they may be absent. *)
Record Metadata := {
  file_path : string;
  relative_path : string;
  file_hash : option string;
  chunk_hash : option string;
  language : string;
  chunk_index : Z;
  start_line : Z;
  end_line : Z;
  section_type : option string;
  section_name : option string
}.

(** A chunk dictionary as the engine builds it. *)
Record Chunk := {
  source_id : string;
  content : string;
  embedding_of : embedding;
  metadata : Metadata
}.

(** A row of the table [knowledge_chunks]: a chunk with the [id] the
    store gave it. *)
Record Row := {
  id : string;
  chunk : Chunk
}.

(** The table, in the order in which the store returns its rows, and the
    number of rows inserted so far, from which the store makes the
    next [id]. *)
Record Db := {
  knowledge_chunks : list Row;
  inserted : nat
}.

Record SyncStats := {
  files_processed : Z;
  chunks_added : Z;
  chunks_modified : Z;
  chunks_deleted : Z;
  errors : list string
}.

Definition new_stats : SyncStats :=
  {| files_processed := 0; chunks_added := 0; chunks_modified := 0;
     chunks_deleted := 0; errors := [] |}.

(** *** The store *)

Definition of_file (source file : string) (r : Row) : bool :=
  String.eqb (source_id (chunk r)) source
  && String.eqb (file_path (metadata (chunk r))) file.

Definition _get_chunks_for_file (db : Db) (source file : string) : list Row :=
  List.filter (of_file source file) (knowledge_chunks db).

Definition _delete_file_chunks (db : Db) (source file : string) : Db * Z :=
  ({| knowledge_chunks :=
        List.filter (fun r => negb (of_file source file r)) (knowledge_chunks db);
      inserted := inserted db |},
   Z.of_nat (length (_get_chunks_for_file db source file))).

Definition _delete_chunks (db : Db) (chunk_ids : list string) : Db :=
  match chunk_ids with
  | [] => db
  | _ :: _ =>
      {| knowledge_chunks :=
           List.filter (fun r => negb (existsb (String.eqb (id r)) chunk_ids))
             (knowledge_chunks db);
         inserted := inserted db |}
  end.

Definition insert_row (db : Db) (c : Chunk) : Db :=
  {| knowledge_chunks :=
       knowledge_chunks db ++ [ {| id := pretty (inserted db); chunk := c |} ];
     inserted := S (inserted db) |}.

Definition BATCH_SIZE : nat := 50.

(** [chunks[i:i + BATCH_SIZE] for i in range(0, len(chunks), BATCH_SIZE)] *)
Fixpoint batches (fuel : nat) (chunks : list Chunk) : list (list Chunk) :=
  match fuel, chunks with
  | S fuel', _ :: _ => take BATCH_SIZE chunks :: batches fuel' (drop BATCH_SIZE chunks)
  | _, _ => []
  end.

Definition _insert_chunks (db : Db) (chunks : list Chunk) : Db :=
  match chunks with
  | [] => db
  | _ :: _ =>
      foldl (fun db batch => foldl insert_row db batch) db
        (batches (length chunks) chunks)
  end.

(** *** The chunk-level diff *)

(** The truth value of [chunk.get('metadata', {}).get('chunk_hash')]:
    the hash when it is present and not empty. *)
Definition truthy_hash (h : option string) : option string :=
  match h with
  | Some EmptyString => None
  | other => other
  end.

Definition row_hash (r : Row) : option string :=
  truthy_hash (chunk_hash (metadata (chunk r))).

Definition new_hash (c : Chunk) : option string :=
  truthy_hash (chunk_hash (metadata c)).

(** [{hash(c): c for c in l if hash(c)}] *)
Definition by_hash {A} (hash : A -> option string) (l : list A) : gmap string A :=
  foldl (fun m c => match hash c with
                    | Some h => <[h := c]> m
                    | None => m
                    end) ∅ l.

Definition _compute_chunk_diff (old_chunks : list Row) (new_chunks : list Chunk)
  : list string * list Chunk :=
  let old_by_hash := by_hash row_hash old_chunks in
  let new_by_hash := by_hash new_hash new_chunks in
  let old_hashes : gset string := dom old_by_hash in
  let new_hashes : gset string := dom new_by_hash in
  let deleted_hashes := old_hashes ∖ new_hashes in
  let added_hashes := new_hashes ∖ old_hashes in
  (omap (fun h => id <$> old_by_hash !! h) (elements deleted_hashes),
   omap (fun h => new_by_hash !! h) (elements added_hashes)).

(** *** Categorisation of the candidate files *)

(** What the engine asks of the file system, of the hasher and of the
    embedder. *)
Inductive read_outcome :=
| Content (text : string)
| UnicodeDecodeError
| ReadError (e : exn).

Record environment := {
  os_path_exists : string -> bool;
  read_text : string -> read_outcome;
  compute_file_hash : string -> result string;
  compute_chunk_hash : string -> string;
  relpath : string -> string -> string;
  embed_batch : list string -> result (list (option embedding));
  _embed_with_retry : string -> result (option embedding)
}.

Record changes := {
  added_files : list string;
  modified_files : list string;
  deleted_files : list string
}.

Definition first_file_hash (existing_chunks : list Row) : option string :=
  match existing_chunks with
  | [] => None
  | r :: _ => file_hash (metadata (chunk r))
  end.

Fixpoint categorize_loop (env : environment) (db : Db) (source : string)
    (file_paths : list string) (acc : changes) : result changes :=
  match file_paths with
  | [] => Ok acc
  | file :: rest =>
      if negb (os_path_exists env file) then
        categorize_loop env db source rest
          {| added_files := added_files acc; modified_files := modified_files acc;
             deleted_files := deleted_files acc ++ [file] |}
      else
        match _get_chunks_for_file db source file with
        | [] =>
            categorize_loop env db source rest
              {| added_files := added_files acc ++ [file];
                 modified_files := modified_files acc;
                 deleted_files := deleted_files acc |}
        | existing_chunks =>
            match compute_file_hash env file with
            | Raise e => Raise e
            | Ok current_hash =>
                if decide (Some current_hash <> first_file_hash existing_chunks) then
                  categorize_loop env db source rest
                    {| added_files := added_files acc;
                       modified_files := modified_files acc ++ [file];
                       deleted_files := deleted_files acc |}
                else categorize_loop env db source rest acc
            end
        end
  end.

Definition _categorize_changes (env : environment) (db : Db) (source : string)
    (file_paths : list string) : result changes :=
  categorize_loop env db source file_paths
    {| added_files := []; modified_files := []; deleted_files := [] |}.

(** The three categories as the code decides them. *)
Definition is_deleted (env : environment) (file : string) : Prop :=
  os_path_exists env file = false.

Definition is_added (env : environment) (db : Db) (source file : string) : Prop :=
  os_path_exists env file = true /\ _get_chunks_for_file db source file = [].

Definition is_modified (env : environment) (db : Db) (source file : string) : Prop :=
  os_path_exists env file = true
  /\ _get_chunks_for_file db source file <> []
  /\ exists current_hash,
       compute_file_hash env file = Ok current_hash
       /\ Some current_hash
          <> first_file_hash (_get_chunks_for_file db source file).

(** The category [deleted] in the words of the specification. *)
Definition spec_is_deleted (env : environment) (db : Db) (source file : string)
  : Prop :=
  os_path_exists env file = false /\ _get_chunks_for_file db source file <> [].

(** *** Chunking and embedding of one file *)

(** [self.chunker.chunk_file(content, language)], with the default sizes.
    The fuel given to the generic loop is one more than the number of
    lines, which is enough for these sizes. *)
Definition chunk_file (content language : string) : list Chunker.CodeChunk :=
  default []
    (Chunker.chunk_file (S (length (split_nl content))) content language
       Chunker.DEFAULT_CHUNK_SIZE Chunker.DEFAULT_OVERLAP).

(** [if not embedding]: a missing or empty vector is skipped. *)
Definition usable (e : option embedding) : option embedding :=
  match e with
  | Some (x :: v) => Some (x :: v)
  | _ => None
  end.

Definition chunk_object (env : environment)
    (source file base hash_of_file lang : string) (idx : Z)
    (code_chunk : Chunker.CodeChunk) (e : embedding) : Chunk :=
  {| source_id := source;
     content := Chunker.content code_chunk;
     embedding_of := e;
     metadata :=
       {| file_path := file;
          relative_path := relpath env file base;
          file_hash := Some hash_of_file;
          chunk_hash := Some (compute_chunk_hash env (Chunker.content code_chunk));
          language := lang;
          chunk_index := idx;
          start_line := Chunker.start_line code_chunk;
          end_line := Chunker.end_line code_chunk;
          section_type := Chunker.section_type code_chunk;
          section_name := Chunker.section_name code_chunk |} |}.

(** [for idx, (code_chunk, embedding) in enumerate(zip(...))] *)
Fixpoint chunk_objects (env : environment)
    (source file base hash_of_file lang : string) (idx : Z)
    (pairs : list (Chunker.CodeChunk * option embedding)) : list Chunk :=
  match pairs with
  | [] => []
  | (code_chunk, e) :: rest =>
      match usable e with
      | None => chunk_objects env source file base hash_of_file lang (idx + 1) rest
      | Some v =>
          chunk_object env source file base hash_of_file lang idx code_chunk v
          :: chunk_objects env source file base hash_of_file lang (idx + 1) rest
      end
  end.

Fixpoint _chunk_and_embed_file_individually (env : environment)
    (source file base hash_of_file lang : string) (idx : Z)
    (code_chunks : list Chunker.CodeChunk) : list Chunk :=
  match code_chunks with
  | [] => []
  | code_chunk :: rest =>
      let others :=
        _chunk_and_embed_file_individually env source file base hash_of_file
          lang (idx + 1) rest in
      match _embed_with_retry env (Chunker.content code_chunk) with
      | Raise _ => others
      | Ok e =>
          match usable e with
          | None => others
          | Some v =>
              chunk_object env source file base hash_of_file lang idx code_chunk v
              :: others
          end
      end
  end.

Definition _chunk_and_embed_file (env : environment) (source base file : string)
  : result (list Chunk) :=
  match read_text env file with
  | UnicodeDecodeError => Ok []
  | ReadError _ => Ok []
  | Content text =>
      let lang := Chunker.detect_language file in
      match compute_file_hash env file with
      | Raise e => Raise e
      | Ok hash_of_file =>
          match chunk_file text lang with
          | [] => Ok []
          | code_chunks =>
              match embed_batch env (Chunker.content <$> code_chunks) with
              | Ok embeddings =>
                  Ok (chunk_objects env source file base hash_of_file lang 0
                        (zip code_chunks embeddings))
              | Raise _ =>
                  Ok (_chunk_and_embed_file_individually env source file base
                        hash_of_file lang 0 code_chunks)
              end
          end
      end
  end.

Definition _process_modified_file (env : environment) (db : Db)
    (source base file : string) : result (list string * list Chunk) :=
  let old_chunks := _get_chunks_for_file db source file in
  match _chunk_and_embed_file env source base file with
  | Raise e => Raise e
  | Ok new_chunks => Ok (_compute_chunk_diff old_chunks new_chunks)
  end.

(** *** The parallel processor, as the engine sees it *)

Record ProcessingResult (R : Type) := {
  result_file_path : string;
  success : bool;
  result : option R;
  error : option exn
}.
Arguments result_file_path {R} p.
Arguments success {R} p.
Arguments result {R} p.
Arguments error {R} p.

Definition _process_single_file {R} (file : string) (r : Exn.result R)
  : ProcessingResult R :=
  match r with
  | Ok v => {| result_file_path := file; success := true;
               result := Some v; error := None |}
  | Raise e => {| result_file_path := file; success := false;
                  result := None; error := Some e |}
  end.

Definition process_files {R} (file_paths : list string)
    (process_func : string -> Exn.result R) : list (ProcessingResult R) :=
  (fun file => _process_single_file file (process_func file)) <$> file_paths.

(** *** The phases of a sync *)

Definition add_error (stats : SyncStats) (what file : string) (e : exn) : SyncStats :=
  {| files_processed := files_processed stats;
     chunks_added := chunks_added stats;
     chunks_modified := chunks_modified stats;
     chunks_deleted := chunks_deleted stats;
     errors := errors stats ++
       [ what +:+ " error (" +:+ file +:+ "): "
         +:+ ErrorHandler.get_user_message (ErrorHandler.classify e) e ] |}.

Definition process_deletion (source : string) (st : Db * SyncStats) (file : string)
  : Db * SyncStats :=
  let '(db, deleted_count) := _delete_file_chunks st.1 source file in
  (db,
   {| files_processed := files_processed st.2;
      chunks_added := chunks_added st.2;
      chunks_modified := chunks_modified st.2;
      chunks_deleted := chunks_deleted st.2 + deleted_count;
      errors := errors st.2 |}).

(** The body of [for result in add_results]. *)
Definition aggregate_added (st : Db * SyncStats)
    (r : ProcessingResult (list Chunk)) : Db * SyncStats :=
  match success r, result r with
  | true, Some (c :: cs) =>
      let chunks := c :: cs in
      (_insert_chunks st.1 chunks,
       {| files_processed := files_processed st.2 + 1;
          chunks_added := chunks_added st.2 + Z.of_nat (length chunks);
          chunks_modified := chunks_modified st.2;
          chunks_deleted := chunks_deleted st.2;
          errors := errors st.2 |})
  | _, _ =>
      match error r with
      | Some e => (st.1, add_error st.2 "Add" (result_file_path r) e)
      | None => st
      end
  end.

(** The body of [for result in modify_results]. *)
Definition aggregate_modified (st : Db * SyncStats)
    (r : ProcessingResult (list string * list Chunk)) : Db * SyncStats :=
  match success r, result r with
  | true, Some (to_delete, to_add) =>
      (_insert_chunks (_delete_chunks st.1 to_delete) to_add,
       {| files_processed := files_processed st.2 + 1;
          chunks_added := chunks_added st.2;
          chunks_modified := chunks_modified st.2 + Z.of_nat (length to_add);
          chunks_deleted := chunks_deleted st.2 + Z.of_nat (length to_delete);
          errors := errors st.2 |})
  | _, _ =>
      match error r with
      | Some e => (st.1, add_error st.2 "Modify" (result_file_path r) e)
      | None => st
      end
  end.

(** The engine from the categorisation to the last modification, for a
    project whose source is [source] and whose directory is [base]. *)
Definition sync_files (env : environment) (db : Db) (source base : string)
    (changed_files : list string) : Exn.result (Db * SyncStats) :=
  match _categorize_changes env db source changed_files with
  | Raise e => Raise e
  | Ok ch =>
      let st := foldl (process_deletion source) (db, new_stats) (deleted_files ch) in
      let add_results :=
        process_files (added_files ch) (_chunk_and_embed_file env source base) in
      let st := foldl aggregate_added st add_results in
      let modify_results :=
        process_files (modified_files ch)
          (_process_modified_file env st.1 source base) in
      Ok (foldl aggregate_modified st modify_results)
  end.

(** *** Notions used to state the properties of the engine *)

(** The last element of [l] whose hash is [h]. *)
Definition last_with_hash {A} (hash : A -> option string) (h : string)
    (l : list A) : option A :=
  last (filter (fun c => hash c = Some h) l).

(** The hashes that occur in [l]. *)
Definition hashes {A} (hash : A -> option string) (l : list A) : gset string :=
  list_to_set (omap hash l).

(** The additions of the diff in the words of the specification: the
    new chunks whose hash does not occur among the hashes of the old
    ones. *)
Definition spec_adds (old_chunks : list Row) (new_chunks to_add : list Chunk)
  : Prop :=
  forall c, c ∈ to_add <->
            c ∈ new_chunks
            /\ chunk_hash (metadata c)
               ∉ ((fun r => chunk_hash (metadata (chunk r))) <$> old_chunks).

(** The deletions of the diff in the words of the specification: the
    ids of the old chunks whose hash does not occur among the hashes of
    the new ones. *)
Definition spec_deletes (old_chunks : list Row) (new_chunks : list Chunk)
    (to_delete : list string) : Prop :=
  forall i, i ∈ to_delete <->
            exists r, r ∈ old_chunks /\ id r = i
                      /\ chunk_hash (metadata (chunk r))
                         ∉ ((fun c => chunk_hash (metadata c)) <$> new_chunks).

(** A chunk of the file [/p/a.py] with a given hash and index. *)
Definition sample_chunk (hash : string) (idx : Z) : Chunk :=
  {| source_id := "src";
     content := "pass";
     embedding_of := [1%Q];
     metadata :=
       {| file_path := "/p/a.py"; relative_path := "a.py";
          file_hash := Some "f0"; chunk_hash := Some hash;
          language := "python"; chunk_index := idx;
          start_line := idx + 1; end_line := idx + 1;
          section_type := None; section_name := None |} |}.

(** A disk on which every path is a Python file with twice the same
    function, and an embedder that never fails; [sha256] is the digest
    behind [compute_chunk_hash]. *)
Definition twice_the_same : string :=
  "def f(): pass" +:+ String newline "def f(): pass".

Definition dup_env (sha256 : string -> string) : environment :=
  {| os_path_exists := fun _ => true;
     read_text := fun _ => Content twice_the_same;
     compute_file_hash := fun _ => Ok (sha256 twice_the_same);
     compute_chunk_hash := sha256;
     relpath := fun p _ => p;
     embed_batch := fun texts => Ok ((fun _ => Some [1%Q]) <$> texts);
     _embed_with_retry := fun _ => Ok (Some [1%Q]) |}.

(** A disk without files and a store without rows. *)
Definition no_disk : environment :=
  {| os_path_exists := fun _ => false;
     read_text := fun _ => ReadError {| exn_type := "FileNotFoundError"; exn_msg := "" |};
     compute_file_hash := fun _ => Raise {| exn_type := "FileNotFoundError"; exn_msg := "" |};
     compute_chunk_hash := fun s => s;
     relpath := fun p _ => p;
     embed_batch := fun ts => Ok ((fun _ => None) <$> ts);
     _embed_with_retry := fun _ => Ok None |}.

Definition empty_db : Db := {| knowledge_chunks := []; inserted := 0 |}.

(** The chunk hashes stored for one file of one source. *)
Definition stored_hashes (db : Db) (source file : string) : list (option string) :=
  (fun r => chunk_hash (metadata (chunk r))) <$> _get_chunks_for_file db source file.

(** *** The scan of a directory *)

(** A directory as [os.walk] finds it: the names of its files and its
    sub-directories by name, in the order of the listing. *)
Inductive tree := Node (files : list string) (dirs : list (string * tree)).

Definition include_extensions : list string :=
  [ ".py"; ".ts"; ".tsx"; ".js"; ".jsx"; ".md"; ".mdx"; ".rs"; ".go"; ".java";
    ".cpp"; ".c"; ".cs"; ".rb"; ".php"; ".swift"; ".kt"; ".json"; ".yaml";
    ".yml"; ".toml"; ".sql"; ".sh"; ".bash" ].

Definition exclude_dirs : list string :=
  [ ".git"; "node_modules"; "__pycache__"; ".venv"; "venv"; "dist"; "build";
    ".next"; "target"; ".pytest_cache"; "coverage"; ".nyc_output"; "vendor" ].

(** [os.path.join(a, b)] on POSIX. *)
Definition path_join (a b : string) : string :=
  if startswith b "/" then b
  else if String.eqb a "" || endswith a "/" then a +:+ b
  else a +:+ "/" +:+ b.

Definition included (file : string) : bool :=
  existsb (endswith file) include_extensions.

Definition excluded (d : string) : bool :=
  existsb (String.eqb d) exclude_dirs.

Fixpoint _scan_directory (directory : string) (t : tree) : list string :=
  match t with
  | Node files dirs =>
      (path_join directory <$> List.filter included files)
      ++ flat_map (fun entry =>
                     let '(d, sub) := entry in
                     if excluded d then []
                     else _scan_directory (path_join directory d) sub) dirs
  end.

(** The file named [file] lies in [t] below the directories [ds], from
    the outermost to the innermost. *)
Inductive file_at : tree -> list string -> string -> Prop :=
| file_here (files : list string) (dirs : list (string * tree)) (file : string) :
    file ∈ files -> file_at (Node files dirs) [] file
| file_below (files : list string) (dirs : list (string * tree))
    (d : string) (sub : tree) (ds : list string) (file : string) :
    (d, sub) ∈ dirs -> file_at sub ds file ->
    file_at (Node files dirs) (d :: ds) file.

(** *** The decorated [_embed_with_retry] *)

Module Decorated.
Import ErrorHandler.

(** [RetryConfig(max_retries=3, initial_delay=1.0, max_delay=30.0)].
    The delays are rationals here: [delay] only takes the values 1, 2, 4
    and 8, and the product of a float by a power of two is exact. *)
Definition retry_config : RetryConfig Q :=
  {| max_retries := 3; initial_delay := 1%Q; max_delay := 30%Q;
     exponential_base := 2%Q; jitter := true |}.

(** [min(a, b)] *)
Definition float_min (a b : Q) : Q := if Qle_bool a b then a else b.

Definition q_ops (draws : nat -> Q) : float_ops Q :=
  {| fmul := Qmult; fmin := float_min; uniform := draws |}.

(** The body of the method.  [embed k] is what the call number [k] of
    [embedding_service.embed] does. *)
Definition body (embed : nat -> Exn.result (option embedding)) (k : nat)
  : Exn.result (option embedding) :=
  match embed k with
  | Ok e => Ok e
  | Raise e => if negb (is_retryable (classify e)) then Ok None else Raise e
  end.

Definition _embed_with_retry (embed : nat -> Exn.result (option embedding))
    (draws : nat -> Q) : option (backoff_run Q (option embedding)) :=
  retry_with_backoff (q_ops draws) retry_config (body embed) 4.

End Decorated.

(** *** More notions used to state the properties of the engine *)

(** The rows the store makes of [chunks] when [n] rows were inserted
    before them. *)
Fixpoint rows_from (n : nat) (chunks : list Chunk) : list Row :=
  match chunks with
  | [] => []
  | c :: chunks' => {| id := pretty n; chunk := c |} :: rows_from (S n) chunks'
  end.

(** A chunk object made for the file [file] of [source], whose hash is
    [hash_of_file]: it names its source, its file and the hash of the
    file, its [chunk_hash] is the hash of its content, and it has an
    embedding. *)
Definition built_for (env : environment) (source file hash_of_file : string)
    (c : Chunk) : Prop :=
  source_id c = source
  /\ file_path (metadata c) = file
  /\ file_hash (metadata c) = Some hash_of_file
  /\ chunk_hash (metadata c) = Some (compute_chunk_hash env (content c))
  /\ embedding_of c <> [].

(** The indexes of the chunks go up, all of them at least [idx]. *)
Fixpoint indexed_from (idx : Z) (chunks : list Chunk) : Prop :=
  match chunks with
  | [] => True
  | c :: chunks' =>
      idx <= chunk_index (metadata c)
      /\ indexed_from (chunk_index (metadata c) + 1) chunks'
  end.

(** A candidate the engine leaves alone: it is on disk, the store has
    chunks of it, and the [file_hash] of the first of them is the hash
    of the file on disk. *)
Definition is_unchanged (env : environment) (db : Db) (source file : string)
  : Prop :=
  os_path_exists env file = true
  /\ exists r rs h,
       _get_chunks_for_file db source file = r :: rs
       /\ compute_file_hash env file = Ok h
       /\ file_hash (metadata (chunk r)) = Some h.

End SyncEngine.

(** * Properties *)

(** ** Text *)

Section TextFacts.
Import Text.

Lemma prefix_app_l (p q s : string) :
  String.prefix (p +:+ q) s = true -> String.prefix p s = true.
Proof.
  revert s. induction p as [|a p IH]; intros s; [by destruct s|].
  destruct s as [|b s]; simpl; [done|].
  destruct (Ascii.ascii_dec a b); [apply IH | done].
Qed.

Lemma split_nl_nonempty (s : string) : split_nl s <> [].
Proof.
  destruct s as [|c s]; simpl; [done|].
  destruct (Ascii.eqb c newline); [done|]. by destruct (split_nl s).
Qed.

Lemma split_nl_length (s : string) : (1 <= length (split_nl s))%nat.
Proof.
  pose proof (split_nl_nonempty s). destruct (split_nl s); simpl; [done | lia].
Qed.

Lemma join_split_nl (s : string) : join_nl (split_nl s) = s.
Proof.
  induction s as [|c s IH]; [done|]. simpl.
  destruct (Ascii.eqb_spec c newline) as [->|Hc].
  - pose proof (split_nl_nonempty s) as Hne.
    change (join_nl (EmptyString :: split_nl s)) with
      (match split_nl s with
       | [] => EmptyString
       | _ :: _ => EmptyString +:+ String newline (join_nl (split_nl s))
       end).
    destruct (split_nl s) eqn:E; [done|]. simpl. by rewrite <- IH.
  - pose proof (split_nl_nonempty s) as Hne.
    destruct (split_nl s) as [|l ls] eqn:E; [done|].
    rewrite <- IH. simpl. by destruct ls.
Qed.

Lemma split_nl_no_newline (s : string) :
  Forall (fun l => no_newline l = true) (split_nl s).
Proof.
  induction s as [|c s IH]; simpl; [by repeat constructor|].
  destruct (Ascii.eqb_spec c newline) as [->|Hc]; [by constructor|].
  destruct (split_nl s) as [|l ls]; [repeat constructor|].
  - simpl. by destruct (Ascii.eqb_spec c newline).
  - inversion IH; subst. constructor; [|done]. simpl.
    destruct (Ascii.eqb_spec c newline); [done|]. done.
Qed.

Lemma split_nl_app (l : string) (rest : string) :
  no_newline l = true ->
  split_nl (l +:+ String newline rest) = l :: split_nl rest.
Proof.
  induction l as [|c l IH]; simpl; intros H.
  - done.
  - apply andb_true_iff in H as [Hc Hl]. apply negb_true_iff in Hc.
    rewrite Hc, IH by done. done.
Qed.

Lemma split_nl_single (l : string) : no_newline l = true -> split_nl l = [l].
Proof.
  induction l as [|c l IH]; simpl; intros H; [done|].
  apply andb_true_iff in H as [Hc Hl]. apply negb_true_iff in Hc.
  by rewrite Hc, IH.
Qed.

Lemma split_join_nl (ls : list string) :
  ls <> [] -> Forall (fun l => no_newline l = true) ls ->
  split_nl (join_nl ls) = ls.
Proof.
  induction ls as [|l ls IH]; [done|]. intros _ H.
  inversion H as [|? ? Hl Hls]; subst.
  destruct ls as [|l' ls]; [by apply split_nl_single|].
  change (join_nl (l :: l' :: ls)) with (l +:+ String newline (join_nl (l' :: ls))).
  rewrite split_nl_app by done. f_equal. by apply IH.
Qed.

End TextFacts.

(** ** Path validation *)

Section PathValidationFacts.
Import Text PathValidation.

Lemma forbidden_prefixes_spec (resolved : string) :
  existsb (startswith resolved) forbidden_prefixes = true <->
  exists p, In p spec_forbidden_prefixes /\ startswith resolved p = true.
Proof.
  rewrite existsb_exists. split; intros (p & Hin & Hp).
  - destruct (decide (p = "C:\Windows\System32")) as [->|Hne].
    + exists "C:\Windows". split; [simpl; tauto|].
      apply (prefix_app_l "C:\Windows" "\System32"). exact Hp.
    + exists p. split; [|done]. simpl in *. intuition congruence.
  - exists p. split; [|done]. simpl in *. intuition congruence.
Qed.

(** C9: the path is checked after it is resolved, and it is rejected
    exactly when the resolved path begins with one of the forbidden
    prefixes of the specification, does not exist, is not a directory
    or cannot be read; every other path is accepted. *)
Theorem validate_local_path_rejects_exactly (env : os_env) (path : string) :
  let resolved := resolve env path in
  let bad :=
    (exists p, In p spec_forbidden_prefixes /\ startswith resolved p = true)
    \/ os_path_exists env resolved = false
    \/ os_path_isdir env resolved = false
    \/ os_access_R_OK env resolved = false in
  (rejected (_validate_local_path env path) <-> bad)
  /\ (_validate_local_path env path = Valid <-> ~ bad).
Proof.
  intros resolved bad. subst bad. unfold _validate_local_path, rejected.
  fold resolved. rewrite <- forbidden_prefixes_spec.
  destruct (existsb (startswith resolved) forbidden_prefixes);
    [split; split; [eauto | eauto | done | intros []; tauto]|].
  destruct (os_path_exists env resolved); simpl;
    [|split; split; [eauto | eauto | done | intros []; tauto]].
  destruct (os_access_R_OK env resolved); simpl;
    [|split; split; [eauto 6 | eauto | done | intros []; tauto]].
  destruct (os_path_isdir env resolved); simpl;
    [|split; split; [eauto 6 | eauto | done | intros []; tauto]].
  split; split.
  - intros [msg Hmsg]. done.
  - intros [H|[H|[H|H]]]; done.
  - intros _ [H|[H|[H|H]]]; done.
  - done.
Qed.

End PathValidationFacts.

(** ** The generic chunking loop *)

Section GenericLoopFacts.
Import Text Chunker.

Lemma generic_loop_enough_fuel (lines : list string) (max_lines overlap_lines : Z) :
  overlap_lines < max_lines ->
  forall (fuel : nat) (idx : Z) (chunks : list CodeChunk),
    Z.max 0 (len lines - idx) < Z.of_nat fuel ->
    exists cs, generic_loop fuel lines max_lines overlap_lines idx chunks = Some cs.
Proof.
  intros Hstep fuel. induction fuel as [|fuel IH]; intros idx chunks Hfuel.
  - exists chunks. lia.
  - simpl. destruct (Z.ltb_spec idx (len lines)); [|by eexists].
    apply IH. lia.
Qed.

Lemma generic_loop_stuck (lines : list string) (max_lines overlap_lines : Z) :
  max_lines <= overlap_lines ->
  forall (fuel : nat) (idx : Z) (chunks : list CodeChunk),
    idx < len lines ->
    generic_loop fuel lines max_lines overlap_lines idx chunks = None.
Proof.
  intros Hstep fuel. induction fuel as [|fuel IH]; intros idx chunks Hidx; [done|].
  simpl. destruct (Z.ltb_spec idx (len lines)); [|lia].
  apply IH. lia.
Qed.

Lemma len_split_nl_pos (content : string) : 0 < len (split_nl content).
Proof. unfold len. pose proof (split_nl_length content). lia. Qed.

(** C10: the generic loop comes to an end, for every text, exactly when
    [overlap_lines < max_lines]; with [overlap_lines >= max_lines] it is
    still running after any number of iterations, whatever the text. *)
Theorem chunk_generic_terminates_iff (content : string) (max_lines overlap_lines : Z) :
  ((exists fuel cs, _chunk_generic fuel content max_lines overlap_lines = Some cs)
   <-> overlap_lines < max_lines)
  /\ (max_lines <= overlap_lines ->
      forall fuel, _chunk_generic fuel content max_lines overlap_lines = None).
Proof.
  assert (Hstuck : max_lines <= overlap_lines ->
            forall fuel, _chunk_generic fuel content max_lines overlap_lines = None).
  { intros H fuel. apply generic_loop_stuck; [done | apply len_split_nl_pos]. }
  split; [split|done].
  - intros (fuel & cs & Hrun).
    destruct (Z.lt_ge_cases overlap_lines max_lines) as [|Hge]; [done|].
    rewrite Hstuck in Hrun by done. done.
  - intros Hlt. exists (S (length (split_nl content))).
    apply generic_loop_enough_fuel; [done | unfold len; lia].
Qed.

Lemma chunk_generic_terminates_iff_witness :
  (exists fuel cs, _chunk_generic fuel "a" 100 10 = Some cs)
  /\ (forall fuel, _chunk_generic fuel "a" 10 10 = None).
Proof.
  split.
  - apply (chunk_generic_terminates_iff "a" 100 10). lia.
  - apply (chunk_generic_terminates_iff "a" 10 10). lia.
Defined.

End GenericLoopFacts.

(** ** Reassembling the chunks of a file *)

Section ReassemblyFacts.
Import Text Chunker.

Lemma last_end_snoc p cs c : last_end p (cs ++ [c]) = end_line c.
Proof. unfold last_end. by rewrite foldl_app. Qed.

Lemma strip_overlaps_snoc p cs c :
  strip_overlaps p (cs ++ [c]) = strip_overlaps p cs ++ fresh_lines (last_end p cs) c.
Proof.
  revert p. induction cs as [|c' cs IH]; intros p; simpl.
  - by rewrite app_nil_r.
  - rewrite IH. by rewrite <- app_assoc.
Qed.

Lemma fresh_regions_snoc p cs c :
  fresh_regions p (cs ++ [c]) =
  fresh_regions p cs ++ [(Z.max (start_line c) (last_end p cs + 1), end_line c)].
Proof.
  revert p. induction cs as [|c' cs IH]; intros p; simpl; [done|].
  by rewrite IH.
Qed.

Lemma scan_inv_init : scan_inv scan_init [].
Proof. by apply (ScanInv scan_init [] []). Qed.

(** Emitting the current lines as a chunk that ends at the last scanned
    line brings the reassembled text up to date. *)
Lemma emit_strip lang st scanned :
  scan_inv st scanned -> clean scanned -> current_chunk_lines st <> [] ->
  strip_overlaps 0 (emit lang st (len scanned)) = scanned
  /\ last_end 0 (emit lang st (len scanned)) = len scanned.
Proof.
  intros [pre Hsplit Hstart Hlo Hhi Hstrip] Hclean Hne. unfold emit.
  rewrite last_end_snoc, strip_overlaps_snoc, Hstrip. split; [|done].
  unfold fresh_lines. simpl. rewrite Hstart.
  rewrite split_join_nl; [|done|].
  2:{ rewrite Hsplit in Hclean. by apply Forall_app in Hclean as [_ ?]. }
  set (e := last_end 0 (chunks st)) in *.
  replace (Z.to_nat (e - (len pre + 1) + 1)) with (Z.to_nat e - length pre)%nat
    by (unfold len; lia).
  transitivity (take (Z.to_nat e) scanned ++ drop (Z.to_nat e) scanned);
    [|apply take_drop].
  f_equal. rewrite Hsplit, drop_app. rewrite (drop_ge pre); [done|]. unfold len in Hlo. lia.
Qed.

Lemma len_app {A} (l k : list A) : len (l ++ k) = len l + len k.
Proof. unfold len. rewrite length_app. lia. Qed.

Lemma len_snoc {A} (l : list A) (x : A) : len (l ++ [x]) = len l + 1.
Proof. by rewrite len_app. Qed.

Lemma len_take {A} (l : list A) (a : Z) :
  0 <= a <= len l -> len (take (Z.to_nat a) l) = a.
Proof. unfold len. rewrite length_take. lia. Qed.

Lemma py_slice_from_drop {A} (l : list A) (a : Z) :
  0 <= a <= len l -> py_slice_from l a = drop (Z.to_nat a) l.
Proof.
  intros Ha. unfold py_slice_from, slice_bound.
  destruct (Z.ltb_spec a 0); [lia|]. by rewrite Z.min_l by lia.
Qed.

Lemma structured_step_inv lang decl max_lines overlap_lines st scanned line :
  0 <= overlap_lines < max_lines ->
  scan_inv st scanned -> clean (scanned ++ [line]) ->
  scan_inv (structured_step lang decl max_lines overlap_lines st (len scanned + 1) line)
    (scanned ++ [line]).
Proof.
  intros Hsz Hinv Hclean.
  assert (Hclean0 : clean scanned) by (by apply Forall_app in Hclean as [? _]).
  unfold structured_step.
  set (st1 := match decl line with Some _ => _ | None => _ end).
  assert (Hinv1 : scan_inv st1 (scanned ++ [line])).
  { subst st1. destruct (decl line) as [[ty name]|].
    - destruct (current_chunk_lines st) as [|l0 ls0] eqn:Hcur.
      + destruct Hinv as [pre Hsplit Hstart Hlo Hhi Hstrip].
        rewrite Hcur, app_nil_r in Hsplit. subst pre.
        apply (ScanInv _ _ scanned); simpl; try done; try lia.
        * rewrite len_snoc. lia.
        * rewrite Hstrip. rewrite take_app_le; [done|]. unfold len in Hhi. lia.
      + replace (len scanned + 1 - 1) with (len scanned) by lia.
        destruct (emit_strip lang st scanned) as [Hs He]; [done|done|by rewrite Hcur|].
        apply (ScanInv _ _ scanned); simpl; try done; try lia.
        * rewrite len_snoc. lia.
        * rewrite Hs, He. unfold len. rewrite Nat2Z.id. by rewrite take_app_length.
    - destruct Hinv as [pre Hsplit Hstart Hlo Hhi Hstrip].
      apply (ScanInv _ _ pre); simpl; try done.
      + by rewrite Hsplit, <- app_assoc.
      + rewrite len_snoc. lia.
      + rewrite Hstrip. rewrite take_app_le; [done|]. unfold len in Hhi. lia. }
  clearbody st1.
  destruct (Z.geb_spec (len (current_chunk_lines st1)) max_lines) as [Hfull|]; [|done].
  replace (len scanned + 1) with (len (scanned ++ [line]))
    by (rewrite len_snoc; lia).
  set (all := scanned ++ [line]) in *.
  assert (Hne : current_chunk_lines st1 <> []).
  { intros E. rewrite E in Hfull. unfold len in Hfull. simpl in Hfull. lia. }
  destruct (emit_strip lang st1 all) as [Hs He]; [done|done|done|].
  destruct Hinv1 as [pre Hsplit Hstart Hlo Hhi Hstrip].
  set (cur := current_chunk_lines st1) in *.
  rewrite Z.max_r by lia. rewrite py_slice_from_drop by lia.
  apply (ScanInv _ _ (pre ++ take (Z.to_nat (len cur - overlap_lines)) cur));
    simpl.
  - rewrite <- app_assoc, take_drop. done.
  - rewrite len_app, len_take by lia. rewrite Hsplit, len_app. lia.
  - rewrite He, len_app, len_take by lia. rewrite Hsplit, len_app. lia.
  - rewrite He. lia.
  - rewrite Hs, He. unfold len. rewrite Nat2Z.id. by rewrite take_ge.
Qed.

Lemma scan_structured_inv lang decl max_lines overlap_lines rest :
  0 <= overlap_lines < max_lines ->
  forall st scanned,
    scan_inv st scanned -> clean (scanned ++ rest) ->
    scan_inv
      (scan (structured_step lang decl max_lines overlap_lines) st
         (len scanned + 1) rest)
      (scanned ++ rest).
Proof.
  intros Hsz. induction rest as [|line rest IH]; intros st scanned Hinv Hclean; simpl.
  - by rewrite app_nil_r.
  - replace (len scanned + 1 + 1) with (len (scanned ++ [line]) + 1)
      by (rewrite len_snoc; lia).
    assert (E : scanned ++ line :: rest = (scanned ++ [line]) ++ rest)
      by (by rewrite <- app_assoc).
    rewrite E in *. apply IH; [|done].
    apply structured_step_inv; [done|done|].
    by apply Forall_app in Hclean as [? _].
Qed.

Lemma finish_strip lang st scanned :
  scan_inv st scanned -> clean scanned ->
  strip_overlaps 0 (finish lang st (len scanned)) = scanned.
Proof.
  intros Hinv Hclean. unfold finish.
  destruct (current_chunk_lines st) as [|l ls] eqn:Hcur.
  - destruct Hinv as [pre Hsplit Hstart Hlo Hhi Hstrip].
    rewrite Hcur, app_nil_r in Hsplit. subst pre.
    rewrite Hstrip. apply take_ge. unfold len in Hlo. lia.
  - apply emit_strip; [done|done|by rewrite Hcur].
Qed.

Lemma chunk_structured_reassemble lang decl content max_lines overlap_lines :
  0 <= overlap_lines < max_lines ->
  reassemble (chunk_structured lang decl content max_lines overlap_lines) = content.
Proof.
  intros Hsz. unfold reassemble, chunk_structured.
  pose proof (scan_structured_inv lang decl max_lines overlap_lines
                (split_nl content) Hsz scan_init [] scan_inv_init) as Hinv.
  simpl in Hinv. specialize (Hinv (split_nl_no_newline content)).
  change (len [] + 1) with 1 in Hinv.
  rewrite finish_strip; [apply join_split_nl | done | apply split_nl_no_newline].
Qed.

End ReassemblyFacts.

Section GenericCoverFacts.
Import Text Chunker.

Lemma py_slice_window {A} (l : list A) (a b : Z) :
  0 <= a < len l -> a <= b ->
  py_slice l a b
  = take (Z.to_nat (Z.min b (len l) - a)) (drop (Z.to_nat a) l).
Proof.
  intros Ha Hb. unfold py_slice, slice_bound.
  destruct (Z.ltb_spec a 0); [lia|]. destruct (Z.ltb_spec b 0); [lia|].
  by rewrite (Z.min_l a) by lia.
Qed.

Lemma covers_snoc regions e a b :
  covers regions e -> a <= e + 1 -> covers (regions ++ [(a, b)]) b.
Proof.
  intros Hcov Ha i Hi. destruct (Z.le_gt_cases i e) as [Hie|Hie].
  - destruct (Hcov i) as (r & Hr & Hin); [lia|].
    exists r. split; [apply in_or_app; by left | done].
  - exists (a, b). split; [apply in_or_app; right; by left | simpl; lia].
Qed.

Lemma covers_mono regions e e' : covers regions e -> e' <= e -> covers regions e'.
Proof. intros Hcov Hle i Hi. apply Hcov. lia. Qed.

Lemma generic_loop_inv (lines : list string) (max_lines overlap_lines : Z) :
  0 <= overlap_lines < max_lines -> clean lines ->
  forall (fuel : nat) (idx : Z) (chunks cs : list CodeChunk),
    0 <= idx ->
    Z.min idx (len lines) <= last_end 0 chunks <= Z.min (idx + max_lines) (len lines) ->
    strip_overlaps 0 chunks = take (Z.to_nat (last_end 0 chunks)) lines ->
    covers (fresh_regions 0 chunks) (last_end 0 chunks) ->
    generic_loop fuel lines max_lines overlap_lines idx chunks = Some cs ->
    strip_overlaps 0 cs = lines /\ covers (fresh_regions 0 cs) (len lines).
Proof.
  intros Hsz Hclean fuel.
  induction fuel as [|fuel IH]; intros idx chunks cs Hidx He Hstrip Hcov Hrun;
    [done|].
  simpl in Hrun. set (n := len lines) in *. set (e := last_end 0 chunks) in *.
  destruct (Z.ltb_spec idx n) as [Hlt|Hge].
  - set (e' := Z.min (idx + max_lines) n).
    assert (Hslice : py_slice lines idx (idx + max_lines)
                     = take (Z.to_nat (e' - idx)) (drop (Z.to_nat idx) lines))
      by (apply py_slice_window; lia).
    rewrite Hslice in Hrun.
    set (chunk_lines := take (Z.to_nat (e' - idx)) (drop (Z.to_nat idx) lines)) in *.
    assert (Hlen : len chunk_lines = e' - idx).
    { assert (Hn : n = Z.of_nat (length lines)) by done.
      subst chunk_lines. unfold len. rewrite length_take, length_drop.
      unfold e'. lia. }
    rewrite Hlen in Hrun.
    replace (Z.min (idx + (e' - idx)) n) with e' in Hrun by lia.
    eapply IH in Hrun; [exact Hrun | lia | | |].
    + rewrite last_end_snoc. simpl. lia.
    + rewrite strip_overlaps_snoc, last_end_snoc, Hstrip. simpl.
      unfold fresh_lines. simpl. fold e.
      rewrite split_join_nl.
      2:{ intros E. rewrite E in Hlen. unfold len in Hlen. simpl in Hlen. lia. }
      2:{ subst chunk_lines. apply Forall_take, Forall_drop, Hclean. }
      subst chunk_lines.
      replace (Z.to_nat (e - (idx + 1) + 1)) with (Z.to_nat e - Z.to_nat idx)%nat by lia.
      replace (Z.to_nat (e' - idx))
        with ((Z.to_nat e - Z.to_nat idx) + (Z.to_nat e' - Z.to_nat e))%nat by lia.
      rewrite <- take_drop_commute, drop_drop.
      replace (Z.to_nat idx + (Z.to_nat e - Z.to_nat idx))%nat with (Z.to_nat e) by lia.
      rewrite take_take_drop. f_equal. lia.
    + rewrite fresh_regions_snoc, last_end_snoc. simpl. fold e.
      apply (covers_snoc _ e); [done | lia].
  - injection Hrun as <-. assert (e = n) as Hen by lia. rewrite Hen in *.
    split; [|done]. rewrite Hstrip. apply take_ge. subst n. unfold len. lia.
Qed.

(** C7: for a Python or a TypeScript/JavaScript text, the chunk bodies
    put one after the other in emission order, each without the lines it
    carries over from its predecessor, are the original text, character
    for character; the chunks of the generic strategy cover every line
    of the file with the regions they do not share with their
    predecessors (and reassemble to the text as well).  The sizes are
    such that [0 <= overlap_lines < max_lines], as the defaults are. *)
Theorem chunker_round_trip (content : string) (max_lines overlap_lines : Z) :
  0 <= overlap_lines < max_lines ->
  reassemble (_chunk_python content max_lines overlap_lines) = content
  /\ reassemble (_chunk_typescript content max_lines overlap_lines) = content
  /\ exists fuel cs,
       _chunk_generic fuel content max_lines overlap_lines = Some cs
       /\ covers (fresh_regions 0 cs) (len (split_nl content))
       /\ reassemble cs = content.
Proof.
  intros Hsz. split; [|split].
  - by apply chunk_structured_reassemble.
  - by apply chunk_structured_reassemble.
  - destruct (generic_loop_enough_fuel (split_nl content) max_lines overlap_lines
                (proj2 Hsz) (S (length (split_nl content))) 0 [])
      as [cs Hrun]; [unfold len; lia|].
    exists (S (length (split_nl content))), cs. split; [done|].
    eapply generic_loop_inv in Hrun as [Hstrip Hcov];
      [| done | apply split_nl_no_newline | done | | done |].
    + split; [done|]. unfold reassemble. rewrite Hstrip. apply join_split_nl.
    + simpl. pose proof (len_split_nl_pos content). lia.
    + intros i Hi. simpl in Hi. lia.
Qed.

Lemma chunker_round_trip_witness :
  reassemble (_chunk_python "x = 1" 100 10) = "x = 1"
  /\ reassemble (_chunk_typescript "x = 1" 100 10) = "x = 1"
  /\ exists fuel cs,
       _chunk_generic fuel "x = 1" 100 10 = Some cs
       /\ covers (fresh_regions 0 cs) (len (split_nl "x = 1"))
       /\ reassemble cs = "x = 1".
Proof. apply (chunker_round_trip "x = 1" 100 10). lia. Defined.

End GenericCoverFacts.

(** ** The circuit breaker *)

Section CircuitBreakerFacts.
Import Text Exn ErrorHandler.

Lemma numeric_app (a b : string) :
  numeric a = true -> numeric b = true -> numeric (a +:+ b) = true.
Proof.
  induction a as [|c a IH]; simpl; [done|]. intros H Hb.
  apply andb_true_iff in H as [-> Ha]. by apply IH.
Qed.

Lemma pretty_N_char_numeric (x : N) : is_numeric (pretty_N_char x) = true.
Proof. unfold pretty_N_char. by repeat case_match. Qed.

Lemma pretty_N_go_numeric (x : N) (s : string) :
  numeric s = true -> numeric (pretty_N_go x s) = true.
Proof.
  revert s. induction (N.lt_wf_0 x) as [x _ IH]; intros s Hs.
  destruct (decide (x = 0%N)) as [->|Hx]; [by rewrite pretty_N_go_0|].
  rewrite pretty_N_go_step by lia. apply IH.
  - apply N.div_lt; lia.
  - simpl. by rewrite pretty_N_char_numeric.
Qed.

Lemma pretty_Z_numeric (z : Z) : numeric (pretty z) = true.
Proof.
  assert (HN : forall n : N, numeric (pretty n) = true).
  { intros n. unfold pretty, pretty_N. case_decide; [done|].
    by apply pretty_N_go_numeric. }
  destruct z as [|p|p]; [done|apply HN|].
  change (pretty (Z.neg p)) with ("-" +:+ pretty (N.pos p)).
  apply numeric_app; [done | apply HN].
Qed.

Lemma lower_app (a b : string) : lower (a +:+ b) = lower a +:+ lower b.
Proof. induction a as [|c a IH]; simpl; [done | by rewrite IH]. Qed.

Lemma lower_ascii_numeric (c : ascii) : is_numeric c = true -> lower_ascii c = c.
Proof.
  unfold is_numeric, lower_ascii. intros H.
  destruct (Nat.leb_spec 65 (nat_of_ascii c)); [|done].
  destruct (Nat.leb_spec (nat_of_ascii c) 90); [|done]. simpl.
  apply orb_true_iff in H as [H|H].
  - apply andb_true_iff in H as [_ H]. apply Nat.leb_le in H. lia.
  - apply Nat.eqb_eq in H. lia.
Qed.

Lemma lower_numeric (d : string) : numeric d = true -> lower d = d.
Proof.
  induction d as [|c d IH]; simpl; [done|]. intros H.
  apply andb_true_iff in H as [Hc Hd]. by rewrite lower_ascii_numeric, IH.
Qed.

Lemma prefix_head_ne (k c : ascii) (kw s : string) :
  k <> c -> String.prefix (String k kw) (String c s) = false.
Proof. intros Hne. simpl. by destruct (Ascii.ascii_dec k c). Qed.

(** A keyword that begins with a letter does not occur in a number
    followed by [tail], unless it occurs in [tail]. *)
Lemma contains_numeric (d tail : string) (k : ascii) (kw : string) :
  numeric d = true -> is_numeric k = false ->
  contains tail (String k kw) = false ->
  contains (d +:+ tail) (String k kw) = false.
Proof.
  intros Hd Hk Htail. induction d as [|c d IH]; [done|].
  simpl in Hd. apply andb_true_iff in Hd as [Hc Hd].
  change (contains (String c d +:+ tail) (String k kw))
    with (String.prefix (String k kw) (String c (d +:+ tail))
          || contains (d +:+ tail) (String k kw)).
  rewrite prefix_head_ne by congruence. by apply IH.
Qed.

Lemma earlier_keywords_numeric (d : string) :
  numeric d = true ->
  Forall (fun kw => contains (d +:+ "s.") kw = false) earlier_keywords.
Proof.
  intros Hd. unfold earlier_keywords. simpl.
  repeat (constructor; [by apply contains_numeric|]). constructor.
Qed.

End CircuitBreakerFacts.

Section CircuitBreakerClassify.
Import Text Exn ErrorHandler.

Lemma classify_circuit_breaker (msg : string) :
  Forall (fun kw => contains (lower msg) kw = false) earlier_keywords ->
  classify (CircuitBreakerOpenError msg) = "circuit_breaker".
Proof.
  intros H. unfold earlier_keywords in H. simpl in H.
  unfold classify, ERROR_CATEGORIES, category_matches. simpl.
  repeat match goal with
         | H : Forall _ (_ :: _) |- _ =>
             apply Forall_cons in H as [-> H]; simpl
         end.
  reflexivity.
Qed.

Lemma open_message_head_skipped :
  Forall (fun kw => forall tail,
            contains (lower open_message_head +:+ tail) kw = contains tail kw)
    earlier_keywords.
Proof. unfold earlier_keywords. simpl. repeat constructor. Qed.

Lemma classify_open_message (us : Z) :
  classify (CircuitBreakerOpenError
              ("Circuit breaker is OPEN. Too many failures. "
               +:+ "Retry after " +:+ format_seconds us +:+ "s."))
  = "circuit_breaker".
Proof.
  apply classify_circuit_breaker.
  assert (Hnum : numeric (format_seconds us) = true) by apply pretty_Z_numeric.
  set (d := format_seconds us) in *.
  change ("Circuit breaker is OPEN. Too many failures. "
          +:+ "Retry after " +:+ d +:+ "s.")
    with (open_message_head +:+ (d +:+ "s.")).
  rewrite lower_app, (lower_app d), (lower_numeric d) by done.
  change (lower "s.") with "s.".
  pose proof open_message_head_skipped as Hskip.
  pose proof (earlier_keywords_numeric d Hnum) as Htail.
  rewrite Forall_forall in *. intros kw Hkw.
  rewrite (Hskip kw Hkw). by apply Htail.
Qed.

Lemma classify_half_open_message :
  classify (CircuitBreakerOpenError
              "Circuit breaker is HALF_OPEN. Test call already in progress.")
  = "circuit_breaker".
Proof. reflexivity. Qed.

End CircuitBreakerClassify.

Section CircuitBreakerMachine.
Import Text Exn ErrorHandler.
Context {A : Type}.

Lemma call_closed_failure (cb : CircuitBreaker) (now : Z) (func : guarded A) :
  state cb = CLOSED -> fails func ->
  (call cb now func).1 = _on_failure cb (failed_at func).
Proof. intros Hs [e He]. unfold call. by rewrite Hs, He. Qed.

Lemma failures_open (calls : list (Z * guarded A)) :
  forall cb : CircuitBreaker,
    state cb = CLOSED -> calls <> [] ->
    Forall (fun c => fails c.2) calls ->
    failure_count cb + Z.of_nat (length calls) = failure_threshold cb ->
    let cb' := calls_in_a_row cb calls in
    state cb' = OPEN
    /\ failure_threshold cb' = failure_threshold cb
    /\ timeout cb' = timeout cb
    /\ half_open_max_calls cb' = half_open_max_calls cb
    /\ exists t, last_failure_time cb' = Some t.
Proof.
  induction calls as [|[now func] rest IH]; intros cb Hs Hne Hall Hn; [done|].
  apply Forall_cons in Hall as [Hf Hall]. simpl in Hf. simpl.
  rewrite call_closed_failure by done.
  set (cb1 := _on_failure cb (failed_at func)).
  assert (Hcount : failure_count cb1 = failure_count cb + 1)
    by (subst cb1; unfold _on_failure; simpl; rewrite Hs; simpl; by case_match).
  assert (Hpar : failure_threshold cb1 = failure_threshold cb
                 /\ timeout cb1 = timeout cb
                 /\ half_open_max_calls cb1 = half_open_max_calls cb)
    by (subst cb1; unfold _on_failure; simpl; rewrite Hs; simpl; by case_match).
  destruct Hpar as (Hp1 & Hp2 & Hp3).
  destruct rest as [|c rest].
  - simpl in *. subst cb1. unfold _on_failure in *. simpl in *. rewrite Hs. simpl.
    destruct (Z.geb_spec (failure_count cb + 1) (failure_threshold cb)); [|lia].
    simpl. eauto 10.
  - assert (Hs1 : state cb1 = CLOSED).
    { subst cb1. unfold _on_failure. simpl. rewrite Hs. simpl.
      simpl in Hn.
      destruct (Z.geb_spec (failure_count cb + 1) (failure_threshold cb)); [lia|done]. }
    destruct (IH cb1) as (H1 & H2 & H3 & H4 & H5); [done|done|done| |].
    + rewrite Hcount, Hp1. simpl in *. lia.
    + split; [done|]. split; [congruence|]. split; [congruence|].
      split; [congruence | done].
Qed.

Lemma call_open_rejected (cb : CircuitBreaker) (now t : Z) (func : guarded A) :
  state cb = OPEN -> last_failure_time cb = Some t -> now - t <= timeout cb ->
  rejected (call cb now func).2 /\ (call cb now func).1 = cb.
Proof.
  intros Hs Ht Hnow. unfold call. rewrite Hs, Ht.
  destruct (Z.gtb_spec (now - t) (timeout cb)); [lia|]. simpl. split; [|done].
  eexists. split; [done|]. split; [done|]. apply classify_open_message.
Qed.

Lemma call_open_expired (cb : CircuitBreaker) (now t : Z) (func : guarded A) :
  1 <= half_open_max_calls cb ->
  state cb = OPEN -> last_failure_time cb = Some t -> timeout cb < now - t ->
  (call cb now func).2 = run_func func
  /\ (forall v, run_func func = Ok v ->
        state (call cb now func).1 = CLOSED
        /\ failure_count (call cb now func).1 = 0)
  /\ (forall e, run_func func = Raise e -> state (call cb now func).1 = OPEN).
Proof.
  intros Hmax Hs Ht Hnow. unfold call. rewrite Hs, Ht.
  destruct (Z.gtb_spec (now - t) (timeout cb)); [|lia]. simpl.
  destruct (Z.geb_spec 0 (half_open_max_calls cb)); [lia|].
  destruct (run_func func) as [v|e]; simpl; (split; [done|]); split; by intros.
Qed.

Lemma call_half_open (cb : CircuitBreaker) (now : Z) (func : guarded A) :
  state cb = HALF_OPEN -> half_open_calls cb < half_open_max_calls cb ->
  (call cb now func).2 = run_func func
  /\ (forall v, run_func func = Ok v ->
        state (call cb now func).1 = CLOSED
        /\ failure_count (call cb now func).1 = 0)
  /\ (forall e, run_func func = Raise e -> state (call cb now func).1 = OPEN).
Proof.
  intros Hs Hcalls. unfold call. rewrite Hs.
  destruct (Z.geb_spec (half_open_calls cb) (half_open_max_calls cb)); [lia|].
  destruct (run_func func) as [v|e]; unfold _on_success, _on_failure; simpl;
    rewrite ?Hs; simpl; (split; [done|]); split; by intros.
Qed.

Lemma call_closed (cb : CircuitBreaker) (now : Z) (func : guarded A) :
  state cb = CLOSED ->
  (call cb now func).2 = run_func func
  /\ settings (call cb now func).1 = settings cb
  /\ (forall v, run_func func = Ok v ->
        state (call cb now func).1 = CLOSED
        /\ failure_count (call cb now func).1 = 0)
  /\ (forall e, run_func func = Raise e ->
        failure_count (call cb now func).1 = failure_count cb + 1
        /\ (failure_count cb + 1 < failure_threshold cb ->
            state (call cb now func).1 = CLOSED)
        /\ (failure_threshold cb <= failure_count cb + 1 ->
            state (call cb now func).1 = OPEN)).
Proof.
  intros Hs. unfold call, settings. rewrite Hs.
  destruct (run_func func) as [v|e]; unfold _on_success, _on_failure; simpl;
    rewrite Hs; simpl.
  - split; [done|]. split; [done|]. split; [by intros|]. by intros.
  - destruct (Z.geb_spec (failure_count cb + 1) (failure_threshold cb));
      simpl; rewrite ?Hs; (split; [done|]); (split; [done|]);
      (split; [by intros|]); intros e' _; (split; [done|]); split; intros;
      (done || lia).
Qed.

Lemma failures_closed (calls : list (Z * guarded A)) :
  forall cb : CircuitBreaker,
    state cb = CLOSED ->
    Forall (fun c => fails c.2) calls ->
    failure_count cb + Z.of_nat (length calls) < failure_threshold cb ->
    state (calls_in_a_row cb calls) = CLOSED
    /\ failure_count (calls_in_a_row cb calls)
       = failure_count cb + Z.of_nat (length calls).
Proof.
  induction calls as [|[now func] rest IH]; intros cb Hs Hall Hn.
  - simpl. split; [done | lia].
  - apply Forall_cons in Hall as [[e He] Hall]. simpl in He.
    destruct (call_closed cb now func Hs) as (_ & Hset & _ & Hfail).
    destruct (Hfail e He) as (Hcount & Hclosed & _).
    cbn [calls_in_a_row]. cbn [length] in Hn.
    unfold settings in Hset. injection Hset as Hth _ _.
    destruct (IH (call cb now func).1) as [H1 H2];
      [apply Hclosed; lia | done | rewrite Hcount, Hth; lia |].
    split; [done|]. rewrite H2, Hcount. cbn [length]. lia.
Qed.

(** C4: with a threshold and a Half-Open allowance of at least one.
    While Closed the breaker runs the function and passes on its value
    or its exception, and keeps its settings; a success leaves it Closed
    with no failure counted, so that only failures in a row add up; a
    failure is counted, and leaves the breaker Closed as long as fewer
    than [failure_threshold] are counted.  From Closed with no failure
    counted, fewer than [failure_threshold] failed calls in a row leave
    the circuit Closed, and [failure_threshold] of them open it; a call
    made then, no later than [timeout] after the last failure, is
    rejected with the exception of the category [circuit_breaker], the
    breaker staying as it is; a call made while Open more than
    [timeout] after the last failure is admitted through Half-Open; a
    success in Half-Open closes the circuit with [failure_count = 0], a
    failure in Half-Open opens it. *)
Theorem circuit_breaker_state_machine (cb : CircuitBreaker) :
  1 <= failure_threshold cb -> 1 <= half_open_max_calls cb ->
  (forall now (func : guarded A),
     state cb = CLOSED ->
     (call cb now func).2 = run_func func
     /\ settings (call cb now func).1 = settings cb
     /\ (forall v, run_func func = Ok v ->
           state (call cb now func).1 = CLOSED
           /\ failure_count (call cb now func).1 = 0)
     /\ (forall e, run_func func = Raise e ->
           failure_count (call cb now func).1 = failure_count cb + 1
           /\ (failure_count cb + 1 < failure_threshold cb ->
               state (call cb now func).1 = CLOSED)
           /\ (failure_threshold cb <= failure_count cb + 1 ->
               state (call cb now func).1 = OPEN)))
  /\ (forall calls : list (Z * guarded A),
        state cb = CLOSED -> failure_count cb = 0 ->
        Z.of_nat (length calls) < failure_threshold cb ->
        Forall (fun c => fails c.2) calls ->
        state (calls_in_a_row cb calls) = CLOSED
        /\ failure_count (calls_in_a_row cb calls) = Z.of_nat (length calls))
  /\ (forall calls : list (Z * guarded A),
        state cb = CLOSED -> failure_count cb = 0 ->
        Z.of_nat (length calls) = failure_threshold cb ->
        Forall (fun c => fails c.2) calls ->
        let cb' := calls_in_a_row cb calls in
        state cb' = OPEN
        /\ exists t, last_failure_time cb' = Some t
           /\ forall now (func : guarded A),
                now - t <= timeout cb ->
                rejected (call cb' now func).2 /\ (call cb' now func).1 = cb')
  /\ (forall now t (func : guarded A),
        state cb = OPEN -> last_failure_time cb = Some t ->
        timeout cb < now - t ->
        (call cb now func).2 = run_func func
        /\ (forall v, run_func func = Ok v ->
              state (call cb now func).1 = CLOSED
              /\ failure_count (call cb now func).1 = 0)
        /\ (forall e, run_func func = Raise e ->
              state (call cb now func).1 = OPEN))
  /\ (forall now (func : guarded A),
        state cb = HALF_OPEN -> half_open_calls cb < half_open_max_calls cb ->
        (call cb now func).2 = run_func func
        /\ (forall v, run_func func = Ok v ->
              state (call cb now func).1 = CLOSED
              /\ failure_count (call cb now func).1 = 0)
        /\ (forall e, run_func func = Raise e ->
              state (call cb now func).1 = OPEN)).
Proof.
  intros Hth Hmax. split; [|split; [|split; [|split]]].
  - intros now func Hs. by apply call_closed.
  - intros calls Hs Hc Hlen Hall.
    destruct (failures_closed calls cb Hs Hall) as [H1 H2]; [lia|].
    split; [done | lia].
  - intros calls Hs Hc Hlen Hall cb'.
    destruct (failures_open calls cb) as (H1 & H2 & H3 & H4 & t & Ht);
      [done | intros ->; simpl in Hlen; lia | done | lia |].
    fold cb' in H1, H2, H3, H4, Ht. split; [done|]. exists t. split; [done|].
    intros now func Hnow. apply (call_open_rejected cb' now t); [done|done|].
    by rewrite H3.
  - intros now t func Hs Ht Hnow. by apply (call_open_expired cb now t).
  - intros now func Hs Hcalls. by apply call_half_open.
Qed.

End CircuitBreakerMachine.

Lemma circuit_breaker_state_machine_witness :
  let cb := ErrorHandler.new_breaker 2 300000000 1 in
  let failing : Z * ErrorHandler.guarded unit :=
    (0, {| ErrorHandler.run_func :=
             Exn.Raise {| Exn.exn_type := "DatabaseError"; Exn.exn_msg := "down" |};
           ErrorHandler.failed_at := 1 |}) in
  ErrorHandler.state (ErrorHandler.calls_in_a_row cb [failing])
  = ErrorHandler.CLOSED
  /\ ErrorHandler.state (ErrorHandler.calls_in_a_row cb [failing; failing])
     = ErrorHandler.OPEN.
Proof.
  intros cb failing.
  assert (H1 : 1 <= ErrorHandler.failure_threshold cb) by (simpl; lia).
  assert (H2 : 1 <= ErrorHandler.half_open_max_calls cb) by (simpl; lia).
  destruct (circuit_breaker_state_machine (A:=unit) cb H1 H2)
    as (_ & Hclosed & Hopen & _).
  split.
  - apply (Hclosed [failing]); [reflexivity | reflexivity | simpl; lia |].
    repeat constructor; by eexists.
  - apply (Hopen [failing; failing]); [reflexivity | reflexivity | reflexivity |].
    repeat constructor; by eexists.
Defined.

(** ** Retry of a batch *)

Section RetryFacts.
Import Text Exn BatchEmbedder.

(** The state of the loop when it is about to make the attempt number
    [attempts]: all earlier attempts failed with a rate-limit error and
    were followed by the waits [2^1, 2^2, ...]. *)
Lemma retry_loop_spec (max_retries : Z)
    (service : nat -> result (list (option embedding))) :
  forall (fuel : nat) (n : nat),
    Z.of_nat n <= max_retries ->
    max_retries - Z.of_nat n < Z.of_nat fuel ->
    (forall i, (i < n)%nat ->
       exists e, service i = Raise e /\ _is_rate_limit_error e = true) ->
    exists r,
      retry_loop fuel max_retries service (Z.of_nat n) n (backoff n) = Some r
      /\ (n < attempts r)%nat
      /\ Z.of_nat (attempts r) <= max_retries + 1
      /\ sleeps r = backoff (attempts r - 1)
      /\ (forall i, (i < attempts r - 1)%nat ->
            exists e, service i = Raise e /\ _is_rate_limit_error e = true)
      /\ match service (attempts r - 1)%nat with
         | Ok vectors => outcome r = Ok (Some vectors)
         | Raise e =>
             outcome r = Raise e
             /\ (_is_rate_limit_error e = false
                 \/ Z.of_nat (attempts r) = max_retries + 1)
         end.
Proof.
  induction fuel as [|fuel IH]; intros n Hn Hfuel Hprev; [lia|].
  simpl. destruct (Z.leb_spec (Z.of_nat n) max_retries); [|lia].
  destruct (service n) as [vectors|e] eqn:Hsvc.
  - eexists. split; [done|]. simpl. replace (n - 0)%nat with n by lia.
    rewrite Hsvc. repeat split; try done; try lia.
  - destruct (Z.gtb_spec (Z.of_nat n + 1) max_retries).
    + eexists. split; [done|]. simpl. replace (n - 0)%nat with n by lia.
      rewrite Hsvc. repeat split; try done; try lia.
    + destruct (_is_rate_limit_error e) eqn:Hrl.
      * replace (Z.of_nat n + 1) with (Z.of_nat (S n)) by lia.
        replace (backoff n ++ [2 ^ Z.of_nat (S n)]) with (backoff (S n)).
        2:{ unfold backoff. rewrite seq_S, fmap_app. simpl.
            by replace (1 + n)%nat with (S n) by lia. }
        destruct (IH (S n)) as (r & Hr & H1 & H2 & H3 & H4 & H5); [lia|lia| |].
        { intros i Hi. destruct (decide (i = n)) as [->|]; [eauto|].
          apply Hprev. lia. }
        exists r. repeat split; try done; try lia.
      * eexists. split; [done|]. simpl. replace (n - 0)%nat with n by lia.
        rewrite Hsvc. repeat split; try done; try lia. by left.
Qed.

End RetryFacts.

Section RetryPolicy.
Import Text Exn BatchEmbedder.

(** C3, as the code has it: a batch is attempted at most
    [max_retries + 1] times; a failed attempt that leaves a retry in the
    budget is followed by another one exactly when the message of the
    failure holds one of the rate-limit indicators, after a wait of
    [2^n] seconds for the [n]-th failure; any other failure is raised at
    once. *)
Theorem embed_batch_with_retry_policy (max_retries : Z)
    (service : nat -> result (list (option embedding))) :
  0 <= max_retries ->
  exists r,
    _embed_batch_with_retry (S (Z.to_nat max_retries)) max_retries service = Some r
    /\ (1 <= attempts r)%nat
    /\ Z.of_nat (attempts r) <= max_retries + 1
    /\ sleeps r = backoff (attempts r - 1)
    /\ retries_exactly_when _is_rate_limit_error max_retries service r
    /\ outcome r = match service (attempts r - 1)%nat with
                   | Ok vectors => Ok (Some vectors)
                   | Raise e => Raise e
                   end.
Proof.
  intros Hmax.
  destruct (retry_loop_spec max_retries service (S (Z.to_nat max_retries)) 0)
    as (r & Hr & H1 & H2 & H3 & H4 & H5); [lia | lia | intros i Hi; lia |].
  exists r. split; [exact Hr|]. split; [lia|]. split; [done|]. split; [done|].
  split.
  - intros i e Hi Hsvc Hbudget. split.
    + intros Hrl. destruct (decide (S i < attempts r)%nat) as [|Hlast]; [done|].
      replace (attempts r - 1)%nat with i in H5 by lia.
      rewrite Hsvc in H5. destruct H5 as [_ [Hno|Hfull]]; [congruence | lia].
    + intros Hnext. destruct (H4 i) as (e' & He' & Hrl); [lia|]. congruence.
  - destruct (service (attempts r - 1)%nat); [done | by destruct H5].
Qed.

Lemma embed_batch_with_retry_policy_witness :
  exists r,
    _embed_batch_with_retry 4 3
      (fun k => match k with
                | O => Raise {| exn_type := "APIError"; exn_msg := "429 Too Many Requests" |}
                | _ => Ok [Some [1%Q]]
                end) = Some r
    /\ attempts r = 2%nat /\ sleeps r = [2].
Proof.
  destruct (embed_batch_with_retry_policy 3
              (fun k => match k with
                        | O => Raise {| exn_type := "APIError";
                                        exn_msg := "429 Too Many Requests" |}
                        | _ => Ok [Some [1%Q]]
                        end)) as (r & Hr & _); [lia|].
  exists r. split; [exact Hr|].
  vm_compute in Hr. injection Hr as <-. split; reflexivity.
Defined.

(** C3, as the specification words it, fails: a refused connection is
    classified [network], which is retryable, and yet the batch is not
    attempted again. *)
Lemma retryable_failure_not_retried :
  let refused := {| exn_type := "ConnectionError"; exn_msg := "Connection refused" |} in
  ErrorHandler.classify refused = "network"
  /\ ErrorHandler.is_retryable "network" = true
  /\ exists r,
       _embed_batch_with_retry 4 3 (fun _ => Raise refused) = Some r
       /\ attempts r = 1%nat
       /\ ~ spec_retry_policy 3 (fun _ => Raise refused) r.
Proof.
  intros refused. split; [reflexivity|]. split; [reflexivity|].
  eexists. split; [reflexivity|]. split; [reflexivity|].
  intros Hspec. specialize (Hspec 0%nat refused).
  simpl in Hspec. destruct Hspec as [Hretry _]; [lia | done | lia |].
  assert (1 < 1)%nat by (apply Hretry; reflexivity). lia.
Qed.

End RetryPolicy.

(** ** Categorisation of the changes *)

Section CategorizeFacts.
Import Text Exn SyncEngine.

Lemma categorize_loop_spec (env : environment) (db : Db) (source : string)
    (file_paths : list string) :
  forall (acc ch : changes),
    categorize_loop env db source file_paths acc = Ok ch ->
    forall file,
      (file ∈ deleted_files ch <->
         file ∈ deleted_files acc \/ (file ∈ file_paths /\ is_deleted env file))
      /\ (file ∈ added_files ch <->
            file ∈ added_files acc
            \/ (file ∈ file_paths /\ is_added env db source file))
      /\ (file ∈ modified_files ch <->
            file ∈ modified_files acc
            \/ (file ∈ file_paths /\ is_modified env db source file)).
Proof.
  induction file_paths as [|f rest IH]; intros acc ch Hrun file.
  - simpl in Hrun. injection Hrun as <-. rewrite !elem_of_nil. tauto.
  - simpl in Hrun.
    assert (Hcase :
      forall acc',
        categorize_loop env db source rest acc' = Ok ch ->
        (file ∈ deleted_files acc' <->
           file ∈ deleted_files acc \/ (file = f /\ is_deleted env f)) ->
        (file ∈ added_files acc' <->
           file ∈ added_files acc \/ (file = f /\ is_added env db source f)) ->
        (file ∈ modified_files acc' <->
           file ∈ modified_files acc \/ (file = f /\ is_modified env db source f)) ->
        (file ∈ deleted_files ch <->
           file ∈ deleted_files acc
           \/ (file ∈ f :: rest /\ is_deleted env file))
        /\ (file ∈ added_files ch <->
              file ∈ added_files acc
              \/ (file ∈ f :: rest /\ is_added env db source file))
        /\ (file ∈ modified_files ch <->
              file ∈ modified_files acc
              \/ (file ∈ f :: rest /\ is_modified env db source file))).
    { intros acc' Hrun' H1 H2 H3.
      destruct (IH acc' ch Hrun' file) as (Hd & Ha & Hm).
      rewrite Hd, Ha, Hm, H1, H2, H3, !elem_of_cons.
      destruct (decide (file = f)) as [->|Hne]; tauto. }
    unfold is_deleted, is_added, is_modified in Hcase.
    destruct (os_path_exists env f) eqn:Hex; simpl in Hrun.
    + destruct (_get_chunks_for_file db source f) as [|r rs] eqn:Hrows.
      * apply (Hcase _ Hrun); simpl; rewrite ?elem_of_app, ?elem_of_cons, ?elem_of_nil.
        -- split; [tauto|]. intros [?|[_ ?]]; [done|congruence].
        -- split; [tauto|]. intros [?|[? _]]; tauto.
        -- split; [tauto|]. intros [?|[_ (_ & ? & _)]]; [done|congruence].
      * destruct (compute_file_hash env f) as [h|e] eqn:Hhash; [|done].
        case_decide as Hne.
        -- apply (Hcase _ Hrun); simpl;
             rewrite ?elem_of_app, ?elem_of_cons, ?elem_of_nil.
           ++ split; [tauto|]. intros [?|[_ ?]]; [done|congruence].
           ++ split; [tauto|]. intros [?|[_ [_ ?]]]; [done|congruence].
           ++ split; [|intros [?|[? _]]; tauto].
              intros [?|[?|[]]]; [tauto|]. right. split; [done|].
              split; [done|]. split; [done|]. by exists h.
        -- apply (Hcase _ Hrun); simpl.
           ++ split; [tauto|]. intros [?|[_ ?]]; [done|congruence].
           ++ split; [tauto|]. intros [?|[_ [_ ?]]]; [done|congruence].
           ++ split; [tauto|]. intros [?|[_ (_ & _ & h' & Hh' & Hne')]]; [done|].
              exfalso. apply Hne'. simpl in *. congruence.
    + apply (Hcase _ Hrun); simpl; rewrite ?elem_of_app, ?elem_of_cons, ?elem_of_nil.
      * split; [|intros [?|[? _]]; tauto]. intros [?|[?|[]]]; tauto.
      * split; [tauto|]. intros [?|[_ [? _]]]; [done|congruence].
      * split; [tauto|]. intros [?|[_ [? _]]]; [done|congruence].
Qed.

Lemma categorize_loop_total (env : environment) (db : Db) (source : string)
    (file_paths : list string) :
  (forall file, file ∈ file_paths -> exists h, compute_file_hash env file = Ok h) ->
  forall acc, exists ch, categorize_loop env db source file_paths acc = Ok ch.
Proof.
  induction file_paths as [|f rest IH]; intros Hhash acc; [by eexists|].
  simpl. assert (Hrest : forall file, file ∈ rest ->
                   exists h, compute_file_hash env file = Ok h)
    by (intros; apply Hhash; set_solver).
  destruct (os_path_exists env f); simpl; [|by apply IH].
  destruct (_get_chunks_for_file db source f); [by apply IH|].
  destruct (Hhash f) as [h ->]; [set_solver|]. case_decide; by apply IH.
Qed.

End CategorizeFacts.

Section CategorizePolicy.
Import Text Exn SyncEngine.

(** C5, as the code has it: a candidate is classified deleted exactly
    when its path does not exist on disk, whether or not the store has
    chunks of it; added exactly when the path exists and the store has
    no chunk of it; modified exactly when the path exists, the store has
    chunks of it and the hash of the file on disk differs from the
    [file_hash] of the first of them; every other candidate is dropped.
    The categorisation fails only if a file cannot be hashed. *)
Theorem categorize_changes_spec (env : environment) (db : Db) (source : string)
    (file_paths : list string) :
  (forall ch, _categorize_changes env db source file_paths = Ok ch ->
     forall file,
       (file ∈ deleted_files ch <-> file ∈ file_paths /\ is_deleted env file)
       /\ (file ∈ added_files ch <->
             file ∈ file_paths /\ is_added env db source file)
       /\ (file ∈ modified_files ch <->
             file ∈ file_paths /\ is_modified env db source file))
  /\ ((forall file, file ∈ file_paths ->
         exists h, compute_file_hash env file = Ok h) ->
      exists ch, _categorize_changes env db source file_paths = Ok ch).
Proof.
  split.
  - intros ch Hrun file.
    destruct (categorize_loop_spec env db source file_paths _ ch Hrun file)
      as (Hd & Ha & Hm).
    simpl in *. rewrite Hd, Ha, Hm, elem_of_nil. tauto.
  - intros Hhash. by apply categorize_loop_total.
Qed.

Lemma categorize_changes_spec_witness :
  exists ch, _categorize_changes no_disk empty_db "src" ["/p/gone.py"] = Ok ch
             /\ "/p/gone.py" ∈ deleted_files ch.
Proof.
  destruct (categorize_changes_spec no_disk empty_db "src" ["/p/gone.py"])
    as [Hspec _].
  eexists. split; [reflexivity|].
  destruct (Hspec _ eq_refl "/p/gone.py") as (Hdeleted & _ & _).
  apply Hdeleted. split; [apply list_elem_of_singleton | ]; reflexivity.
Defined.

(** C5, as the specification words it, fails: a path that is neither on
    disk nor in the store is classified deleted. *)
Lemma deleted_without_chunks :
  exists ch, _categorize_changes no_disk empty_db "src" ["/p/gone.py"] = Ok ch
             /\ "/p/gone.py" ∈ deleted_files ch
             /\ ~ spec_is_deleted no_disk empty_db "src" "/p/gone.py".
Proof.
  eexists. split; [reflexivity|]. split; [by apply list_elem_of_singleton|].
  intros [_ Hrows]. by apply Hrows.
Qed.

End CategorizePolicy.

(** ** The chunk-level diff *)

Section ChunkDiffFacts.
Import Text Exn SyncEngine.
Context {A : Type} (hash : A -> option string).

Lemma by_hash_snoc (l : list A) (c : A) :
  by_hash hash (l ++ [c])
  = match hash c with
    | Some h => <[h := c]> (by_hash hash l)
    | None => by_hash hash l
    end.
Proof. unfold by_hash. by rewrite foldl_app. Qed.

Lemma last_with_hash_snoc (h : string) (l : list A) (c : A) :
  last_with_hash hash h (l ++ [c])
  = if decide (hash c = Some h) then Some c else last_with_hash hash h l.
Proof.
  unfold last_with_hash. rewrite filter_app, filter_cons, filter_nil.
  case_decide; [by rewrite last_snoc | by rewrite app_nil_r].
Qed.

Lemma by_hash_lookup (l : list A) (h : string) :
  by_hash hash l !! h = last_with_hash hash h l.
Proof.
  induction l as [|c l IH] using rev_ind; [done|].
  rewrite by_hash_snoc, last_with_hash_snoc.
  destruct (hash c) as [h'|] eqn:Hc.
  - destruct (decide (h' = h)) as [->|Hne].
    + rewrite lookup_insert_eq. by rewrite decide_True.
    + rewrite lookup_insert_ne by done. rewrite decide_False by congruence. done.
  - by rewrite decide_False.
Qed.

Lemma last_with_hash_Some (l : list A) (h : string) (c : A) :
  last_with_hash hash h l = Some c -> c ∈ l /\ hash c = Some h.
Proof.
  unfold last_with_hash. intros Hlast. apply last_Some_elem_of in Hlast.
  apply list_elem_of_filter in Hlast. tauto.
Qed.

Lemma last_with_hash_is_Some (l : list A) (h : string) :
  is_Some (last_with_hash hash h l) <-> h ∈ hashes hash l.
Proof.
  unfold last_with_hash, hashes. rewrite last_is_Some, elem_of_list_to_set,
    list_elem_of_omap. split.
  - intros Hne. destruct (filter _ l) as [|c l'] eqn:E; [done|].
    assert (Hc : c ∈ filter (fun c => hash c = Some h) l) by (rewrite E; by left).
    apply list_elem_of_filter in Hc. exists c. tauto.
  - intros (c & Hc & Hh) E.
    assert (Hin : c ∈ filter (fun c => hash c = Some h) l)
      by (by apply list_elem_of_filter).
    rewrite E in Hin. by apply elem_of_nil in Hin.
Qed.

Lemma dom_by_hash (l : list A) : dom (by_hash hash l) = hashes hash l.
Proof.
  apply set_eq. intros h.
  by rewrite elem_of_dom, by_hash_lookup, last_with_hash_is_Some.
Qed.

End ChunkDiffFacts.

Section OmapFacts.
Context {A B : Type}.

Lemma length_omap_total (f : A -> option B) (l : list A) :
  (forall x, x ∈ l -> is_Some (f x)) -> length (omap f l) = length l.
Proof.
  induction l as [|x l IH]; intros Hall; [done|]. simpl.
  destruct (Hall x) as [y ->]; [by left|]. simpl. f_equal.
  apply IH. intros x' Hx'. apply Hall. by right.
Qed.

Lemma NoDup_fmap_eq (f : A -> B) (l : list A) (x y : A) :
  NoDup (f <$> l) -> x ∈ l -> y ∈ l -> f x = f y -> x = y.
Proof.
  induction l as [|a l IH]; intros Hnd Hx Hy Hf; [by apply elem_of_nil in Hx|].
  rewrite fmap_cons in Hnd. apply NoDup_cons in Hnd as [Hnotin Hnd].
  apply elem_of_cons in Hx as [->|Hx]; apply elem_of_cons in Hy as [->|Hy].
  - done.
  - exfalso. apply Hnotin. rewrite Hf. by apply list_elem_of_fmap_2.
  - exfalso. apply Hnotin. rewrite <- Hf. by apply list_elem_of_fmap_2.
  - by apply IH.
Qed.

End OmapFacts.

Section ChunkDiff.
Import Text Exn SyncEngine.

Lemma delete_chunks_spec (db : Db) (chunk_ids : list string) (r : Row) :
  r ∈ knowledge_chunks (_delete_chunks db chunk_ids)
  <-> r ∈ knowledge_chunks db /\ id r ∉ chunk_ids.
Proof.
  destruct chunk_ids as [|i ids]; cbn -[existsb].
  - rewrite elem_of_nil. tauto.
  - split.
    + intros Hin. apply list_elem_of_In, filter_In in Hin as [Hin Hno].
      split; [by apply list_elem_of_In|]. intros Hid.
      apply negb_true_iff in Hno.
      assert (Hex : existsb (String.eqb (id r)) (i :: ids) = true).
      { apply existsb_exists. exists (id r).
        split; [by apply list_elem_of_In | apply String.eqb_refl]. }
      congruence.
    + intros [Hin Hno]. apply list_elem_of_In, filter_In.
      split; [by apply list_elem_of_In|]. apply negb_true_iff.
      destruct (existsb (String.eqb (id r)) (i :: ids)) eqn:Hex; [|done].
      apply existsb_exists in Hex as (x & Hx & Heq).
      apply String.eqb_eq in Heq. subst x.
      exfalso. by apply Hno, list_elem_of_In.
Qed.

Lemma truthy_hash_Some (x : option string) (h : string) :
  truthy_hash x = Some h -> x = Some h.
Proof. destruct x as [[|c x]|]; simpl; congruence. Qed.

(** C1, as the code has it.  When the old chunks of the file carry
    pairwise distinct, non-empty hashes, the diff deletes exactly the
    old chunks whose hash does not occur among the hashes of the new
    ones; in every case it deletes no other chunk.  For every non-empty
    hash that occurs among the new chunks and not among the old ones it
    adds one new chunk, the last with that hash; chunks whose hash
    occurs on both sides are neither deleted nor added, and the deletion
    leaves in the store exactly the rows it does not name;
    [chunks_modified] grows by the number of additions and
    [chunks_deleted] by the number of deletions. *)
Theorem compute_chunk_diff_spec (old_chunks : list Row) (new_chunks : list Chunk) :
  let to_delete := (_compute_chunk_diff old_chunks new_chunks).1 in
  let to_add := (_compute_chunk_diff old_chunks new_chunks).2 in
  let old_hashes := hashes row_hash old_chunks in
  let new_hashes := hashes new_hash new_chunks in
  (Forall (fun r => is_Some (row_hash r)) old_chunks ->
   NoDup (row_hash <$> old_chunks) ->
   spec_deletes old_chunks new_chunks to_delete)
  /\ (forall i, i ∈ to_delete ->
        exists r h, r ∈ old_chunks /\ id r = i /\ row_hash r = Some h
                    /\ (h ∉ new_hashes))
  /\ (forall c, c ∈ to_add <->
        exists h, h ∈ new_hashes /\ (h ∉ old_hashes)
                  /\ last_with_hash new_hash h new_chunks = Some c)
  /\ length to_add = size (new_hashes ∖ old_hashes)
  /\ (NoDup (id <$> old_chunks) ->
      forall r h, r ∈ old_chunks -> row_hash r = Some h -> h ∈ new_hashes ->
                  id r ∉ to_delete)
  /\ (forall c h, c ∈ new_chunks -> new_hash c = Some h -> h ∈ old_hashes ->
                  c ∉ to_add)
  /\ (forall db r,
        r ∈ knowledge_chunks (_delete_chunks db to_delete)
        <-> r ∈ knowledge_chunks db /\ id r ∉ to_delete)
  /\ (forall db stats file,
        let st := aggregate_modified (db, stats)
                    {| result_file_path := file; success := true;
                       result := Some (to_delete, to_add); error := None |} in
        st.1 = _insert_chunks (_delete_chunks db to_delete) to_add
        /\ chunks_modified st.2 = chunks_modified stats + Z.of_nat (length to_add)
        /\ chunks_deleted st.2 = chunks_deleted stats + Z.of_nat (length to_delete)).
Proof.
  intros to_delete to_add old_hashes new_hashes.
  assert (Hdel : forall i, i ∈ to_delete <->
     exists h r, h ∈ old_hashes /\ (h ∉ new_hashes)
                 /\ last_with_hash row_hash h old_chunks = Some r /\ id r = i).
  { intros i. subst to_delete. unfold _compute_chunk_diff. simpl.
    rewrite list_elem_of_omap. setoid_rewrite elem_of_elements.
    setoid_rewrite elem_of_difference. rewrite !dom_by_hash.
    setoid_rewrite by_hash_lookup. split.
    - intros (h & [Ho Hn] & Hid).
      destruct (last_with_hash row_hash h old_chunks) as [r|] eqn:Hr; [|done].
      simpl in Hid. injection Hid as <-. by exists h, r.
    - intros (h & r & Ho & Hn & Hr & <-). exists h. rewrite Hr. done. }
  assert (Hadd : forall c, c ∈ to_add <->
     exists h, h ∈ new_hashes /\ (h ∉ old_hashes)
               /\ last_with_hash new_hash h new_chunks = Some c).
  { intros c. subst to_add. unfold _compute_chunk_diff. simpl.
    rewrite list_elem_of_omap. setoid_rewrite elem_of_elements.
    setoid_rewrite elem_of_difference. rewrite !dom_by_hash.
    setoid_rewrite by_hash_lookup. split.
    - intros (h & [Hn Ho] & Hc). by exists h.
    - intros (h & Hn & Ho & Hc). by exists h. }
  assert (Hnew : forall h,
            h ∈ new_hashes <-> exists c, c ∈ new_chunks /\ new_hash c = Some h).
  { intros h. subst new_hashes. unfold hashes.
    by rewrite elem_of_list_to_set, list_elem_of_omap. }
  assert (Hold : forall h,
            h ∈ old_hashes <-> exists r, r ∈ old_chunks /\ row_hash r = Some h).
  { intros h. subst old_hashes. unfold hashes.
    by rewrite elem_of_list_to_set, list_elem_of_omap. }
  split; [|split; [|split; [exact Hadd|split]]].
  - intros Htruthy Hnd i. rewrite Hdel. split.
    + intros (h & r & _ & Hno & Hlast & Hid).
      apply last_with_hash_Some in Hlast as [Hr Hh].
      exists r. split; [done|]. split; [done|]. intros Hin.
      apply list_elem_of_fmap in Hin as (c & Heq & Hc).
      apply Hno, Hnew. exists c. split; [done|].
      unfold new_hash. rewrite <- Heq. exact Hh.
    + intros (r & Hr & Hid & Hno).
      rewrite Forall_forall in Htruthy. destruct (Htruthy r Hr) as [h Hh].
      assert (Hnot : h ∉ new_hashes).
      { intros Hin. apply Hnew in Hin as (c & Hc & Hch). apply Hno.
        apply list_elem_of_fmap. exists c. split; [|done].
        apply truthy_hash_Some in Hh. apply truthy_hash_Some in Hch. congruence. }
      destruct (proj2 (last_with_hash_is_Some row_hash old_chunks h)) as [r' Hlast];
        [apply Hold; by exists r|].
      exists h, r'. split; [apply Hold; by exists r|]. split; [done|].
      split; [done|].
      apply last_with_hash_Some in Hlast as [Hr' Hh'].
      assert (r' = r) as -> by (apply (NoDup_fmap_eq row_hash old_chunks);
                                [done|done|done|congruence]).
      done.
  - intros i Hi. apply Hdel in Hi as (h & r & _ & Hno & Hlast & Hid).
    apply last_with_hash_Some in Hlast as [Hr Hh]. by exists r, h.
  - subst to_add. unfold _compute_chunk_diff. simpl.
    rewrite length_omap_total; [by rewrite !dom_by_hash|].
    intros h Hh. apply elem_of_elements, elem_of_difference in Hh as [Hh _].
    by apply elem_of_dom in Hh.
  - split; [|split; [|split]].
    + intros Hnd r h Hr Hh Hin' Hin.
      apply Hdel in Hin as (h' & r' & _ & Hno & Hlast & Hid).
      apply last_with_hash_Some in Hlast as [Hr' Hh'].
      assert (r' = r) as -> by (by apply (NoDup_fmap_eq id old_chunks)).
      congruence.
    + intros c h Hc Hh Hin' Hin. apply Hadd in Hin as (h' & _ & Hno & Hlast).
      apply last_with_hash_Some in Hlast as [_ Hh']. congruence.
    + intros db r. apply delete_chunks_spec.
    + intros db stats file. simpl. done.
Qed.

Lemma compute_chunk_diff_spec_witness :
  let old_chunks := [ {| id := "id-1"; chunk := sample_chunk "h1" 0 |};
                      {| id := "id-2"; chunk := sample_chunk "h2" 1 |} ] in
  let new_chunks := [ sample_chunk "h1" 0; sample_chunk "h3" 1 ] in
  spec_deletes old_chunks new_chunks (_compute_chunk_diff old_chunks new_chunks).1.
Proof.
  intros old_chunks new_chunks.
  destruct (compute_chunk_diff_spec old_chunks new_chunks) as (Hdeletes & _).
  apply Hdeletes.
  - repeat constructor; by eexists.
  - simpl. apply NoDup_cons. split; [|apply NoDup_singleton].
    rewrite list_elem_of_singleton. discriminate.
Defined.

(** C1, as the specification words it, fails: of two new chunks with
    the same body, hence the same hash, only one is added, although the
    hash of neither occurs among the old chunks. *)
Lemma equal_bodies_added_once :
  let new_chunks := [ sample_chunk "h" 0; sample_chunk "h" 1 ] in
  (_compute_chunk_diff [] new_chunks).2 = [ sample_chunk "h" 1 ]
  /\ ~ spec_adds [] new_chunks (_compute_chunk_diff [] new_chunks).2.
Proof.
  intros new_chunks.
  assert (E : (_compute_chunk_diff [] new_chunks).2 = [ sample_chunk "h" 1 ])
    by (vm_compute; reflexivity).
  split; [exact E|]. rewrite E. intros Hspec.
  destruct (Hspec (sample_chunk "h" 0)) as [_ Hin].
  assert (Hadded : sample_chunk "h" 0 ∈ [ sample_chunk "h" 1 ]).
  { apply Hin. split; [left | apply not_elem_of_nil]. }
  apply list_elem_of_singleton in Hadded. discriminate Hadded.
Qed.

End ChunkDiff.

(** ** The debouncer *)

Section DebouncerFacts.
Import Debouncer.

Lemma filter_none {A} (P : A -> Prop) `{forall x, Decision (P x)} (l : list A) :
  Forall (fun x => ~ P x) l -> filter P l = [].
Proof.
  induction 1 as [|x l Hx _ IH]; [done|]. by rewrite filter_cons_False.
Qed.

(** A bucket whose events are filed under their own paths holds, for
    the file [f], the one event filed under [f]. *)
Lemma entries_for_bucket (bucket : gmap string FileEvent) (f : string) (e : FileEvent) :
  (forall k v, bucket !! k = Some v -> file_path v = k) ->
  bucket !! f = Some e ->
  entries_for f (map_to_list bucket).*2 = [e].
Proof.
  intros Hkeys He. apply Permutation_singleton_r. unfold entries_for.
  rewrite <- (map_to_list_delete bucket f e He). rewrite fmap_cons. simpl.
  rewrite filter_cons_True by (by apply Hkeys).
  rewrite filter_none; [done|].
  apply Forall_forall. intros v Hv.
  apply list_elem_of_fmap in Hv as ([k v'] & -> & Hkv). simpl.
  apply elem_of_map_to_list in Hkv.
  apply lookup_delete_Some in Hkv as [Hne Hkv]. apply Hkeys in Hkv. congruence.
Qed.

(** When no two events of the list are for the same file,
    [_deduplicate_events] gives them all back. *)
Lemma dedup_map_to_list (events : list FileEvent) :
  NoDup (file_path <$> events) ->
  map_to_list (foldl dedup_step ∅ events)
  ≡ₚ (fun e => (file_path e, e)) <$> events.
Proof.
  induction events as [|e events IH] using rev_ind; intros Hnd.
  - simpl. by rewrite map_to_list_empty.
  - rewrite fmap_app in Hnd. apply NoDup_app in Hnd as (Hnd & Hfresh & _).
    specialize (IH Hnd). rewrite foldl_app, fmap_app. simpl.
    assert (Hnone : foldl dedup_step ∅ events !! file_path e = None).
    { destruct (foldl dedup_step ∅ events !! file_path e) as [v|] eqn:Hv; [|done].
      exfalso. apply elem_of_map_to_list in Hv. rewrite IH in Hv.
      apply list_elem_of_fmap in Hv as (e' & Heq & He'). injection Heq as Hp ->.
      apply (Hfresh (file_path e)); [|simpl; by left].
      rewrite Hp. by apply list_elem_of_fmap_2. }
    unfold dedup_step at 1. rewrite Hnone.
    rewrite map_to_list_insert by done. rewrite IH.
    by rewrite Permutation_cons_append.
Qed.

Lemma deduplicate_events_bucket (bucket : gmap string FileEvent) :
  (forall k v, bucket !! k = Some v -> file_path v = k) ->
  _deduplicate_events (map_to_list bucket).*2 ≡ₚ (map_to_list bucket).*2.
Proof.
  intros Hkeys. unfold _deduplicate_events.
  assert (Hpaths : file_path <$> (map_to_list bucket).*2 = (map_to_list bucket).*1).
  { rewrite <- list_fmap_compose. apply list_fmap_ext.
    intros i [k v] Hi. simpl. apply Hkeys, elem_of_map_to_list.
    by eapply list_elem_of_lookup_2. }
  rewrite dedup_map_to_list by (rewrite Hpaths; apply NoDup_fst_map_to_list).
  rewrite <- list_fmap_compose. by rewrite list_fmap_id.
Qed.

Lemma flush_entries (d : DebouncerService) (p f : string)
    (bucket : gmap string FileEvent) (e : FileEvent) :
  pending_events d !! p = Some bucket ->
  (forall k v, bucket !! k = Some v -> file_path v = k) ->
  bucket !! f = Some e ->
  entries_for f (flush d p).2 = [e].
Proof.
  intros Hp Hkeys He. unfold flush, _flush_project. rewrite Hp.
  case_decide as Hempty; [by rewrite Hempty in He|]. simpl.
  apply Permutation_singleton_r. unfold entries_for.
  rewrite deduplicate_events_bucket by done.
  apply Permutation_singleton_r. by apply entries_for_bucket.
Qed.

End DebouncerFacts.

Section DebouncerCoalescing.
Import Debouncer.

Lemma make_event_to_data (e : FileEvent) : make_event (to_data e) = Some e.
Proof. by destruct e. Qed.

(** Adding an event that does not fill the batch files it under its
    path and flushes nothing. *)
Lemma add_event_pending (d : DebouncerService) (e : FileEvent) :
  Z.of_nat (pending_with d (project_id e) (file_path e)) < max_batch_size d ->
  exists d1,
    add_event d (to_data e) = (d1, None)
    /\ max_batch_size d1 = max_batch_size d
    /\ pending_events d1
       = <[project_id e :=
             <[file_path e := e]> (default ∅ (pending_events d !! project_id e))]>
           (pending_events d).
Proof.
  intros Hsize. unfold add_event. rewrite make_event_to_data. cbv zeta.
  set (bucket := <[file_path e := e]> (default ∅ (pending_events d !! project_id e))).
  assert (Hs : size bucket = pending_with d (project_id e) (file_path e)).
  { unfold pending_with, bucket. by rewrite <- size_dom, dom_insert_L. }
  rewrite Hs.
  destruct (Z.geb_spec (Z.of_nat (pending_with d (project_id e) (file_path e)))
              (max_batch_size d)) as [|_]; [lia|].
  by eexists.
Qed.

Lemma coalesce (p f : string) (events : list FileEvent) :
  Forall (fun e => project_id e = p /\ file_path e = f) events ->
  forall (d : DebouncerService) (last_event : FileEvent),
    consistent d ->
    Z.of_nat (pending_with d p f) < max_batch_size d ->
    last events = Some last_event ->
    exists bucket,
      (add_events d events).2 = []
      /\ pending_events (add_events d events).1 !! p = Some bucket
      /\ bucket !! f = Some last_event
      /\ (forall k v, bucket !! k = Some v -> file_path v = k).
Proof.
  induction 1 as [|e events [Hp Hf] Hall IH]; intros d last_event Hcons Hsize Hlast;
    [done|].
  destruct (add_event_pending d e) as (d1 & Hadd & Hmax & Hpend);
    [by rewrite Hp, Hf|].
  simpl. rewrite Hadd. rewrite Hp, Hf in Hpend.
  set (bucket := <[f := e]> (default ∅ (pending_events d !! p))) in *.
  assert (Hkeys : forall k v, bucket !! k = Some v -> file_path v = k).
  { intros k v. unfold bucket. rewrite lookup_insert.
    case_decide as Hk; [intros [= <-]; congruence|].
    destruct (pending_events d !! p) as [b|] eqn:Hb; simpl;
      [by apply (Hcons p b)|].
    by rewrite lookup_empty. }
  assert (Hcons1 : consistent d1).
  { intros q b k v Hq. rewrite Hpend, lookup_insert in Hq.
    case_decide; [injection Hq as <-; apply Hkeys|]. by apply (Hcons q b). }
  assert (Hsize1 : Z.of_nat (pending_with d1 p f) < max_batch_size d1).
  { rewrite Hmax. unfold pending_with in *. rewrite Hpend, lookup_insert_eq. simpl.
    unfold bucket. rewrite dom_insert_L.
    by rewrite (assoc_L (∪)), (union_idemp_L {[f]}). }
  destruct events as [|e' events'].
  - simpl in *. injection Hlast as <-. exists bucket.
    rewrite Hpend, lookup_insert_eq. split_and!; try done.
    unfold bucket. by rewrite lookup_insert_eq.
  - assert (Hlast' : last (e' :: events') = Some last_event) by done.
    destruct (IH d1 last_event Hcons1 Hsize1 Hlast') as (b & Hout & Hb & Hbf & Hbk).
    destruct (add_events d1 (e' :: events')) as [d2 outs] eqn:Hrun.
    simpl in *. exists b. by subst outs.
Qed.

Lemma nondecreasing_last (events : list FileEvent) (last_event : FileEvent) :
  nondecreasing events -> last events = Some last_event ->
  greatest_timestamp last_event events.
Proof.
  intros Hmono Hlast. rewrite last_lookup in Hlast.
  apply Forall_forall. intros e He.
  apply list_elem_of_lookup in He as [i Hi].
  apply (Hmono i (pred (length events)) e last_event); [|done|done].
  apply lookup_lt_Some in Hi. lia.
Qed.

(** C6, as the code has it: when events for one file of one project are
    added and the batch does not fill up on the way, the batch flushed
    afterwards holds exactly one entry for that file, and it is the
    event added last; it is the one of greatest timestamp whenever the
    timestamps do not decrease in the order of addition. *)
Theorem debouncer_keeps_last_added (d : DebouncerService) (p f : string)
    (events : list FileEvent) (last_event : FileEvent) :
  consistent d ->
  Forall (fun e => project_id e = p /\ file_path e = f) events ->
  last events = Some last_event ->
  Z.of_nat (pending_with d p f) < max_batch_size d ->
  (add_events d events).2 = []
  /\ entries_for f (flush (add_events d events).1 p).2 = [last_event]
  /\ (nondecreasing events -> greatest_timestamp last_event events).
Proof.
  intros Hcons Hall Hlast Hsize.
  destruct (coalesce p f events Hall d last_event Hcons Hsize Hlast)
    as (bucket & Hout & Hb & Hbf & Hkeys).
  split; [done|]. split.
  - by apply (flush_entries _ p f bucket).
  - intros Hmono. by apply nondecreasing_last.
Qed.

Lemma debouncer_keeps_last_added_witness :
  entries_for "/p/a.py"
    (flush (add_events (new_debouncer 2 50) [sample_event 1; sample_event 2]).1 "p").2
  = [sample_event 2].
Proof.
  apply (debouncer_keeps_last_added (new_debouncer 2 50) "p" "/p/a.py"
           [sample_event 1; sample_event 2] (sample_event 2)).
  - intros project bucket file e Hp. simpl in Hp. by rewrite lookup_empty in Hp.
  - repeat constructor.
  - reflexivity.
  - vm_compute. reflexivity.
Defined.

(** C6, as the specification words it, fails: of two events for one file
    the second, added last, is flushed although its timestamp is the
    smaller one. *)
Lemma earlier_timestamp_flushed :
  let events := [sample_event 5; sample_event 3] in
  let batch := (flush (add_events (new_debouncer 2 50) events).1 "p").2 in
  batch = [sample_event 3]
  /\ ~ spec_flushed_entry events batch "/p/a.py".
Proof.
  intros events batch.
  assert (E : batch = [sample_event 3]) by (vm_compute; reflexivity).
  split; [exact E|]. rewrite E. intros (e & He & _ & Hgreatest).
  vm_compute in He. injection He as <-.
  apply Forall_cons in Hgreatest as [Hle _]. vm_compute in Hle. by apply Hle.
Qed.

End DebouncerCoalescing.

(** ** The rate limiter *)

Section RateLimiterFacts.
Import Exn BatchEmbedder.

Lemma expire_split (cutoff : Z) (q : list Z) :
  exists expired,
    q = expired ++ expire cutoff q /\ Forall (fun a => a < cutoff) expired.
Proof.
  induction q as [|t q (expired & Hq & Hexp)]; [by exists []|]. simpl.
  destruct (Z.ltb_spec t cutoff).
  - exists (t :: expired). split; [simpl; by f_equal | by constructor].
  - by exists [].
Qed.

Lemma expire_length (cutoff : Z) (q : list Z) :
  (length (expire cutoff q) <= length q)%nat.
Proof.
  destruct (expire_split cutoff q) as (expired & Hq & _).
  rewrite Hq at 2. rewrite length_app. lia.
Qed.

Lemma in_window_app (w t : Z) (l k : list Z) :
  in_window w t (l ++ k) = in_window w t l ++ in_window w t k.
Proof. apply List.filter_app. Qed.

Lemma in_window_length (w t : Z) (l : list Z) :
  (length (in_window w t l) <= length l)%nat.
Proof. apply List.filter_length_le. Qed.

Lemma in_window_old (w t : Z) (l : list Z) :
  Forall (fun a => a <= t - w) l -> in_window w t l = [].
Proof.
  induction 1 as [|a l Ha _ IH]; [done|]. simpl.
  destruct (Z.ltb_spec (t - w) a); [lia|]. done.
Qed.

Lemma in_window_later (w t a : Z) : t < a -> in_window w t [a] = [].
Proof.
  intros Hlt. simpl. destruct (Z.leb_spec a t); [lia|]. by rewrite andb_false_r.
Qed.

(** One admission keeps what the limiter remembers in step with the
    history. *)
Lemma limiter_inv_step (rl rl' : RateLimiter) (history forgotten' : list Z)
    (last recorded : Z) :
  limiter_inv rl history last -> last <= recorded ->
  rate_limit rl' = rate_limit rl -> time_window rl' = time_window rl ->
  history ++ [recorded] = forgotten' ++ request_times rl' ->
  Forall (fun a => a <= recorded - time_window rl) forgotten' ->
  Z.of_nat (length (request_times rl')) <= rate_limit rl ->
  limiter_inv rl' (history ++ [recorded]) recorded.
Proof.
  intros [forgotten Hhist Hforg Hpast Hlen Hwin] Hlast Hrate Hw Hhist' Hforg' Hlen'.
  apply (LimiterInv _ _ _ forgotten'); rewrite ?Hrate, ?Hw; try done.
  - apply Forall_app. split; [|by repeat constructor].
    eapply Forall_impl; [exact Hpast|]. simpl. intros. lia.
  - intros t. destruct (Z.lt_ge_cases t recorded) as [Hlt|Hge].
    + rewrite in_window_app, in_window_later, app_nil_r by done. apply Hwin.
    + rewrite Hhist', in_window_app, in_window_old, app_nil_l.
      * pose proof (in_window_length (time_window rl) t (request_times rl')). lia.
      * eapply Forall_impl; [exact Hforg'|]. simpl. intros. lia.
Qed.

Lemma acquire_inv (rl : RateLimiter) (history : list Z) (last now recorded : Z) :
  1 <= rate_limit rl ->
  limiter_inv rl history last -> last <= now ->
  exists a,
    acquire rl now recorded = Ok a
    /\ 0 <= slept a
    /\ rate_limit (limiter a) = rate_limit rl
    /\ time_window (limiter a) = time_window rl
    /\ (now + slept a <= recorded ->
        limiter_inv (limiter a) (history ++ [recorded]) recorded).
Proof.
  intros Hrate Hinv Hnow. unfold acquire.
  destruct (expire_split (now - time_window rl) (request_times rl))
    as (expired & Hq & Hexp).
  pose proof (expire_length (now - time_window rl) (request_times rl)) as Hle.
  set (q := expire (now - time_window rl) (request_times rl)) in *.
  assert (Hinv' := Hinv). destruct Hinv' as [forgotten Hhist Hforg Hpast Hlen Hwin].
  destruct (Z.geb_spec (Z.of_nat (length q)) (rate_limit rl)) as [Hfull|Hroom].
  - destruct q as [|oldest q'] eqn:Eq; [simpl in Hfull; lia|].
    eexists. split; [done|]. simpl.
    split; [destruct (Z.gtb_spec (oldest + time_window rl - now) 0); lia|].
    split; [done|]. split; [done|]. intros Hclock.
    assert (Hold : oldest <= recorded - time_window rl)
      by (destruct (Z.gtb_spec (oldest + time_window rl - now) 0); lia).
    assert (Hrec : now <= recorded)
      by (destruct (Z.gtb_spec (oldest + time_window rl - now) 0); lia).
    apply (limiter_inv_step rl _ history (forgotten ++ expired ++ [oldest]) last);
      simpl; try done; try lia.
    + rewrite Hhist, Hq. by rewrite <- !app_assoc.
    + apply Forall_app. split; [|apply Forall_app; split].
      * eapply Forall_impl; [exact Hforg|]. simpl. intros. lia.
      * eapply Forall_impl; [exact Hexp|]. simpl. intros. lia.
      * by repeat constructor.
    + rewrite length_app. simpl in *. lia.
  - eexists. split; [done|]. simpl. split; [lia|]. split; [done|]. split; [done|].
    intros Hclock.
    apply (limiter_inv_step rl _ history (forgotten ++ expired) last);
      simpl; try done; try lia.
    + rewrite Hhist, Hq. by rewrite <- !app_assoc.
    + apply Forall_app. split.
      * eapply Forall_impl; [exact Hforg|]. simpl. intros. lia.
      * eapply Forall_impl; [exact Hexp|]. simpl. intros. lia.
    + rewrite length_app. simpl. lia.
Qed.

Lemma acquire_all_inv (readings : list (Z * Z)) :
  forall (rl : RateLimiter) (history : list Z) (last : Z),
    1 <= rate_limit rl ->
    limiter_inv rl history last -> clock_ok rl last readings ->
    exists rl' admissions sleeps,
      acquire_all rl readings = Ok (rl', admissions, sleeps)
      /\ rate_limit rl' = rate_limit rl /\ time_window rl' = time_window rl
      /\ admissions = readings.*2
      /\ exists last', limiter_inv rl' (history ++ admissions) last'.
Proof.
  induction readings as [|[now recorded] rest IH]; intros rl history last Hrate Hinv Hclock.
  - exists rl, [], []. rewrite app_nil_r. eauto 10.
  - simpl in Hclock. destruct Hclock as [Hnow Hclock].
    destruct (acquire_inv rl history last now recorded Hrate Hinv Hnow)
      as (a & Ha & Hslept & Hr & Hw & Hstep).
    rewrite Ha in Hclock. destruct Hclock as [Hsleep Hclock].
    destruct (IH (limiter a) (history ++ [recorded]) recorded)
      as (rl' & adm & sl & Hrun & Hr' & Hw' & Hadm & last' & Hinv');
      [lia | by apply Hstep | done |].
    exists rl', (recorded :: adm), (slept a :: sl). simpl. rewrite Ha, Hrun.
    split; [done|]. split; [congruence|]. split; [congruence|].
    split; [by rewrite Hadm|]. exists last'.
    by rewrite <- app_assoc in Hinv'.
Qed.

(** C8: under a clock that does not go back and a sleep that lasts at
    least as long as asked, a limiter that starts empty with
    [rate_limit >= 1] admits every request, and no window of
    [time_window] holds more than [rate_limit] admissions; when the
    window is full the request waits until the oldest remembered
    admission is one window old, and is then admitted. *)
Theorem rate_limiter_window (limit window start : Z) (readings : list (Z * Z)) :
  1 <= limit ->
  clock_ok (new_limiter limit window) start readings ->
  (exists rl' sleeps,
     acquire_all (new_limiter limit window) readings = Ok (rl', readings.*2, sleeps)
     /\ forall t,
          Z.of_nat (length (in_window window t readings.*2)) <= limit)
  /\ (forall (rl : RateLimiter) (now recorded oldest : Z) (q : list Z),
        expire (now - time_window rl) (request_times rl) = oldest :: q ->
        rate_limit rl <= Z.of_nat (length (oldest :: q)) ->
        exists a,
          acquire rl now recorded = Ok a
          /\ now + slept a = Z.max now (oldest + time_window rl)
          /\ request_times (limiter a) = q ++ [recorded]).
Proof.
  intros Hlimit Hclock. split.
  - destruct (acquire_all_inv readings (new_limiter limit window) [] start)
      as (rl' & adm & sl & Hrun & Hr & Hw & Hadm & last' & Hinv); [done| |done|].
    { apply (LimiterInv _ _ _ []); simpl; try done; try lia. }
    subst adm. exists rl', sl. split; [done|]. intros t.
    destruct Hinv as [_ _ _ _ _ Hwin]. rewrite Hr, Hw in Hwin. apply Hwin.
  - intros rl now recorded oldest q Hq Hfull. unfold acquire. rewrite Hq.
    destruct (Z.geb_spec (Z.of_nat (length (oldest :: q))) (rate_limit rl)); [|lia].
    eexists. split; [done|]. simpl. split; [|done].
    destruct (Z.gtb_spec (oldest + time_window rl - now) 0); lia.
Qed.

Lemma rate_limiter_window_witness :
  exists rl' sleeps,
    acquire_all (new_limiter 2 1000000) [(0, 0); (10, 10); (20, 1000000)]
    = Ok (rl', [0; 10; 1000000], sleeps)
    /\ forall t, Z.of_nat (length (in_window 1000000 t [0; 10; 1000000])) <= 2.
Proof.
  destruct (rate_limiter_window 2 1000000 0 [(0, 0); (10, 10); (20, 1000000)])
    as [Hrun _]; [lia | simpl; lia |].
  exact Hrun.
Defined.

End RateLimiterFacts.

(** ** Chunks of equal body in an added file *)

Section AddedFileDuplicates.
Import Text Exn SyncEngine.

(** C2 at a failing input: a first sync of a project whose one file
    defines the same one-line function twice stores two chunks of that
    file with the same [chunk_hash], whatever the digest is. *)
Theorem added_file_stores_equal_hashes (sha256 : string -> string) :
  exists db stats,
    sync_files (dup_env sha256) empty_db "src" "/p" ["/p/dup.py"] = Ok (db, stats)
    /\ stored_hashes db "src" "/p/dup.py"
       = [Some (sha256 "def f(): pass"); Some (sha256 "def f(): pass")]
    /\ ~ NoDup (stored_hashes db "src" "/p/dup.py")
    /\ chunks_added stats = 2.
Proof.
  eexists _, _. split; [vm_compute; reflexivity|].
  split; [vm_compute; reflexivity|]. split; [|reflexivity].
  vm_compute. intros Hnd. apply NoDup_cons in Hnd as [Hnotin _].
  apply Hnotin. left.
Qed.

End AddedFileDuplicates.

(** ** More on the chunker *)

Section MarkdownFacts.
Import Text Chunker.

Lemma numbered_snoc (k : Z) (cs : list CodeChunk) (c : CodeChunk) :
  numbered k cs ->
  start_line c = last_end k cs + 1 ->
  end_line c = last_end k cs + len (body_lines c) ->
  numbered k (cs ++ [c]).
Proof.
  revert k. induction cs as [|c' cs IH]; intros k Hn Hs He; simpl in *.
  - by rewrite Hs, He.
  - destruct Hn as (H1 & H2 & H3). split; [done|]. split; [done|]. by apply IH.
Qed.

Lemma md_inv_init : md_inv scan_init [].
Proof. by constructor. Qed.

(** Closing the current lines as a chunk that ends at the last scanned
    line. *)
Lemma md_emit (st st0 : scan_state) (scanned : list string) :
  md_inv st scanned -> clean scanned -> current_chunk_lines st <> [] ->
  chunks st0 = chunks st -> current_chunk_lines st0 = current_chunk_lines st ->
  current_start_line st0 = current_start_line st ->
  scanned = concat (body_lines <$> emit "markdown" st0 (len scanned))
  /\ last_end 0 (emit "markdown" st0 (len scanned)) = len scanned
  /\ numbered 0 (emit "markdown" st0 (len scanned)).
Proof.
  intros [Hsplit Hstart Hend Hnum] Hclean Hne Hc Hl Hs.
  unfold emit. rewrite Hc, Hl, Hs.
  assert (Hbody : split_nl (join_nl (current_chunk_lines st)) = current_chunk_lines st).
  { apply split_join_nl; [done|]. rewrite Hsplit in Hclean.
    by apply Forall_app in Hclean as [_ ?]. }
  rewrite fmap_app, concat_app, last_end_snoc. simpl.
  unfold body_lines at 2. simpl. rewrite Hbody, app_nil_r.
  split; [done|]. split; [done|].
  apply numbered_snoc; [done| |]; simpl; rewrite Hend.
  - done.
  - unfold body_lines. simpl. rewrite Hbody. rewrite Hsplit at 1.
    by rewrite len_app.
Qed.

Lemma markdown_step_inv (max_lines : Z) (st : scan_state)
    (scanned : list string) (line : string) :
  md_inv st scanned -> clean (scanned ++ [line]) ->
  md_inv (markdown_step max_lines st (len scanned + 1) line) (scanned ++ [line]).
Proof.
  intros Hinv Hclean.
  assert (Hclean0 : clean scanned) by (by apply Forall_app in Hclean as [? _]).
  unfold markdown_step.
  set (st0 := {| chunks := chunks st;
                 current_chunk_lines := current_chunk_lines st;
                 current_start_line := current_start_line st;
                 current_section_type := Some "section";
                 current_section_name := current_section_name st |}).
  set (st1 := match md_header_match line with Some _ => _ | None => _ end).
  assert (Hinv1 : md_inv st1 (scanned ++ [line]) /\ current_chunk_lines st1 <> []).
  { subst st1. destruct (md_header_match line) as [title|].
    - split; [|done]. destruct (current_chunk_lines st) as [|l0 ls0] eqn:Hcur.
      + destruct Hinv as [Hsplit Hstart Hend Hnum].
        rewrite Hcur, app_nil_r in Hsplit.
        constructor; simpl; try done; by rewrite <- Hsplit.
      + replace (len scanned + 1 - 1) with (len scanned) by lia.
        destruct (md_emit st st0 scanned) as (Hs & He & Hn);
          [done | done | by rewrite Hcur | done | done | done |].
        constructor; simpl; [by rewrite <- Hs | by rewrite <- Hs | | done].
        rewrite <- Hs. exact He.
    - split; [|simpl; by destruct (current_chunk_lines st)].
      destruct Hinv as [Hsplit Hstart Hend Hnum].
      constructor; simpl; try done. by rewrite Hsplit, <- app_assoc. }
  destruct Hinv1 as [Hinv1 Hne1]. clearbody st1. clear st0.
  destruct (Z.geb_spec (len (current_chunk_lines st1)) max_lines) as [Hfull|]; [|done].
  replace (len scanned + 1) with (len (scanned ++ [line])) by apply len_snoc.
  destruct (md_emit st1 st1 (scanned ++ [line])) as (Hs & He & Hn);
    [done | done | done | done | done | done |].
  constructor; simpl.
  - by rewrite app_nil_r.
  - by rewrite <- Hs.
  - by rewrite <- Hs.
  - done.
Qed.

Lemma scan_markdown_inv (max_lines : Z) (rest : list string) :
  forall st scanned,
    md_inv st scanned -> clean (scanned ++ rest) ->
    md_inv (scan (markdown_step max_lines) st (len scanned + 1) rest)
      (scanned ++ rest).
Proof.
  induction rest as [|line rest IH]; intros st scanned Hinv Hclean; simpl.
  - by rewrite app_nil_r.
  - replace (len scanned + 1 + 1) with (len (scanned ++ [line]) + 1)
      by (rewrite len_snoc; lia).
    assert (E : scanned ++ line :: rest = (scanned ++ [line]) ++ rest)
      by (by rewrite <- app_assoc).
    rewrite E in *. apply IH; [|done].
    apply markdown_step_inv; [done|].
    by apply Forall_app in Hclean as [? _].
Qed.

(** X1: the Markdown strategy cuts the text into consecutive pieces: the
    bodies of its chunks, one after the other, are the text, character for
    character, and each chunk is numbered after the lines that precede it
    and the lines of its body, for every limit [max_lines]. *)
Theorem markdown_partitions_the_text (content : string) (max_lines : Z) :
  join_nl (concat (body_lines <$> _chunk_markdown content max_lines)) = content
  /\ numbered 0 (_chunk_markdown content max_lines).
Proof.
  unfold _chunk_markdown.
  pose proof (scan_markdown_inv max_lines (split_nl content) scan_init []
                md_inv_init) as Hinv.
  simpl in Hinv. specialize (Hinv (split_nl_no_newline content)).
  change (len [] + 1) with 1 in Hinv.
  set (st := scan (markdown_step max_lines) scan_init 1 (split_nl content)) in *.
  set (st0 := {| chunks := chunks st;
                 current_chunk_lines := current_chunk_lines st;
                 current_start_line := current_start_line st;
                 current_section_type := Some "section";
                 current_section_name := current_section_name st |}).
  unfold finish. change (current_chunk_lines st0) with (current_chunk_lines st).
  destruct (current_chunk_lines st) as [|l ls] eqn:Hcur.
  - destruct Hinv as [Hsplit Hstart Hend Hnum]. rewrite Hcur, app_nil_r in Hsplit.
    change (chunks st0) with (chunks st). rewrite <- Hsplit.
    split; [apply join_split_nl | done].
  - destruct (md_emit st st0 (split_nl content)) as (Hs & He & Hn);
      [done | apply split_nl_no_newline | by rewrite Hcur | done | done | done |].
    rewrite <- Hs. split; [apply join_split_nl | done].
Qed.

End MarkdownFacts.

Section ChunkerOutputFacts.
Import Text Chunker.

Lemma emit_nonempty (lang : string) (st : scan_state) (n : Z) : emit lang st n <> [].
Proof. unfold emit. by destruct (chunks st). Qed.

Lemma structured_step_has_lines lang decl max_lines overlap_lines st idx line :
  has_lines (structured_step lang decl max_lines overlap_lines st idx line).
Proof.
  unfold structured_step.
  set (st1 := match decl line with Some _ => _ | None => _ end).
  assert (Hne : current_chunk_lines st1 <> []).
  { subst st1. destruct (decl line) as [[ty name]|]; simpl; [done|].
    by destruct (current_chunk_lines st). }
  destruct (len (current_chunk_lines st1) >=? max_lines).
  - left. simpl. apply emit_nonempty.
  - by right.
Qed.

Lemma markdown_step_has_lines max_lines st idx line :
  has_lines (markdown_step max_lines st idx line).
Proof.
  unfold markdown_step.
  set (st1 := match md_header_match line with Some _ => _ | None => _ end).
  assert (Hne : current_chunk_lines st1 <> []).
  { subst st1. destruct (md_header_match line); simpl; [done|].
    by destruct (current_chunk_lines st). }
  destruct (len (current_chunk_lines st1) >=? max_lines).
  - left. simpl. apply emit_nonempty.
  - by right.
Qed.

Lemma scan_has_lines (step : scan_state -> Z -> string -> scan_state) :
  (forall st idx line, has_lines (step st idx line)) ->
  forall lines st idx, lines <> [] -> has_lines (scan step st idx lines).
Proof.
  intros Hstep. induction lines as [|line rest IH]; intros st idx Hne; [done|].
  simpl. destruct rest as [|line' rest']; [apply Hstep | by apply IH].
Qed.

Lemma finish_nonempty (lang : string) (st st' : scan_state) (n : Z) :
  has_lines st -> chunks st' = chunks st ->
  current_chunk_lines st' = current_chunk_lines st ->
  finish lang st' n <> [].
Proof.
  intros Hst Hc Hl. unfold finish. rewrite Hl.
  destruct (current_chunk_lines st) as [|l ls] eqn:Hcur.
  - rewrite Hc. by destruct Hst.
  - apply emit_nonempty.
Qed.

Lemma generic_loop_extends (lines : list string) (max_lines overlap_lines : Z) :
  forall (fuel : nat) (idx : Z) (chunks cs : list CodeChunk),
    generic_loop fuel lines max_lines overlap_lines idx chunks = Some cs ->
    exists more, cs = chunks ++ more.
Proof.
  induction fuel as [|fuel IH]; intros idx chunks cs Hrun; [done|].
  simpl in Hrun. destruct (idx <? len lines).
  - apply IH in Hrun as [more ->]. eexists. by rewrite <- app_assoc.
  - injection Hrun as <-. exists []. by rewrite app_nil_r.
Qed.

(** X2: the chunker never returns an empty list: every strategy gives at
    least one chunk for every text, the empty text included, whatever the
    sizes are (the generic strategy when it returns at all). *)
Theorem chunker_never_empty (content : string) (max_lines overlap_lines : Z) :
  _chunk_python content max_lines overlap_lines <> []
  /\ _chunk_typescript content max_lines overlap_lines <> []
  /\ _chunk_markdown content max_lines <> []
  /\ forall fuel cs,
       _chunk_generic fuel content max_lines overlap_lines = Some cs -> cs <> [].
Proof.
  split; [|split; [|split]].
  - unfold _chunk_python, chunk_structured.
    eapply finish_nonempty; [|done|done].
    apply scan_has_lines; [apply structured_step_has_lines | apply split_nl_nonempty].
  - unfold _chunk_typescript, chunk_structured.
    eapply finish_nonempty; [|done|done].
    apply scan_has_lines; [apply structured_step_has_lines | apply split_nl_nonempty].
  - unfold _chunk_markdown.
    eapply finish_nonempty; [|done|done].
    apply scan_has_lines; [apply markdown_step_has_lines | apply split_nl_nonempty].
  - intros fuel cs Hrun. unfold _chunk_generic in Hrun.
    destruct fuel as [|fuel]; [done|]. simpl in Hrun.
    pose proof (len_split_nl_pos content).
    destruct (Z.ltb_spec 0 (len (split_nl content))); [|lia].
    apply generic_loop_extends in Hrun as [more ->]. done.
Qed.

Lemma chunker_never_empty_witness :
  exists cs, _chunk_generic 2 "a" 100 10 = Some cs /\ cs <> [].
Proof.
  destruct (_chunk_generic 2 "a" 100 10) as [cs|] eqn:Hrun;
    [|vm_compute in Hrun; discriminate Hrun].
  exists cs. split; [reflexivity|].
  apply (proj2 (proj2 (proj2 (chunker_never_empty "a" 100 10))) 2%nat cs Hrun).
Defined.

End ChunkerOutputFacts.

Section ChunkSizeFacts.
Import Text Chunker.

Lemma structured_step_parts lang decl max_lines overlap_lines st idx line :
  structured_step lang decl max_lines overlap_lines st idx line
  = split_part lang max_lines overlap_lines (decl_part lang decl st idx line) idx.
Proof. reflexivity. Qed.

Lemma chunk_ok_app (scanned rest : list string) (max_lines : Z) (c : CodeChunk) :
  chunk_ok scanned max_lines c -> chunk_ok (scanned ++ rest) max_lines c.
Proof.
  intros (H1 & H2 & H3 & H4 & H5). unfold chunk_ok.
  rewrite len_app. unfold len in *. repeat split; try lia.
  rewrite H5. rewrite drop_app_le by lia. rewrite take_app_le; [done|].
  rewrite length_drop. lia.
Qed.

(** The chunk that closes the current lines at the last scanned line. *)
Lemma emit_chunk_ok lang max_lines st scanned :
  scan_inv st scanned -> clean scanned ->
  current_chunk_lines st <> [] -> len (current_chunk_lines st) <= max_lines ->
  Forall (chunk_ok scanned max_lines) (chunks st) ->
  Forall (chunk_ok scanned max_lines) (emit lang st (len scanned)).
Proof.
  intros [pre Hsplit Hstart Hlo Hhi Hstrip] Hclean Hne Hlen Hall.
  unfold emit. apply Forall_app. split; [done|]. constructor; [|done].
  assert (Hpos : 0 < len (current_chunk_lines st)).
  { unfold len. destruct (current_chunk_lines st); [done | simpl; lia]. }
  assert (Hn : len scanned = len pre + len (current_chunk_lines st))
    by (rewrite Hsplit at 1; apply len_app).
  unfold chunk_ok, body_lines. simpl. rewrite Hstart.
  assert (0 <= len pre) by (unfold len; lia).
  repeat split; try lia.
  rewrite split_join_nl; [|done|].
  2:{ rewrite Hsplit in Hclean. by apply Forall_app in Hclean as [_ ?]. }
  rewrite Hsplit at 2.
  replace (Z.to_nat (len pre + 1 - 1)) with (length pre) by (unfold len; lia).
  rewrite drop_app_length. rewrite take_ge; [done|]. unfold len in *. lia.
Qed.

Lemma decl_part_inv lang decl max_lines st scanned line :
  1 <= max_lines ->
  sized_inv max_lines st scanned -> clean (scanned ++ [line]) ->
  let st1 := decl_part lang decl st (len scanned + 1) line in
  scan_inv st1 (scanned ++ [line])
  /\ Forall (chunk_ok (scanned ++ [line]) max_lines) (chunks st1)
  /\ current_chunk_lines st1 <> []
  /\ len (current_chunk_lines st1) <= max_lines.
Proof.
  intros Hmax [Hinv Hall Hcur] Hclean st1.
  assert (Hclean0 : clean scanned) by (by apply Forall_app in Hclean as [? _]).
  assert (Hlift : forall cs, Forall (chunk_ok scanned max_lines) cs ->
                    Forall (chunk_ok (scanned ++ [line]) max_lines) cs).
  { intros cs Hcs. eapply Forall_impl; [exact Hcs|]. intros c. apply chunk_ok_app. }
  subst st1. unfold decl_part. destruct (decl line) as [[ty name]|].
  - destruct (current_chunk_lines st) as [|l0 ls0] eqn:Hcl.
    + split; [|split; [by apply Hlift|split; [done|unfold len; simpl; lia]]].
      destruct Hinv as [pre Hsplit Hstart Hlo Hhi Hstrip].
      rewrite Hcl, app_nil_r in Hsplit. subst pre.
      apply (ScanInv _ _ scanned); simpl; try done; try lia.
      * rewrite len_snoc. lia.
      * rewrite Hstrip. rewrite take_app_le; [done|]. unfold len in Hhi. lia.
    + replace (len scanned + 1 - 1) with (len scanned) by lia.
      destruct (emit_strip lang st scanned) as [Hs He]; [done|done|by rewrite Hcl|].
      split; [|split; [|split; [done|unfold len; simpl; lia]]].
      * apply (ScanInv _ _ scanned); simpl; try done; try lia.
        -- rewrite len_snoc. lia.
        -- rewrite Hs, He. unfold len. rewrite Nat2Z.id. by rewrite take_app_length.
      * simpl. apply Hlift. apply emit_chunk_ok; try done;
          [by rewrite Hcl | rewrite Hcl; lia].
  - split; [|split; [by apply Hlift|split]].
    + destruct Hinv as [pre Hsplit Hstart Hlo Hhi Hstrip].
      apply (ScanInv _ _ pre); simpl; try done.
      * by rewrite Hsplit, <- app_assoc.
      * rewrite len_snoc. lia.
      * rewrite Hstrip. rewrite take_app_le; [done|]. unfold len in Hhi. lia.
    + simpl. by destruct (current_chunk_lines st).
    + simpl. rewrite len_snoc. lia.
Qed.

Lemma structured_step_sized lang decl max_lines overlap_lines st scanned line :
  0 <= overlap_lines < max_lines ->
  sized_inv max_lines st scanned -> clean (scanned ++ [line]) ->
  sized_inv max_lines
    (structured_step lang decl max_lines overlap_lines st (len scanned + 1) line)
    (scanned ++ [line]).
Proof.
  intros Hsz Hinv Hclean.
  assert (Hscan : scan_inv
            (structured_step lang decl max_lines overlap_lines st (len scanned + 1) line)
            (scanned ++ [line])).
  { destruct Hinv as [Hinv _ _]. by apply structured_step_inv. }
  rewrite structured_step_parts in *.
  destruct (decl_part_inv lang decl max_lines st scanned line) as (H1 & H2 & H3 & H4);
    [lia | done | done |].
  set (st1 := decl_part lang decl st (len scanned + 1) line) in *. clearbody st1.
  unfold split_part in *.
  destruct (Z.geb_spec (len (current_chunk_lines st1)) max_lines) as [Hfull|Hroom].
  - constructor; [done| |]; simpl.
    + replace (len scanned + 1) with (len (scanned ++ [line])) by apply len_snoc.
      by apply emit_chunk_ok.
    + rewrite Z.max_r by lia. rewrite py_slice_from_drop by lia.
      unfold len. rewrite length_drop. unfold len in *. lia.
  - constructor; [done|done|lia].
Qed.

Lemma scan_structured_sized lang decl max_lines overlap_lines rest :
  0 <= overlap_lines < max_lines ->
  forall st scanned,
    sized_inv max_lines st scanned -> clean (scanned ++ rest) ->
    sized_inv max_lines
      (scan (structured_step lang decl max_lines overlap_lines) st
         (len scanned + 1) rest)
      (scanned ++ rest).
Proof.
  intros Hsz. induction rest as [|line rest IH]; intros st scanned Hinv Hclean; simpl.
  - by rewrite app_nil_r.
  - replace (len scanned + 1 + 1) with (len (scanned ++ [line]) + 1)
      by (rewrite len_snoc; lia).
    assert (E : scanned ++ line :: rest = (scanned ++ [line]) ++ rest)
      by (by rewrite <- app_assoc).
    rewrite E in *. apply IH; [|done].
    apply structured_step_sized; [done|done|].
    by apply Forall_app in Hclean as [? _].
Qed.

Lemma chunk_structured_sized lang decl content max_lines overlap_lines :
  0 <= overlap_lines < max_lines ->
  Forall (chunk_ok (split_nl content) max_lines)
    (chunk_structured lang decl content max_lines overlap_lines).
Proof.
  intros Hsz. unfold chunk_structured.
  assert (Hinit : sized_inv max_lines scan_init []).
  { constructor; [apply scan_inv_init | done | unfold len; simpl; lia]. }
  pose proof (scan_structured_sized lang decl max_lines overlap_lines
                (split_nl content) Hsz scan_init [] Hinit) as Hinv.
  simpl in Hinv. specialize (Hinv (split_nl_no_newline content)).
  change (len [] + 1) with 1 in Hinv. destruct Hinv as [Hscan Hall Hcur].
  unfold finish.
  destruct (current_chunk_lines
              (scan (structured_step lang decl max_lines overlap_lines) scan_init 1
                 (split_nl content))) as [|l ls] eqn:Hcl; [done|].
  apply emit_chunk_ok; try done;
    [apply split_nl_no_newline | by rewrite Hcl | rewrite Hcl; lia].
Qed.

Lemma generic_loop_sized (lines : list string) (max_lines overlap_lines : Z) :
  0 <= overlap_lines < max_lines -> clean lines ->
  forall (fuel : nat) (idx : Z) (chunks cs : list CodeChunk),
    0 <= idx ->
    Forall (chunk_ok lines max_lines) chunks ->
    generic_loop fuel lines max_lines overlap_lines idx chunks = Some cs ->
    Forall (chunk_ok lines max_lines) cs.
Proof.
  intros Hsz Hclean fuel.
  induction fuel as [|fuel IH]; intros idx chunks cs Hidx Hall Hrun; [done|].
  simpl in Hrun. destruct (Z.ltb_spec idx (len lines)) as [Hlt|Hge].
  - set (e' := Z.min (idx + max_lines) (len lines)).
    assert (Hslice : py_slice lines idx (idx + max_lines)
                     = take (Z.to_nat (e' - idx)) (drop (Z.to_nat idx) lines))
      by (apply py_slice_window; lia).
    rewrite Hslice in Hrun.
    set (chunk_lines := take (Z.to_nat (e' - idx)) (drop (Z.to_nat idx) lines)) in *.
    assert (Hlen : len chunk_lines = e' - idx).
    { subst chunk_lines. unfold len. rewrite length_take, length_drop.
      unfold e', len in *. lia. }
    rewrite Hlen in Hrun.
    replace (Z.min (idx + (e' - idx)) (len lines)) with e' in Hrun by lia.
    eapply IH in Hrun; [exact Hrun | lia |].
    apply Forall_app. split; [done|]. constructor; [|done].
    unfold chunk_ok, body_lines. simpl. repeat split; try lia.
    rewrite split_join_nl.
    + subst chunk_lines. f_equal; [lia|]. f_equal. lia.
    + intros E. rewrite E in Hlen. unfold len in Hlen. simpl in Hlen. lia.
    + subst chunk_lines. apply Forall_take, Forall_drop, Hclean.
  - by injection Hrun as <-.
Qed.

(** X3: with sizes such that [0 <= overlap_lines < max_lines], every chunk
    of the Python, TypeScript/JavaScript and generic strategies is a run
    of consecutive lines of the file: its body is the lines
    [start_line..end_line], the numbers are within the file, and it has at
    most [max_lines] lines. *)
Theorem chunks_are_bounded_runs (content : string) (max_lines overlap_lines : Z) :
  0 <= overlap_lines < max_lines ->
  Forall (chunk_ok (split_nl content) max_lines)
    (_chunk_python content max_lines overlap_lines)
  /\ Forall (chunk_ok (split_nl content) max_lines)
       (_chunk_typescript content max_lines overlap_lines)
  /\ forall fuel cs,
       _chunk_generic fuel content max_lines overlap_lines = Some cs ->
       Forall (chunk_ok (split_nl content) max_lines) cs.
Proof.
  intros Hsz. split; [|split].
  - by apply chunk_structured_sized.
  - by apply chunk_structured_sized.
  - intros fuel cs Hrun.
    by apply (generic_loop_sized (split_nl content) max_lines overlap_lines Hsz
                (split_nl_no_newline content) fuel 0 [] cs).
Qed.

Lemma chunks_are_bounded_runs_witness :
  Forall (chunk_ok (split_nl "import os") 100) (_chunk_python "import os" 100 10).
Proof.
  apply (chunks_are_bounded_runs "import os" 100 10). lia.
Defined.

End ChunkSizeFacts.

(** ** The language of a file *)

Section DetectLanguageFacts.
Import Text Chunker.

Lemma endswith_refl (s : string) : endswith s s = true.
Proof. destruct s; [done|]. cbn [endswith]. by rewrite String.eqb_refl. Qed.

Lemma endswith_app_r (p b : string) : endswith (p +:+ b) b = true.
Proof.
  induction p as [|c p IH]; simpl.
  - apply endswith_refl.
  - rewrite IH. apply orb_true_r.
Qed.

Lemma endswith_app_inv (p a b : string) :
  endswith (p +:+ b) a = true -> endswith b a = true \/ endswith a b = true.
Proof.
  induction p as [|c p IH]; [by left|].
  change (String c p +:+ b) with (String c (p +:+ b)). cbn [endswith].
  intros [Heq|H]%orb_true_iff; [|by apply IH].
  apply String.eqb_eq in Heq. subst a. right.
  apply (endswith_app_r (String c p) b).
Qed.

Lemma endswith_app_unrelated (p a b : string) :
  endswith b a = false -> endswith a b = false -> endswith (p +:+ b) a = false.
Proof.
  intros Hba Hab. destruct (endswith (p +:+ b) a) eqn:E; [|done].
  apply endswith_app_inv in E as [E|E]; congruence.
Qed.

(** X4: a path that ends with an extension of the table has the language
    the table gives for it, whatever precedes the extension and whatever
    the order of the table (no listed extension is the end of another);
    a path that ends with none of them is [generic]. *)
Theorem detect_language_by_extension :
  (forall stem ext lang,
     (ext, lang) ∈ extension_map -> detect_language (stem +:+ ext) = lang)
  /\ (forall path,
        Forall (fun el => endswith path el.1 = false) extension_map ->
        detect_language path = "generic").
Proof.
  split.
  - intros stem ext lang Hin. unfold detect_language, extension_map in *.
    repeat (apply elem_of_cons in Hin as [Heq|Hin];
            [injection Heq as -> ->; simpl;
             rewrite ?endswith_app_unrelated by reflexivity;
             by rewrite endswith_app_r|]).
    by apply elem_of_nil in Hin.
  - intros path Hall. unfold detect_language.
    destruct (find _ extension_map) as [el|] eqn:E; [|done].
    apply find_some in E as [Hin E].
    rewrite Forall_forall in Hall. apply list_elem_of_In in Hin.
    by rewrite (Hall el Hin) in E.
Qed.

Lemma detect_language_by_extension_witness :
  detect_language ("src/components/App" +:+ ".tsx") = "typescript".
Proof.
  apply (proj1 detect_language_by_extension "src/components/App" ".tsx").
  unfold extension_map. do 2 apply list_elem_of_further. apply list_elem_of_here.
Defined.

End DetectLanguageFacts.

(** ** Batches under a token limit *)

Section TokenBatcherFacts.
Import Text Exn BatchEmbedder.

Lemma batch_tokens_snoc (batch : list string) (text : string) :
  batch_tokens (batch ++ [text]) = batch_tokens batch + estimated_tokens text.
Proof.
  induction batch as [|t batch IH]; simpl; [lia|].
  unfold batch_tokens in *. simpl. rewrite IH. lia.
Qed.

Lemma batch_step_inv (b : TokenAwareBatcher) (st : batching) (seen : list string)
    (text : string) :
  batching_inv b st seen -> batching_inv b (batch_step b st text) (seen ++ [text]).
Proof.
  intros [Hseen Htok Hcur Hne Hstart Hlim]. unfold batch_step.
  destruct (((current_tokens st + estimated_tokens text >? max_tokens_per_batch b)
             || (Z.of_nat (length (current_batch st)) >=? max_items_per_batch b))
            && negb (bool_decide (current_batch st = []))) eqn:Hc.
  - apply andb_true_iff in Hc as [_ Hn].
    apply negb_true_iff, bool_decide_eq_false in Hn.
    constructor; simpl.
    + rewrite Hseen, concat_app. simpl. by rewrite app_nil_r, <- app_assoc.
    + unfold batch_tokens. simpl. lia.
    + intros. lia.
    + apply Forall_app. split; [done|]. by repeat constructor.
    + done.
    + apply Forall_app. split; [done|]. constructor; [exact Hcur | constructor].
  - constructor; simpl.
    + rewrite Hseen. by rewrite app_assoc.
    + by rewrite batch_tokens_snoc, Htok.
    + intros Hlen. rewrite length_app in Hlen. simpl in Hlen.
      assert (Hcb : current_batch st <> [])
        by (intros E; rewrite E in Hlen; simpl in Hlen; lia).
      rewrite bool_decide_eq_false_2 in Hc by done. simpl in Hc.
      rewrite andb_true_r in Hc. apply orb_false_iff in Hc as [Hwt Hwi].
      destruct (Z.gtb_spec (current_tokens st + estimated_tokens text)
                  (max_tokens_per_batch b)); [done|].
      destruct (Z.geb_spec (Z.of_nat (length (current_batch st)))
                  (max_items_per_batch b)); [done|].
      unfold within_limits. rewrite batch_tokens_snoc, length_app. simpl.
      split; lia.
    + done.
    + intros _. by destruct (current_batch st).
    + done.
Qed.

Lemma batching_loop_inv (b : TokenAwareBatcher) (texts : list string) :
  forall (st : batching) (seen : list string),
    batching_inv b st seen ->
    batching_inv b (foldl (batch_step b) st texts) (seen ++ texts).
Proof.
  induction texts as [|text texts IH]; intros st seen Hinv; simpl.
  - by rewrite app_nil_r.
  - replace (seen ++ text :: texts) with ((seen ++ [text]) ++ texts)
      by (by rewrite <- app_assoc).
    apply IH. by apply batch_step_inv.
Qed.

(** X5: [create_batches] cuts a non-empty list of texts into batches
    without losing, adding or reordering a text: the batches put end to
    end are the texts, no batch is empty, and every batch of two texts or
    more is within the item limit and the token limit (a batch of one text
    may be over the token limit).  On the empty list it raises
    [ZeroDivisionError], from the average in its debug message. *)
Theorem create_batches_spec (b : TokenAwareBatcher) :
  create_batches b [] = Raise ZeroDivisionError
  /\ forall texts,
       texts <> [] ->
       exists bs,
         create_batches b texts = Ok bs
         /\ concat bs = texts
         /\ Forall (fun batch => batch <> []) bs
         /\ Forall (fun batch =>
                      (2 <= length batch)%nat -> within_limits b batch) bs.
Proof.
  split; [done|]. intros texts Hne. unfold create_batches.
  pose proof (batching_loop_inv b texts
                {| batches := []; current_batch := []; current_tokens := 0 |} [])
    as Hinv.
  simpl in Hinv.
  destruct Hinv as [Hseen Htok Hcur Hnonempty Hstart Hlim].
  { constructor; simpl; try done. intros. lia. }
  set (st := foldl (batch_step b) _ texts) in *.
  destruct (current_batch st) as [|t0 cur] eqn:Hcb; [by destruct Hstart|].
  destruct (batches st ++ [t0 :: cur]) as [|b0 bs] eqn:Hbs;
    [by destruct (batches st)|].
  rewrite <- Hbs. eexists. split; [done|]. split; [|split].
  - rewrite concat_app. simpl. by rewrite app_nil_r.
  - apply Forall_app. split; [done|]. by repeat constructor.
  - apply Forall_app. split; [done|]. constructor; [exact Hcur | constructor].
Qed.

Lemma create_batches_spec_witness :
  exists bs,
    create_batches {| max_tokens_per_batch := 2; max_items_per_batch := 2 |}
      ["aaaa"; "bbbbbbbb"; "c"] = Ok bs
    /\ concat bs = ["aaaa"; "bbbbbbbb"; "c"].
Proof.
  destruct (proj2 (create_batches_spec
                     {| max_tokens_per_batch := 2; max_items_per_batch := 2 |})
              ["aaaa"; "bbbbbbbb"; "c"]) as (bs & Hrun & Hcat & _); [done|].
  exists bs. by split.
Defined.

End TokenBatcherFacts.

(** ** Embedding in batches *)

Section EmbedBatchFacts.
Import Text Exn BatchEmbedder.

Lemma slices_concat (size : nat) :
  (0 < size)%nat ->
  forall (fuel : nat) (texts : list string),
    (length texts <= fuel)%nat -> concat (slices fuel size texts) = texts.
Proof.
  intros Hsize. induction fuel as [|fuel IH]; intros texts Hlen.
  - destruct texts; [done | simpl in Hlen; lia].
  - destruct texts as [|t texts]; [done|].
    cbn [slices concat]. rewrite IH; [apply take_drop|].
    rewrite length_drop. simpl in *. lia.
Qed.

Lemma retry_loop_vectors (max_retries : Z)
    (service : nat -> result (list (option embedding))) :
  forall (fuel : nat) (retries : Z) (n : nat) (waits : list Z) (r : retry_run)
         (vectors : list (option embedding)),
    retry_loop fuel max_retries service retries n waits = Some r ->
    outcome r = Ok (Some vectors) ->
    exists k, service k = Ok vectors.
Proof.
  induction fuel as [|fuel IH]; intros retries n waits r vectors Hrun Hout; [done|].
  simpl in Hrun. destruct (retries <=? max_retries).
  - destruct (service n) as [vs|e] eqn:Hsvc.
    + injection Hrun as <-. simpl in Hout. exists n. congruence.
    + destruct (retries + 1 >? max_retries).
      * injection Hrun as <-. done.
      * destruct (_is_rate_limit_error e).
        -- by eapply IH.
        -- injection Hrun as <-. done.
  - injection Hrun as <-. done.
Qed.

Lemma embed_individually_length (svc : embedding_service) (texts : list string) :
  length (_embed_individually svc texts) = length texts.
Proof. unfold _embed_individually. by rewrite length_fmap. Qed.

Lemma embed_individually_concat (svc : embedding_service) (ls : list (list string)) :
  concat (_embed_individually svc <$> ls) = _embed_individually svc (concat ls).
Proof.
  induction ls as [|l ls IH]; [done|].
  rewrite fmap_cons. cbn [concat]. rewrite IH.
  unfold _embed_individually. by rewrite fmap_app.
Qed.

Lemma embed_slice_length (max_retries : Z) (svc : embedding_service)
    (batch : list string) :
  (forall k vectors, embed_many svc batch k = Ok vectors ->
                     length vectors = length batch) ->
  length (embed_slice max_retries svc batch) = length batch.
Proof.
  intros Hsvc. unfold embed_slice, _embed_batch_with_retry.
  destruct (retry_loop _ _ _ _ _ _) as [r|] eqn:Hrun;
    [|apply embed_individually_length].
  destruct (outcome r) as [[vectors|]|e] eqn:Hout;
    try apply embed_individually_length.
  destruct (retry_loop_vectors _ _ _ _ _ _ _ _ Hrun Hout) as [k Hk].
  by apply (Hsvc k).
Qed.

Lemma embed_slice_fallback (max_retries : Z) (svc : embedding_service)
    (batch : list string) :
  (forall k, exists e, embed_many svc batch k = Raise e) ->
  embed_slice max_retries svc batch = _embed_individually svc batch.
Proof.
  intros Hsvc. unfold embed_slice, _embed_batch_with_retry.
  destruct (retry_loop _ _ _ _ _ _) as [r|] eqn:Hrun; [|done].
  destruct (outcome r) as [[vectors|]|e] eqn:Hout; try done.
  destruct (retry_loop_vectors _ _ _ _ _ _ _ _ Hrun Hout) as [k Hk].
  destruct (Hsvc k) as [e He]. congruence.
Qed.

(** X6: with a batch size of at least one, [embed_batch] does not raise
    and, when the service answers a batch with one vector per text,
    returns one entry per text; when every attempt on every batch raises
    it returns, position for position, what the service gives for each
    text alone, [None] where that raises.  A negative batch size gives
    the empty list for any texts, and a batch size of zero raises
    [ZeroDivisionError] unless there is no text. *)
Theorem embed_batch_spec (batch_size max_retries : Z) (svc : embedding_service)
    (texts : list string) :
  (1 <= batch_size ->
     (exists vectors, embed_batch batch_size max_retries svc texts = Ok vectors)
     /\ ((forall batch k vectors,
            embed_many svc batch k = Ok vectors -> length vectors = length batch) ->
         exists vectors,
           embed_batch batch_size max_retries svc texts = Ok vectors
           /\ length vectors = length texts)
     /\ ((forall batch k, exists e, embed_many svc batch k = Raise e) ->
         embed_batch batch_size max_retries svc texts
         = Ok (_embed_individually svc texts)))
  /\ (batch_size < 0 -> embed_batch batch_size max_retries svc texts = Ok [])
  /\ (batch_size = 0 -> texts <> [] ->
      exists e, embed_batch batch_size max_retries svc texts = Raise e
                /\ exn_type e = "ZeroDivisionError")
  /\ embed_batch batch_size max_retries svc [] = Ok [].
Proof.
  split; [|split; [|split]]; [| | |done].
  - intros Hsize. unfold embed_batch.
    destruct texts as [|t texts]; [by eauto 10|].
    destruct (Z.eqb_spec batch_size 0); [lia|].
    destruct (Z.ltb_spec batch_size 0); [lia|].
    set (all := t :: texts).
    assert (Hcat : concat (slices (length all) (Z.to_nat batch_size) all) = all)
      by (apply slices_concat; lia).
    split; [by eauto|]. split.
    + intros Hsvc. eexists. split; [done|].
      assert (Hlen : forall ls,
                 length (concat (embed_slice max_retries svc <$> ls))
                 = length (concat ls)).
      { induction ls as [|l ls IH]; [done|].
        rewrite fmap_cons. cbn [concat]. rewrite !length_app, IH. f_equal.
        apply embed_slice_length. intros k vectors. apply Hsvc. }
      by rewrite Hlen, Hcat.
    + intros Hsvc. f_equal.
      transitivity (_embed_individually svc
                      (concat (slices (length all) (Z.to_nat batch_size) all)));
        [|by rewrite Hcat].
      rewrite <- embed_individually_concat. f_equal.
      apply list_fmap_ext. intros i batch _. by apply embed_slice_fallback.
  - intros Hsize. unfold embed_batch. destruct texts; [done|].
    destruct (Z.eqb_spec batch_size 0); [lia|].
    by destruct (Z.ltb_spec batch_size 0); [|lia].
  - intros -> Hne. destruct texts; [done|]. simpl. by eexists.
Qed.

Lemma embed_batch_spec_witness :
  let svc := {| embed_many := fun batch _ => Ok ((fun _ => Some [1%Q]) <$> batch);
                embed_one := fun _ => Ok (Some [1%Q]) |} in
  exists vectors,
    embed_batch 2 3 svc ["a"; "b"; "c"] = Ok vectors
    /\ length vectors = length ["a"; "b"; "c"].
Proof.
  intros svc.
  destruct (embed_batch_spec 2 3 svc ["a"; "b"; "c"]) as [H _].
  destruct H as (_ & H & _); [lia|].
  apply H. intros batch k vectors Hk. injection Hk as <-. by rewrite length_fmap.
Defined.

End EmbedBatchFacts.

(** ** The sleeps of the rate limiter *)

Section RateLimiterSleepFacts.
Import Text Exn BatchEmbedder.

Lemma acquire_sleep_bound (rl : RateLimiter) (history : list Z)
    (last now recorded : Z) (a : acquired) :
  limiter_inv rl history last -> last <= now ->
  acquire rl now recorded = Ok a ->
  0 <= slept a <= Z.max 0 (time_window rl)
  /\ Z.of_nat (length (request_times (limiter a))) <= rate_limit rl.
Proof.
  intros [forgotten Hhist Hforg Hpast Hlen Hwin] Hnow. unfold acquire.
  destruct (expire_split (now - time_window rl) (request_times rl))
    as (expired & Hq & Hexp).
  pose proof (expire_length (now - time_window rl) (request_times rl)) as Hle.
  set (q := expire (now - time_window rl) (request_times rl)) in *.
  destruct (Z.geb_spec (Z.of_nat (length q)) (rate_limit rl)) as [Hfull|Hroom].
  - destruct q as [|oldest q'] eqn:Eq; [done|].
    intros [= <-]. simpl.
    assert (Hold : oldest <= last).
    { rewrite Hhist, Hq in Hpast.
      apply Forall_app in Hpast as [_ Hpast].
      apply Forall_app in Hpast as [_ Hpast].
      by apply Forall_cons in Hpast as [? _]. }
    split.
    + destruct (Z.gtb_spec (oldest + time_window rl - now) 0); lia.
    + rewrite length_app. simpl in *. lia.
  - intros [= <-]. simpl. split; [lia|]. rewrite length_app. simpl. lia.
Qed.

Lemma acquire_all_sleeps (readings : list (Z * Z)) :
  forall (rl : RateLimiter) (history : list Z) (last : Z),
    1 <= rate_limit rl ->
    limiter_inv rl history last -> clock_ok rl last readings ->
    exists rl' sleeps,
      acquire_all rl readings = Ok (rl', readings.*2, sleeps)
      /\ Forall (fun s => 0 <= s <= Z.max 0 (time_window rl)) sleeps
      /\ Z.of_nat (length (request_times rl')) <= rate_limit rl.
Proof.
  induction readings as [|[now recorded] rest IH];
    intros rl history last Hrate Hinv Hclock.
  - exists rl, []. split; [done|]. split; [done|]. by destruct Hinv.
  - simpl in Hclock. destruct Hclock as [Hnow Hclock].
    destruct (acquire_inv rl history last now recorded Hrate Hinv Hnow)
      as (a & Ha & _ & Hr & Hw & Hstep).
    destruct (acquire_sleep_bound rl history last now recorded a Hinv Hnow Ha)
      as [Hslept _].
    rewrite Ha in Hclock. destruct Hclock as [Hsleep Hclock].
    destruct (IH (limiter a) (history ++ [recorded]) recorded)
      as (rl' & sl & Hrun & Hsl & Hlen); [lia | by apply Hstep | done |].
    exists rl', (slept a :: sl). simpl. rewrite Ha, Hrun.
    split; [done|]. rewrite Hw, Hr in *. split; [by constructor | done].
Qed.

(** X7: a limiter built with [rate_limit <= 0] raises [IndexError] at
    its first [acquire]: it reads the head of an empty deque.  With
    [rate_limit >= 1], under a clock that does not go back and sleeps
    that last as long as asked, every request is admitted after a sleep
    of at most one window, and the limiter never remembers more than
    [rate_limit] requests. *)
Theorem rate_limiter_sleeps (limit window start : Z) (readings : list (Z * Z)) :
  (limit <= 0 ->
   forall now recorded,
     acquire (new_limiter limit window) now recorded = Raise IndexError)
  /\ (1 <= limit ->
      clock_ok (new_limiter limit window) start readings ->
      exists rl' sleeps,
        acquire_all (new_limiter limit window) readings
        = Ok (rl', readings.*2, sleeps)
        /\ Forall (fun s => 0 <= s <= Z.max 0 window) sleeps
        /\ Z.of_nat (length (request_times rl')) <= limit).
Proof.
  split.
  - intros Hlimit now recorded. unfold acquire, new_limiter.
    destruct limit; [done | lia | done].
  - intros Hlimit Hclock.
    apply (acquire_all_sleeps readings (new_limiter limit window) [] start);
      [done| |done].
    apply (LimiterInv _ _ _ []); simpl; try done; lia.
Qed.

Lemma rate_limiter_sleeps_witness :
  acquire (new_limiter 0 1000000) 5 5 = Raise IndexError
  /\ exists rl' sleeps,
       acquire_all (new_limiter 1 1000000) [(0, 0); (10, 1000000)]
       = Ok (rl', [0; 1000000], sleeps)
       /\ Forall (fun s => 0 <= s <= Z.max 0 1000000) sleeps
       /\ Z.of_nat (length (request_times rl')) <= 1.
Proof.
  split.
  - apply (proj1 (rate_limiter_sleeps 0 1000000 0 [])). lia.
  - apply (proj2 (rate_limiter_sleeps 1 1000000 0 [(0, 0); (10, 1000000)]));
      [lia | simpl; lia].
Defined.

End RateLimiterSleepFacts.

(** ** The circuit breaker over any sequence of calls *)

Section CircuitBreakerRuns.
Import Text Exn ErrorHandler.
Context {A : Type}.

Lemma call_settings (cb : CircuitBreaker) (now : Z) (func : guarded A) :
  settings (call cb now func).1 = settings cb.
Proof.
  unfold settings, call. destruct (state cb) eqn:Hs.
  - destruct (run_func func); unfold _on_success, _on_failure; simpl;
      rewrite Hs; simpl; [done|]. by case_match.
  - destruct (match last_failure_time cb with
              | Some t => now - t >? timeout cb
              | None => false
              end); [|done].
    simpl. destruct (0 >=? half_open_max_calls cb); [done|].
    by destruct (run_func func).
  - destruct (half_open_calls cb >=? half_open_max_calls cb); [done|].
    destruct (run_func func); unfold _on_success, _on_failure; simpl;
      by rewrite Hs.
Qed.

Lemma call_settled (cb : CircuitBreaker) (now : Z) (func : guarded A) :
  1 <= failure_threshold cb -> 1 <= half_open_max_calls cb ->
  settled cb -> settled (call cb now func).1.
Proof.
  intros Hth Hmax Hset. unfold settled in Hset. unfold call.
  destruct (state cb) eqn:Hs; [| |done].
  - destruct (run_func func) as [v|e]; simpl.
    + unfold settled, _on_success. simpl. repeat (rewrite Hs; simpl). lia.
    + unfold settled, _on_failure. simpl. repeat (rewrite Hs; simpl).
      destruct (Z.geb_spec (failure_count cb + 1) (failure_threshold cb));
        simpl; rewrite ?Hs; [by eauto | lia].
  - destruct Hset as [t Ht]. rewrite Ht.
    destruct (now - t >? timeout cb);
      [|simpl; unfold settled; rewrite Hs; by eauto].
    simpl. destruct (Z.geb_spec 0 (half_open_max_calls cb)); [lia|].
    destruct (run_func func) as [v|e]; simpl.
    + unfold settled, _on_success. simpl. lia.
    + unfold settled, _on_failure. simpl. by eauto.
Qed.

Lemma call_outcome (cb : CircuitBreaker) (now : Z) (func : guarded A) :
  (call cb now func).2 = run_func func
  \/ (rejected (call cb now func).2
      /\ failure_count (call cb now func).1 = failure_count cb
      /\ last_failure_time (call cb now func).1 = last_failure_time cb
      /\ state (call cb now func).1 <> CLOSED).
Proof.
  assert (Hhalf : rejected (A:=A)
            (Raise (CircuitBreakerOpenError
               "Circuit breaker is HALF_OPEN. Test call already in progress."))).
  { eexists. split; [done|]. split; [done|]. apply classify_half_open_message. }
  unfold call. destruct (state cb) eqn:Hs.
  - left. by destruct (run_func func).
  - destruct (match last_failure_time cb with
              | Some t => now - t >? timeout cb
              | None => false
              end).
    + simpl. destruct (0 >=? half_open_max_calls cb).
      * right. simpl. by repeat split.
      * left. by destruct (run_func func).
    + right. simpl. rewrite Hs. repeat split; try done.
      eexists. split; [done|]. split; [done|]. apply classify_open_message.
  - destruct (half_open_calls cb >=? half_open_max_calls cb).
    + right. simpl. rewrite Hs. by repeat split.
    + left. by destruct (run_func func).
Qed.

Lemma calls_in_a_row_settled (calls : list (Z * guarded A)) :
  forall cb : CircuitBreaker,
    1 <= failure_threshold cb -> 1 <= half_open_max_calls cb -> settled cb ->
    settled (calls_in_a_row cb calls)
    /\ settings (calls_in_a_row cb calls) = settings cb.
Proof.
  induction calls as [|[now func] rest IH]; intros cb Hth Hmax Hset; [done|].
  simpl. pose proof (call_settings cb now func) as Hpar.
  destruct (IH (call cb now func).1) as [H1 H2].
  - unfold settings in Hpar. congruence.
  - unfold settings in Hpar. congruence.
  - by apply call_settled.
  - split; [done | congruence].
Qed.

(** X8: a breaker made with a threshold and a Half-Open allowance of at
    least one, and called any number of times, one call after the other,
    keeps its settings and is never left Half-Open; while Closed it has
    counted fewer failures than the threshold, and while Open it holds
    the time of the last failure.  Every call either does what the
    function does (its value, or its exception) or is rejected with the
    exception of the category [circuit_breaker], and a rejected call
    counts no failure and does not close the circuit. *)
Theorem circuit_breaker_runs (threshold timeout_us half_open_max : Z)
    (calls : list (Z * guarded A)) :
  1 <= threshold -> 1 <= half_open_max ->
  let cb := calls_in_a_row (new_breaker threshold timeout_us half_open_max) calls in
  settled cb
  /\ settings cb = (threshold, timeout_us, half_open_max)
  /\ forall now (func : guarded A),
       (call cb now func).2 = run_func func
       \/ (rejected (call cb now func).2
           /\ failure_count (call cb now func).1 = failure_count cb
           /\ last_failure_time (call cb now func).1 = last_failure_time cb
           /\ state (call cb now func).1 <> CLOSED).
Proof.
  intros Hth Hmax cb.
  destruct (calls_in_a_row_settled calls
              (new_breaker threshold timeout_us half_open_max)) as [H1 H2];
    [done | done | unfold settled; simpl; lia |].
  split; [done|]. split; [done|]. intros now func. apply call_outcome.
Qed.

End CircuitBreakerRuns.

Lemma circuit_breaker_runs_witness :
  let failing : Z * ErrorHandler.guarded unit :=
    (0, {| ErrorHandler.run_func :=
             Exn.Raise {| Exn.exn_type := "DatabaseError"; Exn.exn_msg := "down" |};
           ErrorHandler.failed_at := 1 |}) in
  ErrorHandler.settled
    (ErrorHandler.calls_in_a_row (ErrorHandler.new_breaker 2 300000000 1)
       [failing; failing; failing]).
Proof.
  intros failing.
  apply (circuit_breaker_runs 2 300000000 1 [failing; failing; failing]); lia.
Defined.

(** ** A breaker without a Half-Open allowance *)

Section CircuitBreakerStuck.
Import Text Exn ErrorHandler.
Context {A : Type}.

Lemma call_stuck (cb : CircuitBreaker) (now : Z) (func : guarded A) :
  half_open_max_calls cb <= 0 -> state cb = HALF_OPEN -> half_open_calls cb = 0 ->
  call cb now func
  = (cb, Raise (CircuitBreakerOpenError
                  "Circuit breaker is HALF_OPEN. Test call already in progress.")).
Proof.
  intros Hmax Hs Hcalls. unfold call. rewrite Hs, Hcalls.
  by destruct (Z.geb_spec 0 (half_open_max_calls cb)); [|lia].
Qed.

(** X9: a breaker whose Half-Open allowance is zero or less never
    recovers once it is Open: the first call made more than [timeout]
    after the last failure moves it to Half-Open and is rejected without
    the function being run, and from then on every call, whenever it is
    made, is rejected in the same way and leaves the breaker as it is. *)
Theorem circuit_breaker_never_recovers (cb : CircuitBreaker) (now t : Z)
    (func : guarded A) :
  half_open_max_calls cb <= 0 ->
  state cb = OPEN -> last_failure_time cb = Some t -> timeout cb < now - t ->
  let cb1 := (call cb now func).1 in
  rejected (call cb now func).2
  /\ state cb1 = HALF_OPEN
  /\ forall (calls : list (Z * guarded A)),
       calls_in_a_row cb1 calls = cb1
       /\ forall now' (func' : guarded A),
            rejected (call cb1 now' func').2 /\ (call cb1 now' func').1 = cb1.
Proof.
  intros Hmax Hs Ht Hnow cb1.
  assert (Hhalf : rejected (A:=A)
            (Raise (CircuitBreakerOpenError
               "Circuit breaker is HALF_OPEN. Test call already in progress."))).
  { eexists. split; [done|]. split; [done|]. apply classify_half_open_message. }
  assert (Hcall : call cb now func
                  = (set_half_open_calls (set_state cb HALF_OPEN) 0,
                     Raise (CircuitBreakerOpenError
                       "Circuit breaker is HALF_OPEN. Test call already in progress."))).
  { unfold call. rewrite Hs, Ht.
    destruct (Z.gtb_spec (now - t) (timeout cb)); [|lia]. simpl.
    by destruct (Z.geb_spec 0 (half_open_max_calls cb)); [|lia]. }
  subst cb1. rewrite Hcall. simpl. split; [done|]. split; [done|].
  set (cb1 := set_half_open_calls (set_state cb HALF_OPEN) 0).
  assert (Hstuck : forall now' (func' : guarded A),
             call cb1 now' func'
             = (cb1, Raise (CircuitBreakerOpenError
                  "Circuit breaker is HALF_OPEN. Test call already in progress.")))
    by (intros; by apply call_stuck).
  intros calls. split.
  - induction calls as [|[now' func'] rest IH]; [done|].
    simpl. by rewrite Hstuck.
  - intros now' func'. by rewrite Hstuck.
Qed.

End CircuitBreakerStuck.

Lemma circuit_breaker_never_recovers_witness :
  let cb := {| ErrorHandler.failure_threshold := 1; ErrorHandler.timeout := 10;
               ErrorHandler.half_open_max_calls := 0;
               ErrorHandler.state := ErrorHandler.OPEN;
               ErrorHandler.failure_count := 1;
               ErrorHandler.last_failure_time := Some 0;
               ErrorHandler.half_open_calls := 0 |} in
  let func : ErrorHandler.guarded unit :=
    {| ErrorHandler.run_func := Exn.Ok tt; ErrorHandler.failed_at := 0 |} in
  ErrorHandler.state (ErrorHandler.call cb 100 func).1 = ErrorHandler.HALF_OPEN.
Proof.
  intros cb func.
  destruct (circuit_breaker_never_recovers (A:=unit) cb 100 0 func)
    as (_ & H & _); [simpl; lia | reflexivity | reflexivity | simpl; lia |].
  exact H.
Defined.

(** ** Retry with backoff *)

Section BackoffFacts.
Import Text Exn ErrorHandler.
Context {float A : Type} (ops : float_ops float) (config : RetryConfig float)
  (func : nat -> result A).

Lemma wrapper_spec :
  forall (fuel : nat) (n : nat),
    Z.of_nat n <= max_retries config ->
    max_retries config - Z.of_nat n < Z.of_nat fuel ->
    (forall i, (i < n)%nat -> exists e, func i = Raise e) ->
    exists r,
      wrapper ops config func fuel (Z.of_nat n) (delay_after ops config n) n
        (sleep_after ops config <$> seq 0 n) = Some r
      /\ (n < calls r)%nat
      /\ Z.of_nat (calls r) <= max_retries config + 1
      /\ delays r = sleep_after ops config <$> seq 0 (calls r - 1)
      /\ (forall i, (i < calls r - 1)%nat -> exists e, func i = Raise e)
      /\ match func (calls r - 1)%nat with
         | Ok v => returned r = Ok (Some v)
         | Raise e =>
             returned r = Raise e
             /\ Z.of_nat (calls r) = max_retries config + 1
         end.
Proof.
  induction fuel as [|fuel IH]; intros n Hn Hfuel Hprev; [lia|].
  simpl. destruct (Z.leb_spec (Z.of_nat n) (max_retries config)); [|lia].
  destruct (func n) as [v|e] eqn:Hf.
  - eexists. split; [done|]. simpl. replace (n - 0)%nat with n by lia.
    rewrite Hf. repeat split; try done; try lia.
  - destruct (Z.gtb_spec (Z.of_nat n + 1) (max_retries config)).
    + eexists. split; [done|]. simpl. replace (n - 0)%nat with n by lia.
      rewrite Hf. repeat split; try done; try lia.
    + replace (Z.of_nat n + 1) with (Z.of_nat (S n)) by lia.
      assert (Hsleep : sleep_after ops config <$> seq 0 (S n)
                       = (sleep_after ops config <$> seq 0 n)
                         ++ [if jitter config then
                               fmin ops (fmul ops (delay_after ops config n)
                                           (uniform ops n)) (max_delay config)
                             else fmin ops (delay_after ops config n)
                                    (max_delay config)])
        by (by rewrite seq_S, fmap_app).
      rewrite <- Hsleep.
      change (fmul ops (delay_after ops config n) (exponential_base config))
        with (delay_after ops config (S n)).
      destruct (IH (S n)) as (r & Hr & H1 & H2 & H3 & H4 & H5); [lia|lia| |].
      { intros i Hi. destruct (decide (i = n)) as [->|]; [eauto|].
        apply Hprev. lia. }
      exists r. repeat split; try done; try lia.
Qed.

(** X10: a function decorated with [retry_with_backoff] is called until
    it returns, and at most [max_retries + 1] times: the wrapper returns
    the value of the first call that does not raise, and raises the
    exception of the last call when all [max_retries + 1] calls raise.
    Between two calls it sleeps [min(delay, max_delay)], where [delay]
    starts at [initial_delay] and is multiplied by [exponential_base]
    after every failure (times a draw of the jitter, when it is on).
    With a negative [max_retries] the function is never called and the
    wrapper returns [None]. *)
Theorem retry_with_backoff_spec :
  (max_retries config < 0 ->
   forall fuel,
     retry_with_backoff ops config func (S fuel)
     = Some {| returned := Ok None; delays := []; calls := 0 |})
  /\ (0 <= max_retries config ->
      forall fuel,
        max_retries config < Z.of_nat fuel ->
        exists r,
          retry_with_backoff ops config func fuel = Some r
          /\ (1 <= calls r)%nat
          /\ Z.of_nat (calls r) <= max_retries config + 1
          /\ delays r = sleep_after ops config <$> seq 0 (calls r - 1)
          /\ (forall i, (i < calls r - 1)%nat -> exists e, func i = Raise e)
          /\ match func (calls r - 1)%nat with
             | Ok v => returned r = Ok (Some v)
             | Raise e =>
                 returned r = Raise e
                 /\ Z.of_nat (calls r) = max_retries config + 1
             end).
Proof.
  split.
  - intros Hneg fuel. unfold retry_with_backoff. simpl.
    by destruct (Z.leb_spec 0 (max_retries config)); [lia|].
  - intros Hpos fuel Hfuel. unfold retry_with_backoff.
    destruct (wrapper_spec fuel 0) as (r & Hr & H1 & H2 & H3 & H4 & H5);
      [simpl; lia | simpl; lia | intros; lia |].
    exists r. repeat split; try done; lia.
Qed.

End BackoffFacts.

Lemma retry_with_backoff_spec_witness :
  let ops := {| ErrorHandler.fmul := Qmult;
                ErrorHandler.fmin := fun a b => if Qle_bool a b then a else b;
                ErrorHandler.uniform := fun _ => 1%Q |} in
  let config := {| ErrorHandler.max_retries := 2;
                   ErrorHandler.initial_delay := 1%Q;
                   ErrorHandler.max_delay := 60%Q;
                   ErrorHandler.exponential_base := 2%Q;
                   ErrorHandler.jitter := false |} in
  let func := fun k : nat =>
    if (k <? 1)%nat
    then Exn.Raise {| Exn.exn_type := "TimeoutError"; Exn.exn_msg := "late" |}
    else Exn.Ok k in
  exists r, ErrorHandler.retry_with_backoff ops config func 3 = Some r
            /\ (1 <= ErrorHandler.calls r)%nat.
Proof.
  intros ops config func.
  destruct (proj2 (retry_with_backoff_spec ops config func)) with (fuel := 3%nat)
    as (r & Hr & Hcalls & _); [simpl; lia | simpl; lia |].
  exists r. by split.
Defined.

(** ** The retries of one embedding *)

Section EmbedWithRetryFacts.
Import Text Exn ErrorHandler SyncEngine SyncEngine.Decorated.

Lemma sleep_after_bounds (draws : nat -> Q) (k : nat) :
  (forall i, (1 # 2 <= draws i)%Q /\ (draws i <= 3 # 2)%Q) ->
  (k < 3)%nat ->
  (1 # 2 <= sleep_after (q_ops draws) retry_config k)%Q
  /\ (sleep_after (q_ops draws) retry_config k <= 6)%Q.
Proof.
  intros Hdraws Hk. destruct (Hdraws k) as [Hlo Hhi].
  unfold sleep_after, retry_config, delay_after, q_ops, float_min.
  cbn [jitter fmin fmul uniform max_delay initial_delay exponential_base].
  destruct k as [|[|[|k]]]; [| | |lia]; simpl Nat.iter;
    match goal with
    | |- context [Qle_bool ?a ?b] =>
        destruct (Qle_bool a b) eqn:E;
        [|assert (~ (a <= b)%Q) by (rewrite <- Qle_bool_iff; congruence)]
    end; split; lra.
Qed.

Lemma body_raises (embed : nat -> Exn.result (option embedding)) (k : nat) (e : exn) :
  body embed k = Raise e ->
  embed k = Raise e /\ is_retryable (classify e) = true.
Proof.
  unfold body. destruct (embed k) as [v|e']; [done|].
  destruct (is_retryable (classify e')) eqn:Hr; simpl; [|done].
  intros [= ->]. by rewrite Hr.
Qed.

(** X11: [_embed_with_retry] calls the embedding service at most four
    times and sleeps between two calls: at least half a second and at
    most six seconds each time, so that the limit of thirty seconds is
    never reached.  It calls again only after a failure of a retryable
    category; a failure of another category makes it return [None] at
    once, a value of the service is returned as it is, and it raises
    only the retryable failure of a fourth call. *)
Theorem embed_with_retry_spec (embed : nat -> Exn.result (option embedding))
    (draws : nat -> Q) :
  (forall i, (1 # 2 <= draws i)%Q /\ (draws i <= 3 # 2)%Q) ->
  exists r,
    _embed_with_retry embed draws = Some r
    /\ (1 <= calls r <= 4)%nat
    /\ length (delays r) = (calls r - 1)%nat
    /\ Forall (fun d => (1 # 2 <= d)%Q /\ (d <= 6)%Q) (delays r)
    /\ (forall i, (i < calls r - 1)%nat ->
          exists e, embed i = Raise e /\ is_retryable (classify e) = true)
    /\ match embed (calls r - 1)%nat with
       | Ok v => returned r = Ok (Some v)
       | Raise e =>
           if is_retryable (classify e)
           then returned r = Raise e /\ calls r = 4%nat
           else returned r = Ok (Some None)
       end.
Proof.
  intros Hdraws. unfold _embed_with_retry, retry_with_backoff.
  destruct (wrapper_spec (q_ops draws) retry_config (body embed) 4 0)
    as (r & Hr & H1 & H2 & H3 & H4 & H5);
    [simpl; lia | simpl; lia | intros; lia |].
  simpl in H2. exists r. split; [exact Hr|]. split; [lia|]. split; [|split; [|split]].
  - by rewrite H3, length_fmap, length_seq.
  - rewrite H3. apply Forall_fmap, Forall_forall. intros k Hk.
    apply elem_of_seq in Hk. simpl. apply sleep_after_bounds; [done | lia].
  - intros i Hi. destruct (H4 i Hi) as [e He]. exists e. by apply body_raises.
  - unfold body in H5. destruct (embed (calls r - 1)%nat) as [v|e]; [done|].
    destruct (is_retryable (classify e)); simpl in H5; [|done].
    destruct H5 as [H5 H6]. split; [done | lia].
Qed.

Lemma embed_with_retry_spec_witness :
  exists r,
    _embed_with_retry
      (fun k => if (k <? 2)%nat
                then Raise {| exn_type := "TimeoutError"; exn_msg := "timed out" |}
                else Ok (Some [1%Q]))
      (fun _ => 1%Q) = Some r
    /\ (1 <= calls r <= 4)%nat.
Proof.
  destruct (embed_with_retry_spec
              (fun k => if (k <? 2)%nat
                        then Raise {| exn_type := "TimeoutError";
                                      exn_msg := "timed out" |}
                        else Ok (Some [1%Q]))
              (fun _ => 1%Q)) as (r & Hr & Hcalls & _).
  - intros _. split; discriminate.
  - exists r. by split.
Defined.

End EmbedWithRetryFacts.

(** ** The state of the debouncer between two operations *)

Section DebouncerTidy.
Import Debouncer.

Lemma flush_project_none (d : DebouncerService) (p : string) :
  pending_events d !! p = None -> _flush_project d p = (d, []).
Proof. intros Hp. unfold _flush_project. by rewrite Hp. Qed.

Lemma flush_project_some (d : DebouncerService) (p : string)
    (bucket : gmap string FileEvent) :
  pending_events d !! p = Some bucket ->
  (forall k v, bucket !! k = Some v -> file_path v = k) ->
  pending_events (_flush_project d p).1 = delete p (pending_events d)
  /\ timers (_flush_project d p).1 = timers d ∖ {[p]}
  /\ max_batch_size (_flush_project d p).1 = max_batch_size d
  /\ (_flush_project d p).2 ≡ₚ (map_to_list bucket).*2.
Proof.
  intros Hp Hkeys. unfold _flush_project. rewrite Hp.
  case_decide as Hempty; simpl.
  - split_and!; try done. by rewrite Hempty, map_to_list_empty.
  - split_and!; try done. by apply deduplicate_events_bucket.
Qed.

Lemma flush_events_ext (d d' : DebouncerService) (p : string) :
  pending_events d !! p = pending_events d' !! p ->
  (_flush_project d p).2 = (_flush_project d' p).2.
Proof.
  intros Hp. unfold _flush_project. rewrite <- Hp.
  destruct (pending_events d !! p); [|done]. by case_decide.
Qed.

Lemma flush_project_max (d : DebouncerService) (p : string) :
  max_batch_size (_flush_project d p).1 = max_batch_size d.
Proof.
  unfold _flush_project. destruct (pending_events d !! p); [|done].
  by case_decide.
Qed.

Lemma flush_project_tidy (d : DebouncerService) (p : string) :
  tidy d -> tidy (_flush_project d p).1.
Proof.
  intros [Htimers Hbuckets Hcons].
  destruct (pending_events d !! p) as [bucket|] eqn:Hp;
    [|by rewrite flush_project_none].
  destruct (flush_project_some d p bucket Hp) as (Hpend & Htim & Hmax & _);
    [intros k v; by apply (Hcons p bucket)|].
  constructor.
  - by rewrite Hpend, Htim, Htimers, dom_delete_L.
  - intros q b. rewrite Hpend, Hmax. intros [_ Hq]%lookup_delete_Some.
    by apply (Hbuckets q b).
  - intros q b k v. rewrite Hpend. intros [_ Hq]%lookup_delete_Some.
    by apply (Hcons q b).
Qed.

Lemma size_insert_le (bucket : gmap string FileEvent) (k : string) (v : FileEvent) :
  (1 <= size (<[k := v]> bucket) <= S (size bucket))%nat.
Proof.
  rewrite map_size_insert. destruct (bucket !! k) as [w|] eqn:Hk; simpl; [|lia].
  assert (size bucket <> 0%nat) by (by apply (map_size_ne_0_lookup_2 _ k)).
  lia.
Qed.

Lemma add_event_tidy (d : DebouncerService) (data : event_data) :
  tidy d ->
  tidy (add_event d data).1
  /\ max_batch_size (add_event d data).1 = max_batch_size d
  /\ forall batch,
       (add_event d data).2 = Some batch ->
       max_batch_size d <= Z.of_nat (length batch)
       /\ (exists e, make_event data = Some e /\ e ∈ batch)
       /\ (1 <= max_batch_size d -> Z.of_nat (length batch) = max_batch_size d).
Proof.
  intros Htidy. assert (Htidy' := Htidy).
  destruct Htidy' as [Htimers Hbuckets Hcons].
  unfold add_event. destruct (make_event data) as [e|] eqn:He; [|done].
  cbv zeta.
  set (p := project_id e).
  set (old := default ∅ (pending_events d !! p)).
  set (bucket := <[file_path e := e]> old).
  set (d1 := {| debounce_seconds := debounce_seconds d;
                max_batch_size := max_batch_size d;
                pending_events := <[p := bucket]> (pending_events d);
                timers := timers d ∖ {[p]} |}).
  assert (Hold : forall k v, old !! k = Some v -> file_path v = k).
  { intros k v. unfold old. destruct (pending_events d !! p) as [b|] eqn:Hb; simpl.
    - by apply (Hcons p b).
    - by rewrite lookup_empty. }
  assert (Hkeys : forall k v, bucket !! k = Some v -> file_path v = k).
  { intros k v. unfold bucket. rewrite lookup_insert.
    case_decide as Hk; [intros [= <-]; congruence | apply Hold]. }
  assert (Holdsize : Z.of_nat (size old) < max_batch_size d \/ old = ∅).
  { unfold old. destruct (pending_events d !! p) as [b|] eqn:Hb; simpl.
    - left. by apply (Hbuckets p b).
    - by right. }
  pose proof (size_insert_le old (file_path e) e) as Hsize. fold bucket in Hsize.
  assert (Hne : bucket <> ∅) by apply insert_non_empty.
  destruct (Z.geb_spec (Z.of_nat (size bucket)) (max_batch_size d)) as [Hfull|Hroom].
  - assert (Hp1 : pending_events d1 !! p = Some bucket)
      by (simpl; apply lookup_insert_eq).
    destruct (flush_project_some d1 p bucket Hp1 Hkeys)
      as (Hpend & Htim & Hmax & Hperm).
    destruct (_flush_project d1 p) as [d2 events] eqn:Hflush. simpl in *.
    assert (Hlen : length events = size bucket).
    { rewrite Hperm, length_fmap. apply length_map_to_list. }
    split; [|split; [done|]].
    + constructor.
      * rewrite Hpend, Htim, Htimers, delete_insert_eq, dom_delete_L.
        apply set_eq. intros x.
        rewrite !elem_of_difference, elem_of_singleton. tauto.
      * intros q b. rewrite Hpend, Hmax, delete_insert_eq.
        intros [_ Hq]%lookup_delete_Some. by apply (Hbuckets q b).
      * intros q b k v. rewrite Hpend, delete_insert_eq.
        intros [_ Hq]%lookup_delete_Some. by apply (Hcons q b).
    + intros batch [= <-]. split; [lia|]. split.
      * exists e. split; [done|]. rewrite Hperm.
        apply list_elem_of_fmap. exists (file_path e, e). split; [done|].
        apply elem_of_map_to_list. unfold bucket. apply lookup_insert_eq.
      * intros Hmax1. rewrite Hlen.
        destruct Holdsize as [Hlt | ->]; [lia|].
        unfold bucket in *. rewrite map_size_insert_None in * by done.
        rewrite map_size_empty in *. lia.
  - simpl. split; [|split; [done|done]].
    constructor; unfold d1; simpl.
    + rewrite Htimers, dom_insert_L. apply set_eq. intros x.
      rewrite !elem_of_union, elem_of_difference, elem_of_singleton.
      destruct (decide (x = p)); tauto.
    + intros q b. rewrite lookup_insert. case_decide.
      * intros [= <-]. split; [done | lia].
      * apply Hbuckets.
    + intros q b k v. simpl. rewrite lookup_insert. case_decide.
      * intros [= <-]. apply Hkeys.
      * by apply (Hcons q b).
Qed.

Lemma new_debouncer_tidy (seconds : Q) (size_limit : Z) :
  tidy (new_debouncer seconds size_limit).
Proof.
  constructor; unfold new_debouncer.
  - cbn [timers pending_events]. by rewrite dom_empty_L.
  - intros p b. cbn [pending_events]. by rewrite lookup_empty.
  - intros p b k v. cbn [pending_events]. by rewrite lookup_empty.
Qed.

Lemma flush_events_nonempty (d : DebouncerService) (p : string)
    (bucket : gmap string FileEvent) :
  tidy d -> pending_events d !! p = Some bucket -> (_flush_project d p).2 <> [].
Proof.
  intros [_ Hbuckets Hcons] Hp.
  destruct (flush_project_some d p bucket Hp) as (_ & _ & _ & Hperm);
    [intros k v; by apply (Hcons p bucket)|].
  intros E. rewrite E in Hperm. symmetry in Hperm.
  apply Permutation_nil_r, fmap_nil_inv, map_to_list_empty_iff in Hperm.
  by destruct (Hbuckets p bucket Hp).
Qed.

Lemma flush_all_step_spec (st : DebouncerService * gmap string (list FileEvent))
    (k : string) :
  tidy st.1 ->
  tidy (flush_all_step st k).1
  /\ max_batch_size (flush_all_step st k).1 = max_batch_size st.1
  /\ (forall p, pending_events (flush_all_step st k).1 !! p
                = if decide (p = k) then None else pending_events st.1 !! p)
  /\ (forall p, (flush_all_step st k).2 !! p
                = if decide (p = k) then
                    match pending_events st.1 !! p with
                    | Some _ => Some (_flush_project st.1 p).2
                    | None => st.2 !! p
                    end
                  else st.2 !! p).
Proof.
  intros Htidy. unfold flush_all_step.
  pose proof (flush_project_tidy st.1 k Htidy) as Htidy'.
  pose proof (flush_project_max st.1 k) as Hmax.
  destruct (pending_events st.1 !! k) as [bucket|] eqn:Hk.
  - pose proof (flush_events_nonempty st.1 k bucket Htidy Hk) as Hne.
    destruct (flush_project_some st.1 k bucket Hk) as (Hpend & _ & _ & _);
      [destruct Htidy as [_ _ Hcons]; intros f v; by apply (Hcons k bucket)|].
    destruct (_flush_project st.1 k) as [d' events] eqn:Hflush. simpl in *.
    destruct events as [|e events]; [done|].
    split; [done|]. split; [done|]. split.
    + intros p. rewrite Hpend. case_decide as Hp.
      * subst p. apply lookup_delete_eq.
      * by apply lookup_delete_ne.
    + intros p. simpl. rewrite lookup_insert. case_decide as Hp.
      * subst p. rewrite decide_True by done. by rewrite Hk, Hflush.
      * by rewrite decide_False by done.
  - rewrite flush_project_none by done. simpl.
    split; [done|]. split; [done|]. split.
    + intros p. case_decide; [by subst p | done].
    + intros p. case_decide; [subst p; by rewrite Hk | done].
Qed.

Lemma flush_all_fold (ks : list string) :
  NoDup ks ->
  forall st : DebouncerService * gmap string (list FileEvent),
    tidy st.1 ->
    tidy (foldl flush_all_step st ks).1
    /\ max_batch_size (foldl flush_all_step st ks).1 = max_batch_size st.1
    /\ (forall p, pending_events (foldl flush_all_step st ks).1 !! p
                  = if decide (p ∈ ks) then None else pending_events st.1 !! p)
    /\ (forall p, (foldl flush_all_step st ks).2 !! p
                  = if decide (p ∈ ks) then
                      match pending_events st.1 !! p with
                      | Some _ => Some (_flush_project st.1 p).2
                      | None => st.2 !! p
                      end
                    else st.2 !! p).
Proof.
  induction 1 as [|k ks Hk Hnd IH]; intros st Htidy.
  - cbn [foldl]. split; [done|]. split; [done|].
    split; intros p; by rewrite decide_False by apply not_elem_of_nil.
  - cbn [foldl].
    destruct (flush_all_step_spec st k Htidy) as (Ht1 & Hm1 & Hp1 & Hr1).
    destruct (IH (flush_all_step st k) Ht1) as (Ht2 & Hm2 & Hp2 & Hr2).
    split; [done|]. split; [congruence|]. split.
    + intros p. rewrite Hp2, Hp1.
      destruct (decide (p ∈ ks)) as [Hin|Hin].
      * rewrite decide_True; [done|]. by apply list_elem_of_further.
      * destruct (decide (p = k)) as [->|Hne].
        -- rewrite decide_True; [done|]. apply list_elem_of_here.
        -- rewrite decide_False; [done|]. by intros [?|?]%elem_of_cons.
    + intros p. rewrite Hr2, Hp1, Hr1.
      destruct (decide (p ∈ ks)) as [Hin|Hin].
      * rewrite (decide_True (P := p ∈ k :: ks)) by (by apply list_elem_of_further).
        assert (Hne : p <> k) by (intros ->; done).
        rewrite !decide_False by done.
        rewrite (flush_events_ext (flush_all_step st k).1 st.1 p); [done|].
        by rewrite Hp1, decide_False.
      * destruct (decide (p = k)) as [->|Hne].
        -- rewrite decide_True; [done|]. apply list_elem_of_here.
        -- rewrite decide_False; [done|]. by intros [?|?]%elem_of_cons.
Qed.

Lemma perform_tidy (d : DebouncerService) (op : operation) :
  tidy d ->
  tidy (perform d op) /\ max_batch_size (perform d op) = max_batch_size d.
Proof.
  intros Htidy. destruct op as [data|p|]; simpl.
  - destruct (add_event_tidy d data Htidy) as (H1 & H2 & _). by split.
  - split; [by apply flush_project_tidy | apply flush_project_max].
  - unfold flush_all.
    destruct (flush_all_fold (map_to_list (pending_events d)).*1
                (NoDup_fst_map_to_list _) (d, ∅) Htidy) as (H1 & H2 & _).
    by split.
Qed.

Lemma perform_all_tidy (ops : list operation) :
  forall d : DebouncerService,
    tidy d ->
    tidy (foldl perform d ops)
    /\ max_batch_size (foldl perform d ops) = max_batch_size d.
Proof.
  induction ops as [|op ops IH]; intros d Htidy; [done|]. simpl.
  destruct (perform_tidy d op Htidy) as [H1 H2].
  destruct (IH (perform d op) H1) as [H3 H4]. split; [done | congruence].
Qed.

(** X12: whatever events are added and whatever flushes are asked, in
    whatever order, the service is left with a running timer exactly for
    the projects that have pending events, with no bucket empty and none
    that has reached [max_batch_size], and with every event filed under
    its path.  When an addition flushes, the batch holds the event just
    added and at least [max_batch_size] events; it holds exactly that
    many when [max_batch_size] is at least one. *)
Theorem debouncer_stays_tidy (seconds : Q) (size_limit : Z) (ops : list operation) :
  let d := foldl perform (new_debouncer seconds size_limit) ops in
  tidy d
  /\ max_batch_size d = size_limit
  /\ forall data batch,
       (add_event d data).2 = Some batch ->
       size_limit <= Z.of_nat (length batch)
       /\ (exists e, make_event data = Some e /\ e ∈ batch)
       /\ (1 <= size_limit -> Z.of_nat (length batch) = size_limit).
Proof.
  intros d.
  destruct (perform_all_tidy ops (new_debouncer seconds size_limit)
              (new_debouncer_tidy seconds size_limit)) as [Htidy Hmax].
  fold d in Htidy, Hmax. simpl in Hmax.
  split; [done|]. split; [done|]. intros data batch Hbatch.
  destruct (add_event_tidy d data Htidy) as (_ & _ & H).
  rewrite <- Hmax. by apply H.
Qed.

Lemma debouncer_stays_tidy_witness :
  let d := foldl perform (new_debouncer 2 1) [Flush "p"] in
  exists batch,
    (add_event d (to_data (sample_event 1))).2 = Some batch
    /\ Z.of_nat (length batch) = 1.
Proof.
  intros d. exists [sample_event 1].
  assert (H : (add_event d (to_data (sample_event 1))).2 = Some [sample_event 1])
    by (vm_compute; reflexivity).
  split; [exact H|].
  destruct (debouncer_stays_tidy 2 1 [Flush "p"]) as (_ & _ & Hbatch).
  destruct (Hbatch _ _ H) as (_ & _ & Hlen). apply Hlen. lia.
Defined.

(** X13: [flush_all] on a service in that state leaves nothing pending
    and no timer running, and returns for every project that had pending
    events what [flush] returns for it, and nothing for the others;
    afterwards [get_pending_count] is zero. *)
Theorem flush_all_spec (d : DebouncerService) :
  tidy d ->
  pending_events (flush_all d).1 = ∅
  /\ timers (flush_all d).1 = ∅
  /\ (forall p, (flush_all d).2 !! p
                = (fun _ => (flush d p).2) <$> pending_events d !! p)
  /\ get_pending_count (flush_all d).1 None = 0.
Proof.
  intros Htidy. unfold flush_all.
  set (ks := (map_to_list (pending_events d)).*1).
  assert (Hks : forall p, p ∈ ks <-> is_Some (pending_events d !! p)).
  { intros p. unfold ks. rewrite list_elem_of_fmap. split.
    - intros ([k b] & -> & Hin). apply elem_of_map_to_list in Hin. by eexists.
    - intros [b Hb]. exists (p, b). split; [done|]. by apply elem_of_map_to_list. }
  destruct (flush_all_fold ks (NoDup_fst_map_to_list _) (d, ∅) Htidy)
    as (Ht & _ & Hpend & Hres).
  assert (Hempty : pending_events (foldl flush_all_step (d, ∅) ks).1 = ∅).
  { apply map_eq. intros p. rewrite Hpend, lookup_empty. simpl.
    case_decide as Hin; [done|].
    destruct (pending_events d !! p) eqn:Hp; [|done].
    exfalso. apply Hin, Hks. by eexists. }
  split; [done|]. split; [|split].
  - destruct Ht as [Htimers _ _]. by rewrite Htimers, Hempty, dom_empty_L.
  - intros p. rewrite Hres. simpl. case_decide as Hin.
    + apply Hks in Hin as [b Hb]. by rewrite Hb.
    + rewrite lookup_empty. destruct (pending_events d !! p) eqn:Hp; [|done].
      exfalso. apply Hin, Hks. by eexists.
  - unfold get_pending_count. by rewrite Hempty, map_to_list_empty.
Qed.

Lemma flush_all_spec_witness :
  pending_events
    (flush_all (add_event (new_debouncer 2 50) (to_data (sample_event 1))).1).1
  = ∅.
Proof.
  apply (flush_all_spec (add_event (new_debouncer 2 50) (to_data (sample_event 1))).1).
  apply (perform_tidy (new_debouncer 2 50) (AddEvent (to_data (sample_event 1)))).
  apply new_debouncer_tidy.
Defined.

(** X14: a flush returns every pending event of the project once, none
    lost and none twice, and takes the project out of the service with
    its timer; the other projects keep their events, and a second flush
    of the project returns nothing and changes nothing. *)
Theorem flush_drains_the_project (d : DebouncerService) (p : string)
    (bucket : gmap string FileEvent) :
  consistent d ->
  pending_events d !! p = Some bucket ->
  (flush d p).2 ≡ₚ (map_to_list bucket).*2
  /\ pending_events (flush d p).1 !! p = None
  /\ (p ∉ timers (flush d p).1)
  /\ (forall q, q <> p ->
        pending_events (flush d p).1 !! q = pending_events d !! q)
  /\ flush (flush d p).1 p = ((flush d p).1, []).
Proof.
  intros Hcons Hp. unfold flush.
  destruct (flush_project_some d p bucket Hp) as (Hpend & Htim & _ & Hperm);
    [intros k v; by apply (Hcons p bucket)|].
  assert (Hnone : pending_events (_flush_project d p).1 !! p = None)
    by (rewrite Hpend; apply lookup_delete_eq).
  split; [done|]. split; [done|]. split; [|split].
  - rewrite Htim. rewrite elem_of_difference, elem_of_singleton. tauto.
  - intros q Hq. rewrite Hpend. by apply lookup_delete_ne.
  - by apply flush_project_none.
Qed.

Lemma flush_drains_the_project_witness :
  let d := (add_event (new_debouncer 2 50) (to_data (sample_event 1))).1 in
  flush (flush d "p").1 "p" = ((flush d "p").1, []).
Proof.
  intros d.
  apply (flush_drains_the_project d "p" {["/p/a.py" := sample_event 1]}).
  - destruct (perform_tidy (new_debouncer 2 50)
                (AddEvent (to_data (sample_event 1)))
                (new_debouncer_tidy 2 50)) as [[_ _ Hcons] _].
    exact Hcons.
  - vm_compute. reflexivity.
Defined.

End DebouncerTidy.

(** ** Insertion in batches *)

Section InsertChunksFacts.
Import Text Exn SyncEngine.

Lemma rows_from_app (n : nat) (a b : list Chunk) :
  rows_from n (a ++ b) = rows_from n a ++ rows_from (n + length a) b.
Proof.
  revert n. induction a as [|c a IH]; intros n; simpl.
  - by rewrite Nat.add_0_r.
  - rewrite IH. by replace (S n + length a)%nat with (n + S (length a))%nat by lia.
Qed.

Lemma insert_rows (chunks : list Chunk) :
  forall db : Db,
    foldl insert_row db chunks
    = {| knowledge_chunks := knowledge_chunks db ++ rows_from (inserted db) chunks;
         inserted := inserted db + length chunks |}.
Proof.
  induction chunks as [|c chunks IH]; intros db; simpl.
  - rewrite app_nil_r, Nat.add_0_r. by destruct db.
  - rewrite IH. simpl. rewrite <- app_assoc. simpl. f_equal. lia.
Qed.

Lemma insert_batches (bs : list (list Chunk)) :
  forall db : Db,
    foldl (fun db batch => foldl insert_row db batch) db bs
    = {| knowledge_chunks :=
           knowledge_chunks db ++ rows_from (inserted db) (concat bs);
         inserted := inserted db + length (concat bs) |}.
Proof.
  induction bs as [|batch bs IH]; intros db; simpl.
  - rewrite app_nil_r, Nat.add_0_r. by destruct db.
  - rewrite IH, insert_rows. simpl.
    rewrite rows_from_app, length_app, <- app_assoc. f_equal. lia.
Qed.

Lemma batches_spec (fuel : nat) :
  forall chunks : list Chunk,
    (length chunks <= fuel)%nat ->
    concat (batches fuel chunks) = chunks
    /\ Forall (fun batch => (1 <= length batch <= BATCH_SIZE)%nat)
         (batches fuel chunks).
Proof.
  induction fuel as [|fuel IH]; intros chunks Hlen.
  - destruct chunks; [done | simpl in Hlen; lia].
  - destruct chunks as [|c chunks]; [done|].
    cbn [batches concat].
    destruct (IH (drop BATCH_SIZE (c :: chunks))) as [Hcat Hall].
    { rewrite length_drop. unfold BATCH_SIZE. simpl in *. lia. }
    rewrite Hcat. split; [apply take_drop|].
    constructor; [|done]. rewrite length_take. unfold BATCH_SIZE.
    cbn [length]. lia.
Qed.

(** X15: [_insert_chunks] stores every chunk once and in the order of
    the list, after the rows already there: the batches it sends are
    the list cut in pieces of one to fifty chunks, none left out and
    none sent twice. *)
Theorem insert_chunks_appends (db : Db) (chunks : list Chunk) :
  _insert_chunks db chunks
  = {| knowledge_chunks := knowledge_chunks db ++ rows_from (inserted db) chunks;
       inserted := inserted db + length chunks |}
  /\ concat (batches (length chunks) chunks) = chunks
  /\ Forall (fun batch => (1 <= length batch <= BATCH_SIZE)%nat)
       (batches (length chunks) chunks).
Proof.
  destruct (batches_spec (length chunks) chunks) as [Hcat Hall]; [done|].
  split; [|done]. unfold _insert_chunks. destruct chunks as [|c chunks].
  - simpl. rewrite app_nil_r, Nat.add_0_r. by destruct db.
  - rewrite insert_batches. by rewrite Hcat.
Qed.

End InsertChunksFacts.

(** ** The chunk objects of a file *)

Section ChunkObjectsFacts.
Import Text Exn SyncEngine.

Lemma usable_Some (e : option embedding) (v : embedding) :
  usable e = Some v -> v <> [].
Proof. destruct e as [[|x e]|]; simpl; [done| |done]. by intros [= <-]. Qed.

Lemma indexed_from_le (chunks : list Chunk) (idx idx' : Z) :
  idx' <= idx -> indexed_from idx chunks -> indexed_from idx' chunks.
Proof.
  destruct chunks as [|c chunks]; [done|]. simpl. intros ? [? ?].
  split; [lia|done].
Qed.

Lemma chunk_object_built (env : environment)
    (source file base hash_of_file lang : string) (idx : Z)
    (code_chunk : Chunker.CodeChunk) (v : embedding) :
  v <> [] ->
  built_for env source file hash_of_file
    (chunk_object env source file base hash_of_file lang idx code_chunk v).
Proof. intros Hv. unfold built_for. simpl. by repeat split. Qed.

Lemma chunk_objects_spec (env : environment)
    (source file base hash_of_file lang : string)
    (pairs : list (Chunker.CodeChunk * option embedding)) :
  forall idx : Z,
    let chunks := chunk_objects env source file base hash_of_file lang idx pairs in
    Forall (built_for env source file hash_of_file) chunks
    /\ (content <$> chunks) `sublist_of` (Chunker.content <$> pairs.*1)
    /\ indexed_from idx chunks.
Proof.
  induction pairs as [|[code_chunk e] pairs IH]; intros idx; [done|].
  destruct (IH (idx + 1)) as (Hall & Hsub & Hidx). cbn zeta.
  cbn [chunk_objects]. destruct (usable e) as [v|] eqn:He.
  - split; [|split].
    + constructor; [|done]. apply chunk_object_built. by eapply usable_Some.
    + rewrite !fmap_cons. simpl. by apply sublist_skip.
    + simpl. split; [lia | done].
  - split; [done|]. split.
    + rewrite !fmap_cons. by apply sublist_cons.
    + by apply (indexed_from_le _ (idx + 1)); [lia|].
Qed.

Lemma chunk_objects_individually_spec (env : environment)
    (source file base hash_of_file lang : string)
    (code_chunks : list Chunker.CodeChunk) :
  forall idx : Z,
    let chunks := _chunk_and_embed_file_individually env source file base
                    hash_of_file lang idx code_chunks in
    Forall (built_for env source file hash_of_file) chunks
    /\ (content <$> chunks) `sublist_of` (Chunker.content <$> code_chunks)
    /\ indexed_from idx chunks.
Proof.
  induction code_chunks as [|code_chunk code_chunks IH]; intros idx; [done|].
  destruct (IH (idx + 1)) as (Hall & Hsub & Hidx). cbn zeta.
  cbn [_chunk_and_embed_file_individually].
  assert (Hskip :
    Forall (built_for env source file hash_of_file)
      (_chunk_and_embed_file_individually env source file base hash_of_file lang
         (idx + 1) code_chunks)
    /\ (content <$> _chunk_and_embed_file_individually env source file base
                      hash_of_file lang (idx + 1) code_chunks)
       `sublist_of` (Chunker.content <$> code_chunk :: code_chunks)
    /\ indexed_from idx
         (_chunk_and_embed_file_individually env source file base hash_of_file
            lang (idx + 1) code_chunks)).
  { split; [done|]. split.
    - rewrite fmap_cons. by apply sublist_cons.
    - by apply (indexed_from_le _ (idx + 1)); [lia|]. }
  destruct (_embed_with_retry env (Chunker.content code_chunk)) as [e|err];
    [|done].
  destruct (usable e) as [v|] eqn:He; [|done].
  split; [|split].
  - constructor; [|done]. apply chunk_object_built. by eapply usable_Some.
  - rewrite !fmap_cons. simpl. by apply sublist_skip.
  - simpl. split; [lia | done].
Qed.

Lemma zip_fst_sublist {A B} (l : list A) (k : list B) :
  (zip l k).*1 `sublist_of` l.
Proof.
  revert k. induction l as [|x l IH]; intros k; [done|].
  destruct k as [|y k]; simpl.
  - apply sublist_nil_l.
  - apply sublist_skip, IH.
Qed.

(** X16: [_chunk_and_embed_file] returns no chunk for a file it cannot
    read or decode, and raises only when the file cannot be hashed.
    Every chunk object it returns names the source, the file and the
    hash of the file, has the hash of its own content as [chunk_hash]
    and an embedding that is not empty; the contents are contents of the
    chunker's chunks, in their order (a chunk without embedding is left
    out), and [chunk_index] goes up from zero. *)
Theorem chunk_and_embed_file_spec (env : environment) (source base file : string) :
  match read_text env file with
  | Content text =>
      match compute_file_hash env file with
      | Raise e => _chunk_and_embed_file env source base file = Raise e
      | Ok hash_of_file =>
          exists chunks,
            _chunk_and_embed_file env source base file = Ok chunks
            /\ Forall (built_for env source file hash_of_file) chunks
            /\ (content <$> chunks)
               `sublist_of`
               (Chunker.content <$> chunk_file text (Chunker.detect_language file))
            /\ indexed_from 0 chunks
      end
  | _ => _chunk_and_embed_file env source base file = Ok []
  end.
Proof.
  unfold _chunk_and_embed_file.
  destruct (read_text env file) as [text| |err]; [|done|done].
  destruct (compute_file_hash env file) as [hash_of_file|e]; [|done].
  set (lang := Chunker.detect_language file).
  destruct (chunk_file text lang) as [|code_chunk code_chunks] eqn:Hchunks.
  - exists []. split; [done|]. split; [done|]. split; [apply sublist_nil_l | done].
  - set (code := code_chunk :: code_chunks) in *.
    destruct (embed_batch env (Chunker.content <$> code)) as [embeddings|err].
    + eexists. split; [done|].
      destruct (chunk_objects_spec env source file base hash_of_file lang
                  (zip code embeddings) 0) as (Hall & Hsub & Hidx).
      split; [done|]. split; [|done].
      etransitivity; [exact Hsub|]. apply fmap_sublist, zip_fst_sublist.
    + eexists. split; [done|].
      apply (chunk_objects_individually_spec env source file base hash_of_file
               lang code 0).
Qed.

End ChunkObjectsFacts.

(** ** A sync as a whole *)

Section SyncFacts.
Import Text Exn SyncEngine.

Lemma categorize_unchanged (env : environment) (db : Db) (source : string)
    (file_paths : list string) :
  (forall file, file ∈ file_paths -> is_unchanged env db source file) ->
  forall acc, categorize_loop env db source file_paths acc = Ok acc.
Proof.
  induction file_paths as [|f rest IH]; intros Hall acc; [done|].
  destruct (Hall f) as (Hex & r & rs & h & Hrows & Hhash & Hfile); [by left|].
  cbn [categorize_loop]. rewrite Hex, Hrows, Hhash. simpl.
  rewrite decide_False by (intros Hne; apply Hne; by rewrite Hfile).
  apply IH. intros file Hin. apply Hall. by right.
Qed.

(** X17: a sync whose candidates are all unchanged (each is on disk and
    the [file_hash] of its first stored chunk is the hash of the file)
    leaves the store as it is and reports nothing: no file processed,
    no chunk added, modified or deleted, no error. *)
Theorem sync_of_unchanged_files (env : environment) (db : Db)
    (source base : string) (changed_files : list string) :
  (forall file, file ∈ changed_files -> is_unchanged env db source file) ->
  sync_files env db source base changed_files = Ok (db, new_stats).
Proof.
  intros Hall. unfold sync_files, _categorize_changes.
  by rewrite categorize_unchanged.
Qed.

Lemma sync_of_unchanged_files_witness :
  let db := {| knowledge_chunks := [ {| id := "0"; chunk := sample_chunk "h" 0 |} ];
               inserted := 1 |} in
  sync_files (dup_env (fun _ => "f0")) db "src" "/p" ["/p/a.py"]
  = Ok (db, new_stats).
Proof.
  intros db. apply sync_of_unchanged_files.
  intros file Hin. apply list_elem_of_singleton in Hin. subst file.
  split; [reflexivity|].
  exists {| id := "0"; chunk := sample_chunk "h" 0 |}, [], "f0".
  split; [reflexivity|]. split; reflexivity.
Defined.

Lemma filter_nil_filter {A} (P Q : A -> bool) (l : list A) :
  List.filter P l = [] -> List.filter P (List.filter Q l) = [].
Proof.
  induction l as [|x l IH]; [done|]. simpl.
  destruct (P x) eqn:HP; [done|]. intros Hl.
  destruct (Q x); simpl; rewrite ?HP; by apply IH.
Qed.

Lemma filter_negb_nil {A} (P : A -> bool) (l : list A) :
  List.filter P (List.filter (fun x => negb (P x)) l) = [].
Proof.
  induction l as [|x l IH]; [done|]. simpl.
  destruct (P x) eqn:HP; simpl; rewrite ?HP; done.
Qed.

Lemma delete_file_chunks_gone (db : Db) (source file : string) :
  _get_chunks_for_file (_delete_file_chunks db source file).1 source file = [].
Proof. unfold _get_chunks_for_file, _delete_file_chunks. simpl. apply filter_negb_nil. Qed.

Lemma delete_file_chunks_none (db : Db) (source file file' : string) :
  _get_chunks_for_file db source file' = [] ->
  _get_chunks_for_file (_delete_file_chunks db source file).1 source file' = [].
Proof. unfold _get_chunks_for_file, _delete_file_chunks. simpl. apply filter_nil_filter. Qed.

Lemma delete_chunks_none (db : Db) (ids : list string) (source file : string) :
  _get_chunks_for_file db source file = [] ->
  _get_chunks_for_file (_delete_chunks db ids) source file = [].
Proof.
  unfold _get_chunks_for_file, _delete_chunks. destruct ids; [done|].
  cbn [knowledge_chunks]. apply filter_nil_filter.
Qed.

Lemma insert_chunks_rows (db : Db) (chunks : list Chunk) :
  knowledge_chunks (_insert_chunks db chunks)
  = knowledge_chunks db ++ rows_from (inserted db) chunks.
Proof.
  unfold _insert_chunks. destruct chunks as [|c chunks].
  - simpl. by rewrite app_nil_r.
  - rewrite insert_batches. cbn [knowledge_chunks].
    by destruct (batches_spec (length (c :: chunks)) (c :: chunks)) as [-> _].
Qed.

Lemma rows_from_other_file (source file : string) (chunks : list Chunk) :
  Forall (fun c => file_path (metadata c) <> file) chunks ->
  forall n, List.filter (of_file source file) (rows_from n chunks) = [].
Proof.
  induction 1 as [|c chunks Hc _ IH]; intros n; [done|]. simpl.
  unfold of_file at 1. simpl.
  destruct (String.eqb_spec (file_path (metadata c)) file); [done|].
  rewrite andb_false_r. apply IH.
Qed.

Lemma insert_chunks_none (db : Db) (chunks : list Chunk) (source file : string) :
  Forall (fun c => file_path (metadata c) <> file) chunks ->
  _get_chunks_for_file db source file = [] ->
  _get_chunks_for_file (_insert_chunks db chunks) source file = [].
Proof.
  intros Hall Hnone. unfold _get_chunks_for_file in *.
  rewrite insert_chunks_rows, List.filter_app, Hnone. simpl.
  by apply rows_from_other_file.
Qed.

Lemma chunk_and_embed_file_paths (env : environment) (source base file : string)
    (chunks : list Chunk) :
  _chunk_and_embed_file env source base file = Ok chunks ->
  Forall (fun c => file_path (metadata c) = file) chunks.
Proof.
  unfold _chunk_and_embed_file.
  destruct (read_text env file) as [text| |err];
    [|by intros [= <-] | by intros [= <-]].
  destruct (compute_file_hash env file) as [hash_of_file|e]; [|done].
  set (lang := Chunker.detect_language file).
  destruct (chunk_file text lang) as [|code_chunk code_chunks];
    [by intros [= <-]|].
  destruct (embed_batch env _) as [embeddings|err]; intros [= <-].
  - destruct (chunk_objects_spec env source file base hash_of_file lang
                (zip (code_chunk :: code_chunks) embeddings) 0) as (Hall & _).
    eapply Forall_impl; [exact Hall|]. by intros c (_ & ? & _).
  - destruct (chunk_objects_individually_spec env source file base hash_of_file
                lang (code_chunk :: code_chunks) 0) as (Hall & _).
    eapply Forall_impl; [exact Hall|]. by intros c (_ & ? & _).
Qed.

Lemma compute_chunk_diff_adds (old_chunks : list Row) (new_chunks : list Chunk)
    (c : Chunk) :
  c ∈ (_compute_chunk_diff old_chunks new_chunks).2 -> c ∈ new_chunks.
Proof.
  unfold _compute_chunk_diff. simpl. rewrite list_elem_of_omap.
  intros (h & _ & Hc). rewrite by_hash_lookup in Hc.
  by apply last_with_hash_Some in Hc as [? _].
Qed.

Lemma deletions_none (source file : string) (files : list string) :
  forall st : Db * SyncStats,
    file ∈ files \/ _get_chunks_for_file st.1 source file = [] ->
    _get_chunks_for_file (foldl (process_deletion source) st files).1 source file
    = [].
Proof.
  induction files as [|f files IH]; intros st Hst.
  - destruct Hst as [Hin|Hnone]; [by apply elem_of_nil in Hin | done].
  - cbn [foldl]. apply IH.
    assert (Hstep : (process_deletion source st f).1
                    = (_delete_file_chunks st.1 source f).1)
      by (unfold process_deletion; by destruct (_delete_file_chunks st.1 source f)).
    rewrite Hstep.
    destruct Hst as [Hin|Hnone].
    + apply elem_of_cons in Hin as [->|Hin]; [|by left].
      right. apply delete_file_chunks_gone.
    + right. by apply delete_file_chunks_none.
Qed.

Lemma aggregate_added_none (source file : string) (st : Db * SyncStats)
    (r : ProcessingResult (list Chunk)) :
  (forall chunks, result r = Some chunks ->
                  Forall (fun c => file_path (metadata c) <> file) chunks) ->
  _get_chunks_for_file st.1 source file = [] ->
  _get_chunks_for_file (aggregate_added st r).1 source file = [].
Proof.
  intros Hres Hnone. unfold aggregate_added.
  destruct (success r), (result r) as [[|c cs]|] eqn:Hr;
    try (destruct (error r); [done|by destruct st]).
  cbn [fst]. apply insert_chunks_none; [|done]. by apply Hres.
Qed.

Lemma aggregate_modified_none (source file : string) (st : Db * SyncStats)
    (r : ProcessingResult (list string * list Chunk)) :
  (forall diff, result r = Some diff ->
                Forall (fun c => file_path (metadata c) <> file) diff.2) ->
  _get_chunks_for_file st.1 source file = [] ->
  _get_chunks_for_file (aggregate_modified st r).1 source file = [].
Proof.
  intros Hres Hnone. unfold aggregate_modified.
  destruct (success r), (result r) as [[to_delete to_add]|] eqn:Hr;
    try (destruct (error r); [done|by destruct st]).
  cbn [fst]. apply insert_chunks_none; [by apply (Hres (to_delete, to_add))|].
  by apply delete_chunks_none.
Qed.

Lemma fold_none {R} (source file : string)
    (step : Db * SyncStats -> ProcessingResult R -> Db * SyncStats)
    (good : ProcessingResult R -> Prop) (results : list (ProcessingResult R)) :
  (forall st r, good r ->
     _get_chunks_for_file st.1 source file = [] ->
     _get_chunks_for_file (step st r).1 source file = []) ->
  Forall good results ->
  forall st,
    _get_chunks_for_file st.1 source file = [] ->
    _get_chunks_for_file (foldl step st results).1 source file = [].
Proof.
  intros Hstep. induction 1 as [|r results Hr _ IH]; intros st Hnone; [done|].
  cbn [foldl]. apply IH. by apply Hstep.
Qed.

(** X18: after a sync that returns, the store holds no chunk of a
    candidate file that is not on disk: its chunks are deleted, and
    neither the additions nor the modifications of the other candidates
    bring a chunk of it back. *)
Theorem sync_removes_deleted_files (env : environment) (db db' : Db)
    (stats : SyncStats) (source base : string) (changed_files : list string) :
  sync_files env db source base changed_files = Ok (db', stats) ->
  forall file,
    file ∈ changed_files -> os_path_exists env file = false ->
    _get_chunks_for_file db' source file = [].
Proof.
  unfold sync_files, _categorize_changes.
  destruct (categorize_loop env db source changed_files _) as [ch|e] eqn:Hcat;
    [|done].
  intros [= Hrun] file Hin Hgone.
  pose proof (categorize_loop_spec env db source changed_files _ ch Hcat)
    as Hspec.
  assert (Hdeleted : file ∈ deleted_files ch)
    by (apply (Hspec file); right; by split).
  assert (Hother : forall f, f ∈ added_files ch \/ f ∈ modified_files ch ->
                             f <> file).
  { intros f Hf ->. destruct (Hspec file) as (_ & Ha & Hm).
    destruct Hf as [Hf|Hf].
    - apply Ha in Hf as [Hf|[_ [Hex _]]]; [by apply elem_of_nil in Hf|].
      congruence.
    - apply Hm in Hf as [Hf|[_ [Hex _]]]; [by apply elem_of_nil in Hf|].
      congruence. }
  set (st1 := foldl (process_deletion source) (db, new_stats) (deleted_files ch))
    in *.
  set (st2 := foldl aggregate_added st1
                (process_files (added_files ch)
                   (_chunk_and_embed_file env source base))) in *.
  assert (H1 : _get_chunks_for_file st1.1 source file = [])
    by (apply deletions_none; by left).
  assert (H2 : _get_chunks_for_file st2.1 source file = []).
  { apply (fold_none source file aggregate_added
             (fun r => forall chunks, result r = Some chunks ->
                Forall (fun c => file_path (metadata c) <> file) chunks));
      [intros; by apply aggregate_added_none | | done].
    unfold process_files. apply Forall_fmap, Forall_forall. intros f Hf. simpl.
    destruct (_chunk_and_embed_file env source base f) as [cs|e] eqn:Hcs;
      simpl; [|done].
    intros chunks [= <-]. apply chunk_and_embed_file_paths in Hcs.
    eapply Forall_impl; [exact Hcs|]. simpl. intros c ->. apply Hother. by left. }
  change db' with (db', stats).1. rewrite <- Hrun.
  apply (fold_none source file aggregate_modified
           (fun r => forall diff, result r = Some diff ->
              Forall (fun c => file_path (metadata c) <> file) diff.2));
    [intros; by apply aggregate_modified_none | | done].
  unfold process_files. apply Forall_fmap, Forall_forall. intros f Hf. simpl.
  unfold _process_modified_file.
  destruct (_chunk_and_embed_file env source base f) as [cs|e] eqn:Hcs;
    simpl; [|done].
  intros diff [= <-]. apply chunk_and_embed_file_paths in Hcs.
  apply Forall_forall. intros c Hc. apply compute_chunk_diff_adds in Hc.
  rewrite Forall_forall in Hcs. rewrite (Hcs c Hc). apply Hother. by right.
Qed.

Lemma sync_removes_deleted_files_witness :
  let db := {| knowledge_chunks := [ {| id := "0"; chunk := sample_chunk "h" 0 |} ];
               inserted := 1 |} in
  exists db' stats,
    sync_files no_disk db "src" "/p" ["/p/a.py"] = Ok (db', stats)
    /\ _get_chunks_for_file db' "src" "/p/a.py" = [].
Proof.
  intros db.
  destruct (sync_files no_disk db "src" "/p" ["/p/a.py"]) as [[db' stats]|e]
    eqn:Hrun; [|vm_compute in Hrun; discriminate Hrun].
  exists db', stats. split; [reflexivity|].
  apply (sync_removes_deleted_files no_disk db db' stats "src" "/p" ["/p/a.py"]
           Hrun "/p/a.py"); [apply list_elem_of_here | reflexivity].
Defined.

End SyncFacts.

(** ** The store after a modified file *)

Section ModifiedFileFacts.
Import Text Exn SyncEngine.

Lemma elem_of_get_chunks (db : Db) (source file : string) (r : Row) :
  r ∈ _get_chunks_for_file db source file
  <-> r ∈ knowledge_chunks db /\ of_file source file r = true.
Proof.
  unfold _get_chunks_for_file. by rewrite !list_elem_of_In, filter_In.
Qed.

Lemma filter_comm {A} (P Q : A -> bool) (l : list A) :
  List.filter P (List.filter Q l) = List.filter Q (List.filter P l).
Proof.
  induction l as [|x l IH]; [done|]. simpl.
  destruct (P x) eqn:HP, (Q x) eqn:HQ; simpl; rewrite ?HP, ?HQ, ?IH; done.
Qed.

Lemma filter_implied {A} (P Q : A -> bool) (l : list A) :
  (forall x, x ∈ l -> P x = true -> Q x = true) ->
  List.filter P (List.filter Q l) = List.filter P l.
Proof.
  induction l as [|x l IH]; intros Himp; [done|]. simpl.
  assert (Hl : forall y, y ∈ l -> P y = true -> Q y = true)
    by (intros y Hy; apply Himp; by right).
  destruct (Q x) eqn:HQ; simpl.
  - destruct (P x); rewrite IH by done; done.
  - destruct (P x) eqn:HP; [|by apply IH].
    rewrite (Himp x) in HQ; [done | by left | done].
Qed.

Lemma filter_true {A} (P : A -> bool) (l : list A) :
  Forall (fun x => P x = true) l -> List.filter P l = l.
Proof. induction 1 as [|x l Hx _ IH]; [done|]. simpl. by rewrite Hx, IH. Qed.

Lemma filter_false {A} (P : A -> bool) (l : list A) :
  Forall (fun x => P x = false) l -> List.filter P l = [].
Proof. induction 1 as [|x l Hx _ IH]; [done|]. simpl. by rewrite Hx. Qed.

Lemma NoDup_fmap_filter {A B} (g : A -> B) (P : A -> bool) (l : list A) :
  NoDup (g <$> l) -> NoDup (g <$> List.filter P l).
Proof.
  induction l as [|x l IH]; [done|]. rewrite fmap_cons.
  intros [Hx Hl]%NoDup_cons. simpl. destruct (P x); [|by apply IH].
  rewrite fmap_cons. apply NoDup_cons. split; [|by apply IH].
  intros Hin. apply Hx. apply list_elem_of_fmap in Hin as (y & -> & Hy).
  apply list_elem_of_fmap_2.
  by apply list_elem_of_In, filter_In in Hy as [?%list_elem_of_In _].
Qed.

Lemma delete_chunks_filter (db : Db) (ids : list string) :
  knowledge_chunks (_delete_chunks db ids)
  = List.filter (fun r => negb (existsb (String.eqb (id r)) ids))
      (knowledge_chunks db).
Proof.
  destruct ids as [|i ids]; [|done]. simpl. symmetry. apply filter_true.
  by apply Forall_forall.
Qed.

Lemma delete_chunks_inserted (db : Db) (ids : list string) :
  inserted (_delete_chunks db ids) = inserted db.
Proof. by destruct ids. Qed.

Lemma rows_from_chunks (chunks : list Chunk) :
  forall n, chunk <$> rows_from n chunks = chunks.
Proof. induction chunks as [|c chunks IH]; intros n; simpl; by rewrite ?IH. Qed.

Lemma diff_deletes (old_chunks : list Row) (new_chunks : list Chunk) (i : string) :
  i ∈ (_compute_chunk_diff old_chunks new_chunks).1
  <-> exists h r,
        h ∈ hashes row_hash old_chunks /\ (h ∉ hashes new_hash new_chunks)
        /\ last_with_hash row_hash h old_chunks = Some r /\ id r = i.
Proof.
  unfold _compute_chunk_diff. simpl.
  rewrite list_elem_of_omap. setoid_rewrite elem_of_elements.
  setoid_rewrite elem_of_difference. rewrite !dom_by_hash.
  setoid_rewrite by_hash_lookup. split.
  - intros (h & [Ho Hn] & Hid).
    destruct (last_with_hash row_hash h old_chunks) as [r|] eqn:Hr; [|done].
    simpl in Hid. injection Hid as <-. by exists h, r.
  - intros (h & r & Ho & Hn & Hr & <-). exists h. rewrite Hr. done.
Qed.

Lemma diff_adds (old_chunks : list Row) (new_chunks : list Chunk) (c : Chunk) :
  c ∈ (_compute_chunk_diff old_chunks new_chunks).2
  <-> exists h,
        h ∈ hashes new_hash new_chunks /\ (h ∉ hashes row_hash old_chunks)
        /\ last_with_hash new_hash h new_chunks = Some c.
Proof.
  unfold _compute_chunk_diff. simpl.
  rewrite list_elem_of_omap. setoid_rewrite elem_of_elements.
  setoid_rewrite elem_of_difference. rewrite !dom_by_hash.
  setoid_rewrite by_hash_lookup. split.
  - intros (h & [Hn Ho] & Hc). by exists h.
  - intros (h & Hn & Ho & Hc). by exists h.
Qed.

Lemma by_hash_hashes (new_chunks : list Chunk) (hs : list string) :
  (forall h, h ∈ hs -> h ∈ hashes new_hash new_chunks) ->
  new_hash <$> omap (fun h => by_hash new_hash new_chunks !! h) hs = Some <$> hs.
Proof.
  induction hs as [|h hs IH]; intros Hall; [done|]. simpl.
  rewrite by_hash_lookup.
  destruct (proj2 (last_with_hash_is_Some new_hash new_chunks h)) as [c Hc];
    [apply Hall; by left|].
  rewrite Hc. simpl.
  apply last_with_hash_Some in Hc as [_ ->]. f_equal.
  apply IH. intros h' Hh'. apply Hall. by right.
Qed.

Lemma diff_add_hashes (old_chunks : list Row) (new_chunks : list Chunk) :
  new_hash <$> (_compute_chunk_diff old_chunks new_chunks).2
  = Some <$> elements (hashes new_hash new_chunks ∖ hashes row_hash old_chunks).
Proof.
  unfold _compute_chunk_diff. simpl. rewrite !dom_by_hash.
  apply by_hash_hashes. intros h Hh.
  by apply elem_of_elements, elem_of_difference in Hh as [? _].
Qed.

Lemma kept_or_deleted (old_chunks : list Row) (new_chunks : list Chunk)
    (r : Row) (h : string) :
  NoDup (id <$> old_chunks) -> NoDup (row_hash <$> old_chunks) ->
  r ∈ old_chunks -> row_hash r = Some h ->
  id r ∈ (_compute_chunk_diff old_chunks new_chunks).1
  <-> h ∉ hashes new_hash new_chunks.
Proof.
  intros Hids Hhashes Hr Hh. rewrite diff_deletes. split.
  - intros (h' & r' & _ & Hno & Hlast & Hid).
    apply last_with_hash_Some in Hlast as [Hr' Hh'].
    assert (r' = r) as -> by (by apply (NoDup_fmap_eq id old_chunks)).
    congruence.
  - intros Hno.
    destruct (proj2 (last_with_hash_is_Some row_hash old_chunks h)) as [r' Hlast].
    { apply elem_of_list_to_set, list_elem_of_omap. by exists r. }
    exists h, r'. split.
    { apply elem_of_list_to_set, list_elem_of_omap. by exists r. }
    split; [done|]. split; [done|].
    apply last_with_hash_Some in Hlast as [Hr' Hh'].
    f_equal. apply (NoDup_fmap_eq row_hash old_chunks); [done|done|done|congruence].
Qed.

Lemma not_in_ids (i : string) (ids : list string) :
  negb (existsb (String.eqb i) ids) = true <-> i ∉ ids.
Proof.
  rewrite negb_true_iff. split.
  - intros Hex Hin. assert (existsb (String.eqb i) ids = true); [|congruence].
    apply existsb_exists. exists i.
    split; [by apply list_elem_of_In | apply String.eqb_refl].
  - intros Hno. destruct (existsb (String.eqb i) ids) eqn:Hex; [|done].
    apply existsb_exists in Hex as (x & Hx & Heq). apply String.eqb_eq in Heq.
    subst x. exfalso. by apply Hno, list_elem_of_In.
Qed.

Lemma of_file_true (source file : string) (r : Row) :
  of_file source file r = true
  <-> source_id (chunk r) = source /\ file_path (metadata (chunk r)) = file.
Proof. unfold of_file. by rewrite andb_true_iff, !String.eqb_eq. Qed.

Lemma rows_from_elem (chunks : list Chunk) (n : nat) (r : Row) :
  r ∈ rows_from n chunks -> chunk r ∈ chunks.
Proof.
  intros Hr. rewrite <- (rows_from_chunks chunks n). by apply list_elem_of_fmap_2.
Qed.

Lemma rows_from_hashes (chunks : list Chunk) (n : nat) :
  row_hash <$> rows_from n chunks = new_hash <$> chunks.
Proof. revert n. induction chunks as [|c chunks IH]; intros n; simpl; by rewrite ?IH. Qed.

Lemma chunk_and_embed_file_source (env : environment) (source base file : string)
    (chunks : list Chunk) :
  _chunk_and_embed_file env source base file = Ok chunks ->
  Forall (fun c => source_id c = source /\ file_path (metadata c) = file) chunks.
Proof.
  unfold _chunk_and_embed_file.
  destruct (read_text env file) as [text| |err];
    [|by intros [= <-] | by intros [= <-]].
  destruct (compute_file_hash env file) as [hash_of_file|e]; [|done].
  set (lang := Chunker.detect_language file).
  destruct (chunk_file text lang) as [|code_chunk code_chunks];
    [by intros [= <-]|].
  destruct (embed_batch env _) as [embeddings|err]; intros [= <-].
  - destruct (chunk_objects_spec env source file base hash_of_file lang
                (zip (code_chunk :: code_chunks) embeddings) 0) as (Hall & _).
    eapply Forall_impl; [exact Hall|]. by intros c (? & ? & _).
  - destruct (chunk_objects_individually_spec env source file base hash_of_file
                lang (code_chunk :: code_chunks) 0) as (Hall & _).
    eapply Forall_impl; [exact Hall|]. by intros c (? & ? & _).
Qed.

(** X19: when the rows of a modified file have pairwise distinct, non
    empty chunk hashes and the ids of the store are unique, applying the
    diff of the file leaves for it exactly the hashes of its new chunks,
    again pairwise distinct: the rows whose hash is still there are
    kept, the others are deleted, and one row is added for every new
    hash.  The rows of every other file, and of every other source, are
    as they were. *)
Theorem modified_file_store (env : environment) (db : Db) (stats : SyncStats)
    (source base file : string) (new_chunks : list Chunk) :
  NoDup (id <$> knowledge_chunks db) ->
  NoDup (row_hash <$> _get_chunks_for_file db source file) ->
  Forall (fun r => is_Some (row_hash r)) (_get_chunks_for_file db source file) ->
  _chunk_and_embed_file env source base file = Ok new_chunks ->
  let r := _process_single_file file
             (_process_modified_file env db source base file) in
  let db' := (aggregate_modified (db, stats) r).1 in
  hashes row_hash (_get_chunks_for_file db' source file)
  = hashes new_hash new_chunks
  /\ NoDup (row_hash <$> _get_chunks_for_file db' source file)
  /\ Forall (fun r => is_Some (row_hash r)) (_get_chunks_for_file db' source file)
  /\ forall source' file',
       source' <> source \/ file' <> file ->
       _get_chunks_for_file db' source' file'
       = _get_chunks_for_file db source' file'.
Proof.
  intros Hids Hhashes Htruthy Hnew r db'.
  set (old := _get_chunks_for_file db source file) in *.
  set (del := (_compute_chunk_diff old new_chunks).1).
  set (add := (_compute_chunk_diff old new_chunks).2).
  assert (Hdb' : db' = _insert_chunks (_delete_chunks db del) add).
  { subst db' r del add. unfold _process_modified_file. rewrite Hnew.
    fold old. by destruct (_compute_chunk_diff old new_chunks). }
  set (keep := fun r : Row => negb (existsb (String.eqb (id r)) del)).
  assert (Hrows : knowledge_chunks db'
                  = List.filter keep (knowledge_chunks db)
                    ++ rows_from (inserted db) add)
    by (by rewrite Hdb', insert_chunks_rows, delete_chunks_filter,
             delete_chunks_inserted).
  clearbody db'. clear Hdb' r.
  pose proof (chunk_and_embed_file_source _ _ _ _ _ Hnew) as Hbuilt.
  rewrite Forall_forall in Hbuilt.
  assert (Hadd : forall r, r ∈ rows_from (inserted db) add ->
                           chunk r ∈ new_chunks).
  { intros r Hr. apply rows_from_elem in Hr.
    by apply compute_chunk_diff_adds in Hr. }
  assert (Hafter : _get_chunks_for_file db' source file
                   = List.filter keep old ++ rows_from (inserted db) add).
  { unfold _get_chunks_for_file at 1. rewrite Hrows, List.filter_app.
    rewrite filter_comm. f_equal. apply filter_true, Forall_forall.
    intros r Hr. apply of_file_true, Hbuilt. by apply Hadd. }
  assert (Hold_ids : NoDup (id <$> old)) by (by apply NoDup_fmap_filter).
  assert (Hkeep : forall r, r ∈ List.filter keep old
                            <-> r ∈ old /\ id r ∉ del).
  { intros r. rewrite list_elem_of_In, filter_In, <- list_elem_of_In.
    unfold keep. by rewrite not_in_ids. }
  assert (Hkept : forall r h, r ∈ old -> row_hash r = Some h ->
                    (r ∈ List.filter keep old <-> h ∈ hashes new_hash new_chunks)).
  { intros r h Hr Hh. rewrite Hkeep.
    pose proof (kept_or_deleted old new_chunks r h Hold_ids Hhashes Hr Hh) as Hd.
    fold del in Hd. rewrite Hd.
    destruct (decide (h ∈ hashes new_hash new_chunks)); tauto. }
  rewrite Forall_forall in Htruthy.
  split; [|split; [|split]].
  - rewrite Hafter. apply set_eq. intros h. unfold hashes at 1.
    rewrite elem_of_list_to_set, list_elem_of_omap. split.
    + intros (r & Hr & Hh). apply elem_of_app in Hr as [Hr|Hr].
      * apply (Hkept r h); [|done|done]. by apply Hkeep in Hr as [? _].
      * apply elem_of_list_to_set, list_elem_of_omap.
        exists (chunk r). split; [by apply Hadd | done].
    + intros Hh. destruct (decide (h ∈ hashes row_hash old)) as [Hold|Hold].
      * apply elem_of_list_to_set, list_elem_of_omap in Hold as (r & Hr & Hrh).
        exists r. split; [|done]. apply elem_of_app. left. by apply (Hkept r h).
      * destruct (proj2 (last_with_hash_is_Some new_hash new_chunks h) Hh)
          as [c Hc].
        assert (Hin : c ∈ add) by (apply diff_adds; by exists h).
        apply last_with_hash_Some in Hc as [_ Hch].
        rewrite <- (rows_from_chunks add (inserted db)) in Hin.
        apply list_elem_of_fmap in Hin as (r & -> & Hr).
        exists r. split; [|done]. apply elem_of_app. by right.
  - rewrite Hafter, fmap_app. apply NoDup_app. split; [|split].
    + by apply NoDup_fmap_filter.
    + intros x Hx Hx'. apply list_elem_of_fmap in Hx as (r & -> & Hr).
      apply Hkeep in Hr as [Hr _]. destruct (Htruthy r Hr) as [h Hh].
      rewrite rows_from_hashes in Hx'. unfold add in Hx'.
      rewrite diff_add_hashes, Hh in Hx'.
      apply list_elem_of_fmap in Hx' as (h' & [= <-] & Hh').
      apply elem_of_elements, elem_of_difference in Hh' as [_ Hno].
      apply Hno, elem_of_list_to_set, list_elem_of_omap. by exists r.
    + rewrite rows_from_hashes. unfold add. rewrite diff_add_hashes.
      apply NoDup_fmap; [by intros ? ? [= ->] | apply NoDup_elements].
  - rewrite Hafter. apply Forall_app. split.
    + apply Forall_forall. intros r Hr. apply Htruthy.
      by apply Hkeep in Hr as [? _].
    + apply Forall_forall. intros r Hr.
      assert (Hx : row_hash r ∈ row_hash <$> rows_from (inserted db) add)
        by (by apply list_elem_of_fmap_2).
      rewrite rows_from_hashes in Hx. unfold add in Hx.
      rewrite diff_add_hashes in Hx.
      apply list_elem_of_fmap in Hx as (h & -> & _). by eexists.
  - intros source' file' Hother. unfold _get_chunks_for_file.
    rewrite Hrows, List.filter_app.
    rewrite (filter_false _ (rows_from (inserted db) add)), app_nil_r.
    + apply filter_implied. intros x Hx Hof. apply not_in_ids. intros Hdel.
      apply diff_deletes in Hdel as (h & r & _ & _ & Hlast & Hid).
      apply last_with_hash_Some in Hlast as [Hr _].
      assert (Hr' := Hr). apply elem_of_get_chunks in Hr' as [Hr' Hof'].
      assert (r = x) as -> by (by apply (NoDup_fmap_eq id (knowledge_chunks db))).
      apply of_file_true in Hof as [? ?]. apply of_file_true in Hof' as [? ?].
      destruct Hother; congruence.
    + apply Forall_forall. intros x Hx.
      destruct (of_file source' file' x) eqn:Hof; [|done].
      apply of_file_true in Hof as [? ?].
      destruct (Hbuilt (chunk x)) as [? ?]; [by apply Hadd|].
      destruct Hother; congruence.
Qed.

Lemma modified_file_store_witness :
  let db := {| knowledge_chunks := [ {| id := "0"; chunk := sample_chunk "h" 0 |} ];
               inserted := 1 |} in
  let env := dup_env (fun s => s) in
  let r := _process_single_file "/p/a.py"
             (_process_modified_file env db "src" "/p" "/p/a.py") in
  exists new_chunks,
    _chunk_and_embed_file env "src" "/p" "/p/a.py" = Ok new_chunks
    /\ hashes row_hash
         (_get_chunks_for_file (aggregate_modified (db, new_stats) r).1
            "src" "/p/a.py")
       = hashes new_hash new_chunks.
Proof.
  intros db env r.
  destruct (_chunk_and_embed_file env "src" "/p" "/p/a.py") as [new_chunks|e]
    eqn:Hnew; [|vm_compute in Hnew; discriminate Hnew].
  exists new_chunks. split; [reflexivity|].
  apply (modified_file_store env db new_stats "src" "/p" "/p/a.py" new_chunks).
  - simpl. apply NoDup_singleton.
  - vm_compute. apply NoDup_singleton.
  - vm_compute. repeat constructor. by eexists.
  - exact Hnew.
Defined.

End ModifiedFileFacts.

(** ** The chunker as the engine calls it *)

Section EngineChunkingFacts.
Import Text Chunker.

Lemma chunk_structured_nonempty lang decl content max_lines overlap_lines :
  chunk_structured lang decl content max_lines overlap_lines <> [].
Proof.
  unfold chunk_structured. eapply finish_nonempty; [|done|done].
  apply scan_has_lines; [apply structured_step_has_lines | apply split_nl_nonempty].
Qed.

Lemma chunk_markdown_nonempty content max_lines :
  _chunk_markdown content max_lines <> [].
Proof.
  unfold _chunk_markdown. eapply finish_nonempty; [|done|done].
  apply scan_has_lines; [apply markdown_step_has_lines | apply split_nl_nonempty].
Qed.

Lemma chunk_generic_nonempty fuel content max_lines overlap_lines cs :
  _chunk_generic fuel content max_lines overlap_lines = Some cs -> cs <> [].
Proof.
  unfold _chunk_generic. destruct fuel as [|fuel]; [done|]. simpl.
  pose proof (len_split_nl_pos content).
  destruct (Z.ltb_spec 0 (len (split_nl content))); [|lia].
  intros Hrun. apply generic_loop_extends in Hrun as [more ->]. done.
Qed.

(** X20: with the default sizes the chunker returns for every text and
    every language, the generic loop after at most one turn per line,
    and it returns at least one chunk: the engine never drops a file it
    could read for want of chunks. *)
Theorem engine_chunks_every_file (content language : string) :
  chunk_file (S (length (split_nl content))) content language
    DEFAULT_CHUNK_SIZE DEFAULT_OVERLAP
  = Some (SyncEngine.chunk_file content language)
  /\ SyncEngine.chunk_file content language <> [].
Proof.
  unfold SyncEngine.chunk_file.
  destruct (chunk_file (S (length (split_nl content))) content language
              DEFAULT_CHUNK_SIZE DEFAULT_OVERLAP) as [cs|] eqn:Hrun.
  - split; [done|]. simpl. unfold chunk_file in Hrun.
    destruct (String.eqb language "python");
      [injection Hrun as <-; apply chunk_structured_nonempty|].
    destruct (existsb _ _);
      [injection Hrun as <-; apply chunk_structured_nonempty|].
    destruct (String.eqb language "markdown");
      [injection Hrun as <-; apply chunk_markdown_nonempty|].
    by eapply chunk_generic_nonempty.
  - exfalso. unfold chunk_file in Hrun.
    destruct (String.eqb language "python"); [done|].
    destruct (existsb _ _); [done|].
    destruct (String.eqb language "markdown"); [done|].
    unfold _chunk_generic in Hrun.
    destruct (generic_loop_enough_fuel (split_nl content) DEFAULT_CHUNK_SIZE
                DEFAULT_OVERLAP eq_refl (S (length (split_nl content))) 0 [])
      as [cs Hcs]; [unfold len; lia | congruence].
Qed.

End EngineChunkingFacts.

(** ** Deduplication of a list of events *)

Section DeduplicateFacts.
Import Debouncer.

Lemma dedup_step_inv (m : gmap string FileEvent) (seen : list FileEvent)
    (x : FileEvent) :
  dedup_inv m seen -> dedup_inv (dedup_step m x) (seen ++ [x]).
Proof.
  intros Hinv file. unfold dedup_step.
  pose proof (Hinv (file_path x)) as Hx. pose proof (Hinv file) as Hf.
  destruct (decide (file = file_path x)) as [->|Hne].
  - destruct (m !! file_path x) as [kept|] eqn:Hkept.
    + destruct Hx as (Hin & Hpath & Hmax).
      destruct (Qle_bool (timestamp x) (timestamp kept)) eqn:Hle; simpl.
      * rewrite Hkept. split; [apply elem_of_app; by left|]. split; [done|].
        intros e' [He'|He']%elem_of_app Hp; [by apply Hmax|].
        apply list_elem_of_singleton in He'. subst e'. by apply Qle_bool_iff.
      * rewrite lookup_insert_eq.
        assert (Hlt : (timestamp kept < timestamp x)%Q).
        { apply Qnot_le_lt. rewrite <- Qle_bool_iff. congruence. }
        split; [apply elem_of_app; right; by apply list_elem_of_singleton|].
        split; [done|].
        intros e' [He'|He']%elem_of_app Hp.
        -- apply Qle_trans with (timestamp kept); [by apply Hmax|].
           by apply Qlt_le_weak.
        -- apply list_elem_of_singleton in He'. subst e'. apply Qle_refl.
    + rewrite lookup_insert_eq.
      split; [apply elem_of_app; right; by apply list_elem_of_singleton|].
      split; [done|].
      intros e' [He'|He']%elem_of_app Hp; [by destruct (Hx e' He')|].
      apply list_elem_of_singleton in He'. subst e'. apply Qle_refl.
  - assert (Hsame : match m !! file_path x with
                    | Some kept =>
                        if negb (Qle_bool (timestamp x) (timestamp kept))
                        then <[file_path x := x]> m else m
                    | None => <[file_path x := x]> m
                    end !! file = m !! file).
    { destruct (m !! file_path x) as [kept|]; [destruct (negb _)|];
        try done; by apply lookup_insert_ne. }
    rewrite Hsame. destruct (m !! file) as [e|].
    + destruct Hf as (Hin & Hpath & Hmax).
      split; [apply elem_of_app; by left|]. split; [done|].
      intros e' [He'|He']%elem_of_app Hp; [by apply Hmax|].
      apply list_elem_of_singleton in He'. subst e'. congruence.
    + intros e' [He'|He']%elem_of_app; [by apply Hf|].
      apply list_elem_of_singleton in He'. subst e'. congruence.
Qed.

Lemma dedup_fold_inv (events : list FileEvent) :
  dedup_inv (foldl dedup_step ∅ events) events.
Proof.
  induction events as [|x events IH] using rev_ind.
  - intros file. simpl. rewrite lookup_empty. intros e' He'.
    by apply elem_of_nil in He'.
  - rewrite foldl_app. simpl. by apply dedup_step_inv.
Qed.

(** X21: [_deduplicate_events] keeps, for every file that has an event
    in the list, exactly one event: one of those of the list for that
    file, and none of them has a later timestamp; a file without event
    in the list has none in the result. *)
Theorem deduplicate_events_spec (events : list FileEvent) (file : string) :
  ((exists e0, e0 ∈ events /\ file_path e0 = file) ->
   exists e, entries_for file (_deduplicate_events events) = [e]
             /\ latest_for file events e)
  /\ ((forall e0, e0 ∈ events -> file_path e0 <> file) ->
      entries_for file (_deduplicate_events events) = []).
Proof.
  pose proof (dedup_fold_inv events) as Hinv.
  set (m := foldl dedup_step ∅ events) in *.
  assert (Hkeys : forall k v, m !! k = Some v -> file_path v = k).
  { intros k v Hk. pose proof (Hinv k) as H. rewrite Hk in H.
    by destruct H as (_ & ? & _). }
  unfold _deduplicate_events. fold m. split.
  - intros (e0 & Hin & Hpath). pose proof (Hinv file) as Hf.
    destruct (m !! file) as [e|] eqn:He; [|by destruct (Hf e0 Hin)].
    exists e. split; [by apply entries_for_bucket | done].
  - intros Hnone. unfold entries_for. apply filter_none, Forall_forall.
    intros v Hv Hpath. apply list_elem_of_fmap in Hv as ([k v'] & -> & Hkv).
    apply elem_of_map_to_list in Hkv. simpl in Hpath.
    pose proof (Hinv k) as Hk. rewrite Hkv in Hk. destruct Hk as (Hin & _ & _).
    by apply (Hnone v').
Qed.

Lemma deduplicate_events_spec_witness :
  exists e,
    entries_for "/p/a.py" (_deduplicate_events [sample_event 5; sample_event 3])
    = [e]
    /\ latest_for "/p/a.py" [sample_event 5; sample_event 3] e.
Proof.
  apply (proj1 (deduplicate_events_spec [sample_event 5; sample_event 3] "/p/a.py")).
  exists (sample_event 5). split; [apply list_elem_of_here | reflexivity].
Defined.

End DeduplicateFacts.

(** ** The sections of a Markdown file *)

Section MarkdownSectionFacts.
Import Text Chunker.

Lemma emit_section_ok (max_lines : Z) (st : scan_state) (n : Z) :
  Forall (section_ok max_lines) (chunks st) ->
  section_lines max_lines (current_section_name st) (current_chunk_lines st) ->
  current_chunk_lines st <> [] -> clean (current_chunk_lines st) ->
  Forall (section_ok max_lines) (emit "markdown" st n).
Proof.
  intros Hchunks Hcur Hne Hclean. unfold emit.
  apply Forall_app. split; [done|]. constructor; [|done].
  unfold section_ok, body_lines. simpl. by rewrite split_join_nl.
Qed.

Lemma markdown_step_sections (max_lines : Z) (st : scan_state) (idx : Z)
    (line : string) :
  sections_inv max_lines st -> no_newline line = true ->
  sections_inv max_lines (markdown_step max_lines st idx line).
Proof.
  intros [Hchunks Hcur Hroom Hclean] Hline. unfold markdown_step.
  set (st0 := {| chunks := chunks st;
                 current_chunk_lines := current_chunk_lines st;
                 current_start_line := current_start_line st;
                 current_section_type := Some "section";
                 current_section_name := current_section_name st |}).
  set (st1 := match md_header_match line with Some _ => _ | None => _ end).
  assert (H1 : Forall (section_ok max_lines) (chunks st1)
               /\ section_lines max_lines (current_section_name st1)
                    (current_chunk_lines st1)
               /\ current_chunk_lines st1 <> []
               /\ clean (current_chunk_lines st1)).
  { subst st1. destruct (md_header_match line) as [title|] eqn:Hmatch; simpl.
    - split; [|split; [|split]].
      + destruct (current_chunk_lines st) as [|l0 ls0] eqn:Hc; [done|].
        apply emit_section_ok; simpl; rewrite ?Hc; done.
      + split; [unfold len; simpl; lia|]. split; [done|].
        intros l title' [= <-] Hl. congruence.
      + done.
      + by repeat constructor.
    - split; [done|]. split; [|split].
      + destruct Hcur as (Hlen & Htail & Hhead). split; [|split].
        * intros Hmax. rewrite len_snoc. specialize (Hroom Hmax). lia.
        * destruct (current_chunk_lines st) as [|l0 ls0]; [done|]. simpl in *.
          apply Forall_app. split; [done|]. by repeat constructor.
        * intros l title Hl Hm.
          destruct (current_chunk_lines st) as [|l0 ls0]; simpl in *.
          -- injection Hl as <-. congruence.
          -- by apply (Hhead l).
      + by destruct (current_chunk_lines st).
      + apply Forall_app. split; [done|]. by repeat constructor. }
  clearbody st1. clear st0. destruct H1 as (Hc1 & Hl1 & Hne1 & Hclean1).
  destruct (Z.geb_spec (len (current_chunk_lines st1)) max_lines) as [Hfull|Hless].
  - constructor; simpl.
    + by apply emit_section_ok.
    + split; [unfold len; simpl; lia|]. split; [done|]. by intros.
    + unfold len. simpl. lia.
    + done.
  - constructor; (done || (intros _; lia)).
Qed.

Lemma scan_markdown_sections (max_lines : Z) (rest : list string) :
  forall st idx,
    sections_inv max_lines st -> clean rest ->
    sections_inv max_lines (scan (markdown_step max_lines) st idx rest).
Proof.
  induction rest as [|line rest IH]; intros st idx Hinv Hclean; [done|].
  apply Forall_cons in Hclean as [Hline Hclean]. simpl.
  apply IH; [|done]. by apply markdown_step_sections.
Qed.

(** X22: no Markdown chunk holds a header but on its first line, and a
    chunk that starts with a header is named after it; with a limit of
    one line or more no chunk has more lines than the limit. *)
Theorem markdown_sections (content : string) (max_lines : Z) :
  Forall (section_ok max_lines) (_chunk_markdown content max_lines).
Proof.
  unfold _chunk_markdown.
  assert (Hinit : sections_inv max_lines scan_init).
  { constructor; simpl; try done.
    - split; [unfold len; simpl; lia|]. split; [done|]. by intros.
    - unfold len. simpl. lia. }
  pose proof (scan_markdown_sections max_lines (split_nl content) scan_init 1
                Hinit (split_nl_no_newline content))
    as [Hchunks Hcur Hroom Hclean].
  set (st := scan (markdown_step max_lines) scan_init 1 (split_nl content)) in *.
  unfold finish. simpl.
  destruct (current_chunk_lines st) as [|l ls] eqn:Hc; [done|].
  apply emit_section_ok; simpl; rewrite ?Hc; done.
Qed.

End MarkdownSectionFacts.

(** ** The scan of a project directory *)

Section ScanDirectoryFacts.
Import Text Exn SyncEngine.

Lemma tree_induction (P : tree -> Prop) :
  (forall files dirs, Forall (fun entry => P entry.2) dirs -> P (Node files dirs)) ->
  forall t, P t.
Proof.
  intros Hnode. fix IH 1. intros [files dirs]. apply Hnode.
  induction dirs as [|[d sub] dirs IHdirs]; constructor; [apply IH | apply IHdirs].
Qed.

Lemma endswith_app_l (a b ext : string) :
  endswith b ext = true -> endswith (a +:+ b) ext = true.
Proof.
  intros Hb. induction a as [|c a IH]; [done|].
  change (String c a +:+ b) with (String c (a +:+ b)). cbn [endswith].
  rewrite IH. apply orb_true_r.
Qed.

Lemma path_join_endswith (a b ext : string) :
  endswith b ext = true -> endswith (path_join a b) ext = true.
Proof.
  intros Hb. unfold path_join. destruct (startswith b "/"); [done|].
  destruct (_ || _); [by apply endswith_app_l|].
  apply endswith_app_l. by apply (endswith_app_l "/").
Qed.

Lemma scan_directory_elem (t : tree) :
  forall (directory p : string),
    p ∈ _scan_directory directory t
    <-> exists ds file,
          file_at t ds file
          /\ Forall (fun d => excluded d = false) ds
          /\ included file = true
          /\ p = path_join (foldl path_join directory ds) file.
Proof.
  induction t as [files dirs IH] using tree_induction. intros directory p.
  cbn [_scan_directory]. rewrite elem_of_app. split.
  - intros [Hp|Hp].
    + apply list_elem_of_fmap in Hp as (file & -> & Hfile).
      apply list_elem_of_In, filter_In in Hfile as [Hfile Hinc].
      exists [], file. split; [constructor; by apply list_elem_of_In|].
      by repeat split.
    + apply list_elem_of_In, in_flat_map in Hp as ([d sub] & Hentry & Hp).
      apply list_elem_of_In in Hentry.
      destruct (excluded d) eqn:Hex; [by apply in_nil in Hp|].
      rewrite Forall_forall in IH.
      apply list_elem_of_In, (IH (d, sub) Hentry) in Hp
        as (ds & file & Hat & Hds & Hinc & ->).
      exists (d :: ds), file. split; [by econstructor|].
      split; [by constructor|]. by split.
  - intros (ds & file & Hat & Hds & Hinc & ->).
    inversion Hat as [files' dirs' file' Hfile|files' dirs' d sub ds' file' Hentry Hsub];
      subst.
    + left. apply list_elem_of_fmap_2, list_elem_of_In, filter_In.
      split; [by apply list_elem_of_In | done].
    + right. apply Forall_cons in Hds as [Hd Hds].
      apply list_elem_of_In, in_flat_map. exists (d, sub).
      split; [by apply list_elem_of_In|]. rewrite Hd.
      rewrite Forall_forall in IH. apply list_elem_of_In, (IH (d, sub) Hentry).
      by exists ds', file.
Qed.

(** X23: [_scan_directory] returns exactly the files of the tree whose
    name ends with one of the included extensions and that lie below no
    excluded directory ([.git], [node_modules], ... at any depth), each
    under the path made of the directory names that lead to it; every
    path it returns ends with an included extension. *)
Theorem scan_directory_spec (directory : string) (t : tree) :
  (forall p,
     p ∈ _scan_directory directory t
     <-> exists ds file,
           file_at t ds file
           /\ Forall (fun d => excluded d = false) ds
           /\ included file = true
           /\ p = path_join (foldl path_join directory ds) file)
  /\ Forall (fun p => included p = true) (_scan_directory directory t).
Proof.
  split; [intros p; apply scan_directory_elem|].
  apply Forall_forall. intros p Hp.
  apply scan_directory_elem in Hp as (ds & file & _ & _ & Hinc & ->).
  unfold included in *. apply existsb_exists in Hinc as (ext & Hext & Hends).
  apply existsb_exists. exists ext. split; [done|].
  by apply path_join_endswith.
Qed.

Lemma scan_directory_spec_witness :
  let t := Node ["README.md"; "logo.png"]
             [ ("node_modules", Node ["index.js"] []);
               ("src", Node ["main.py"] []) ] in
  "/p/src/main.py" ∈ _scan_directory "/p" t.
Proof.
  intros t. apply (proj1 (scan_directory_spec "/p" t)).
  exists ["src"], "main.py". split.
  - apply (file_below _ _ "src" (Node ["main.py"] [])).
    + apply list_elem_of_further, list_elem_of_here.
    + apply file_here, list_elem_of_here.
  - split; [by repeat constructor|]. split; reflexivity.
Defined.

End ScanDirectoryFacts.
